(** * Script parser and waveform concatenator: a shallow embedding

    The development embeds [script_parser_module.ScriptParser] and
    [audio_processor_module.AudioProcessor.concatenate_with_crossfade]
    and proves properties of the embedded functions.

    Conventions of the model:
    - a Python [str] is a [string]; the text is taken to be ASCII, so the
      case conversions and the white-space test are those of Python on
      code points below 128;
    - a Python [dict] is an association list in insertion order, the first
      binding of a key being the live one;
    - a raised exception is the [Raise] branch of [result];
    - a Python [int] is a [Z]; a [float] is a value of [Float.float], and
      the division that gives the crossfade window and the [float32]
      arithmetic of [save_audio] round as IEEE 754 does;
    - an audio sample handed to the concatenator is a finite number, taken
      as an exact rational ([Q]): the products and sums of the crossfade
      are exact, their rounding is not modelled. *)

From Stdlib Require Import String Ascii List Bool Arith ZArith NArith QArith Lia.
From Stdlib Require Import Qabs Qminmax Lqa DecimalString.
Import ListNotations.

Local Close Scope Q_scope.
Local Open Scope nat_scope.
Local Open Scope string_scope.
Local Open Scope list_scope.

(** ** Exceptions *)

Inductive exn : Type :=
| ValueError (msg : string)
| IndexError
| KeyError (key : string)
| OverflowError (msg : string)
| ZeroDivisionError (msg : string).

Inductive result (A : Type) : Type :=
| Ok (a : A)
| Raise (e : exn).

Arguments Ok {A} a.
Arguments Raise {A} e.

Definition bind {A B : Type} (r : result A) (f : A -> result B) : result B :=
  match r with
  | Ok a => f a
  | Raise e => Raise e
  end.

Notation "x <- r ;; k" := (bind r (fun x => k))
  (at level 61, r at next level, right associativity).

(** ** Python string primitives (ASCII)

    The primitives are those of Python on strings whose characters are all
    ASCII. A character of code 128 or more stands for no code point of
    Python: the case conversions leave it alone, where Python's may change
    a letter outside ASCII. *)

Module PyStr.

Definition code (c : ascii) : N := N_of_ascii c.

Definition between (lo hi : N) (c : ascii) : bool :=
  ((lo <=? code c) && (code c <=? hi))%N.

(** [str.isspace] on one ASCII character: TAB, LF, VT, FF, CR, the four
    separators FS, GS, RS, US, and the space. *)
Definition is_space (c : ascii) : bool :=
  between 9 13 c || between 28 32 c.

Definition is_AZ (c : ascii) : bool := between 65 90 c.
Definition is_az (c : ascii) : bool := between 97 122 c.

Definition upper_char (c : ascii) : ascii :=
  if is_az c then ascii_of_N (code c - 32) else c.

Definition lower_char (c : ascii) : ascii :=
  if is_AZ c then ascii_of_N (code c + 32) else c.

Fixpoint map_chars (f : ascii -> ascii) (s : string) : string :=
  match s with
  | EmptyString => EmptyString
  | String c s' => String (f c) (map_chars f s')
  end.

Definition upper (s : string) : string := map_chars upper_char s.
Definition lower (s : string) : string := map_chars lower_char s.

Fixpoint lstrip (s : string) : string :=
  match s with
  | EmptyString => EmptyString
  | String c s' => if is_space c then lstrip s' else s
  end.

Fixpoint rstrip (s : string) : string :=
  match s with
  | EmptyString => EmptyString
  | String c s' =>
      match rstrip s' with
      | EmptyString => if is_space c then EmptyString else String c EmptyString
      | r => String c r
      end
  end.

Definition strip (s : string) : string := rstrip (lstrip s).

(** [s.split(d)] for a one-character separator. *)
Fixpoint split_on (d : ascii) (s : string) : list string :=
  match s with
  | EmptyString => [EmptyString]
  | String c s' =>
      if Ascii.eqb c d then EmptyString :: split_on d s'
      else match split_on d s' with
           | h :: t => String c h :: t
           | [] => [String c EmptyString]
           end
  end.

(** [s.split()]: the maximal runs of non-space characters. *)
Fixpoint split_ws (s : string) : list string :=
  match s with
  | EmptyString => []
  | String c s' =>
      if is_space c then split_ws s'
      else match s' with
           | EmptyString => [String c EmptyString]
           | String c' _ =>
               if is_space c' then String c EmptyString :: split_ws s'
               else match split_ws s' with
                    | h :: t => String c h :: t
                    | [] => [String c EmptyString]
                    end
           end
  end.

(** [sep.join(l)] *)
Definition join (sep : string) (l : list string) : string := String.concat sep l.

(** [s.startswith(p)] *)
Definition startswith (s p : string) : bool := String.prefix p s.

(** [sub in s] *)
Fixpoint contains (sub s : string) : bool :=
  String.prefix sub s ||
  match s with
  | EmptyString => false
  | String _ s' => contains sub s'
  end.

(** [x in l] for a collection of strings. *)
Definition mem (x : string) (l : list string) : bool :=
  existsb (String.eqb x) l.

(** Truth value of a string: non-empty. *)
Definition truthy (s : string) : bool :=
  match s with
  | EmptyString => false
  | String _ _ => true
  end.

Definition nl : ascii := ascii_of_N 10.

End PyStr.

Import PyStr.

(** ** Dictionaries *)

Module Dict.

Definition t (V : Type) : Type := list (string * V).

Fixpoint get {V : Type} (k : string) (d : t V) : option V :=
  match d with
  | [] => None
  | (k', v) :: d' => if String.eqb k k' then Some v else get k d'
  end.

(** [d[k] = v]: overwrite in place, or append a new key. *)
Fixpoint set {V : Type} (k : string) (v : V) (d : t V) : t V :=
  match d with
  | [] => [(k, v)]
  | (k', v') :: d' =>
      if String.eqb k k' then (k', v) :: d' else (k', v') :: set k v d'
  end.

(** [d[k]] *)
Definition item {V : Type} (k : string) (d : t V) : result V :=
  match get k d with
  | Some v => Ok v
  | None => Raise (KeyError k)
  end.

Definition keys {V : Type} (d : t V) : list string := map fst d.
Definition values {V : Type} (d : t V) : list V := map snd d.

End Dict.

(** ** A backtracking matcher for the regular expressions of the parser

    [matches r s] lists every way [r] can match a prefix of [s], in the
    order in which a backtracking search tries them; [re.match] keeps the
    first.  A result is the text consumed, the text left, and the groups
    captured, in the order of their opening parentheses. *)

Module Re.

Inductive regex : Type :=
| Chr (p : ascii -> bool)                       (* one character of a class *)
| Rep (p : ascii -> bool) (lo : nat) (greedy : bool)
                                                (* p{lo,} or p{lo,}? *)
| Seq (r1 r2 : regex)
| Grp (r : regex)                               (* ( r ) *)
| Eos.                                          (* $ *)

(** Every split of [s] into a run of class characters and the rest,
    shortest run first. *)
Fixpoint runs (p : ascii -> bool) (s : string) : list (string * string) :=
  (EmptyString, s) ::
  match s with
  | EmptyString => []
  | String c s' =>
      if p c then map (fun ab => (String c (fst ab), snd ab)) (runs p s')
      else []
  end.

Definition match_result : Type := (string * string * list string)%type.

Fixpoint matches (r : regex) (s : string) : list match_result :=
  match r with
  | Chr p =>
      match s with
      | String c s' => if p c then [(String c EmptyString, s', [])] else []
      | EmptyString => []
      end
  | Rep p lo greedy =>
      let all := runs p s in
      let ordered := if greedy then rev all else all in
      map (fun ab => (fst ab, snd ab, []))
          (filter (fun ab => lo <=? String.length (fst ab))%nat ordered)
  | Seq r1 r2 =>
      flat_map
        (fun m1 : match_result =>
           let '(a1, s1, g1) := m1 in
           map (fun m2 : match_result =>
                  let '(a2, s2, g2) := m2 in (String.append a1 a2, s2, (g1 ++ g2)%list))
               (matches r2 s1))
        (matches r1 s)
  | Grp r0 =>
      map (fun m : match_result => let '(a, s', g) := m in (a, s', a :: g))
          (matches r0 s)
  | Eos =>
      (* end of text, or just before a final newline *)
      if String.eqb s EmptyString || String.eqb s (String nl EmptyString)
      then [(EmptyString, s, [])] else []
  end.

(** [re.match(r, s)]: the groups of the first match. *)
Definition re_match (r : regex) (s : string) : option (list string) :=
  match matches r s with
  | (_, _, g) :: _ => Some g
  | [] => None
  end.

Definition lit (c : ascii) : regex := Chr (Ascii.eqb c).

(** [\s] *)
Definition space : ascii -> bool := is_space.
(** [.] *)
Definition dot (c : ascii) : bool := negb (Ascii.eqb c nl).

End Re.

Import Re.

(** [l[i]] on a list *)
Definition index {A : Type} (l : list A) (i : nat) : result A :=
  match nth_error l i with
  | Some x => Ok x
  | None => Raise IndexError
  end.

(** ** script_parser_module.ScriptParser *)

Module ScriptParser.

(** *** The data set up by [__init__] *)

Definition default_voices : Dict.t string :=
  [ ("NARRATOR", "af_heart"); ("MALE", "am_adam");
    ("FEMALE", "af_bella"); ("DEFAULT", "af_heart") ].

Definition male_names : list string :=
  [ "john"; "mike"; "david"; "james"; "robert"; "michael"; "william";
    "joseph"; "thomas"; "charles"; "daniel"; "paul"; "mark"; "george";
    "peter"; "alex"; "adam"; "steve"; "jack"; "tom"; "bob"; "henry";
    "knox"; "bernard"; "mclain"; "sims" ].

Definition female_names : list string :=
  [ "sarah"; "mary"; "jennifer"; "linda"; "patricia"; "barbara";
    "elizabeth"; "susan"; "jessica"; "karen"; "nancy"; "lisa";
    "betty"; "margaret"; "sandra"; "ashley"; "emily"; "donna";
    "bella"; "emma"; "sophia"; "isabella"; "shirley" ].

Definition available_voices : Dict.t (list string) :=
  [ ("male", ["am_adam"; "am_michael"]);
    ("female", ["af_bella"; "af_sarah"; "af_heart"; "af_sky"; "af_nicole"]);
    ("neutral", ["af_heart"]) ].

Definition scene_keywords : list string :=
  [ "INT"; "EXT"; "FADE IN"; "FADE OUT"; "CUT TO"; "DISSOLVE TO";
    "CONTINUED"; "SCENE"; "LOCATION"; "NIGHT"; "DAY"; "MORNING";
    "EVENING"; "LATER"; "MEANWHILE"; "FLASHBACK"; "MONTAGE" ].

(** *** The patterns of [_detect_speaker]

    [re.match] anchors the search at the first character, which is all
    that the leading [^] of each pattern asks for. *)

(** [[A-Z\s\'\-\.]] *)
Definition token_char (c : ascii) : bool :=
  is_AZ c || is_space c || Ascii.eqb c "'" || Ascii.eqb c "-" || Ascii.eqb c ".".

(** [([A-Z][A-Z\s\'\-\.]+?)] *)
Definition speaker_group : regex := Grp (Seq (Chr is_AZ) (Rep token_char 1 false)).

(** [\s*(.+)$] *)
Definition dialogue_tail : regex :=
  Seq (Rep space 0 true) (Seq (Grp (Rep dot 1 true)) Eos).

(** [^([A-Z][A-Z\s\'\-\.]+?):\s*(.+)$] *)
Definition pattern1 : regex :=
  Seq speaker_group (Seq (lit ":") dialogue_tail).

(** [^[\[\(]([A-Z][A-Z\s\'\-\.]+?)[\]\)]\s*(.+)$] *)
Definition pattern2 : regex :=
  Seq (Chr (fun c => Ascii.eqb c "[" || Ascii.eqb c "("))
   (Seq speaker_group
     (Seq (Chr (fun c => Ascii.eqb c "]" || Ascii.eqb c ")")) dialogue_tail)).

(** [^([A-Z][A-Z\s\'\-\.]{2,})$] *)
Definition pattern3 : regex :=
  Seq (Grp (Seq (Chr is_AZ) (Rep token_char 2 true))) Eos.

(** [^\*\*([A-Z][A-Z\s\'\-\.]+?)\*\*\s*(.+)$] *)
Definition pattern4 : regex :=
  Seq (lit "*") (Seq (lit "*")
   (Seq speaker_group (Seq (lit "*") (Seq (lit "*") dialogue_tail)))).

(** [^\(.+\)$] of [_is_scene_direction] *)
Definition parenthetical : regex :=
  Seq (lit "(") (Seq (Rep dot 1 true) (Seq (lit ")") Eos)).

(** [match.group(i)], for [i >= 1] *)
Definition group (g : list string) (i : nat) : string :=
  nth (i - 1) g EmptyString.

Definition orelse {A : Type} (o k : option A) : option A :=
  match o with
  | Some x => Some x
  | None => k
  end.

Definition _detect_speaker (line : string) : option (string * string) :=
  orelse
    (* Pattern 1: "CHARACTER: dialogue" *)
    match re_match pattern1 line with
    | Some g =>
        let speaker := strip (group g 1) in
        let dialogue := strip (group g 2) in
        if negb (mem (upper speaker) scene_keywords)
        then Some (speaker, dialogue) else None
    | None => None
    end
  (orelse
    (* Pattern 2: "[CHARACTER] dialogue" or "(CHARACTER) dialogue" *)
    match re_match pattern2 line with
    | Some g => Some (strip (group g 1), strip (group g 2))
    | None => None
    end
  (orelse
    (* Pattern 3: "CHARACTER" on its own line *)
    match re_match pattern3 line with
    | Some g =>
        let speaker := strip (group g 1) in
        if negb (mem (upper speaker) scene_keywords)
        then Some (speaker, EmptyString) else None
    | None => None
    end
    (* Pattern 4: "**CHARACTER** dialogue" *)
    match re_match pattern4 line with
    | Some g => Some (strip (group g 1), strip (group g 2))
    | None => None
    end)).

Definition _get_voice_for_speaker
    (speaker : string) (voice_mappings : Dict.t string) : result string :=
  let speaker_upper := upper speaker in
  match Dict.get speaker_upper voice_mappings with
  | Some v => Ok v
  | None =>
  match find (fun kv => String.eqb (upper (fst kv)) speaker_upper) voice_mappings with
  | Some (_, voice) => Ok voice
  | None =>
      speaker_lower <- index (split_ws (lower speaker)) 0 ;;
      if mem speaker_lower male_names then
        pool <- Dict.item "male" available_voices ;; index pool 0
      else if mem speaker_lower female_names then
        pool <- Dict.item "female" available_voices ;; index pool 0
      else if contains "narr" speaker_lower || String.eqb speaker_upper "NARRATOR" then
        Dict.item "NARRATOR" default_voices
      else
        Dict.item "DEFAULT" default_voices
  end
  end.

Definition _is_scene_direction (line : string) : bool :=
  let line_upper := upper line in
  if existsb (fun keyword => startswith line_upper keyword) scene_keywords then true
  else match re_match parenthetical line with
       | Some _ => true
       | None => false
       end.

(** *** [parse_script] *)

Definition segment : Type := (string * string)%type.

(** The variables of the loop of [parse_script]. *)
Record state : Type := mkState {
  segments : list segment;
  current_speaker : option string;
  current_text : list string
}.

Definition initial : state := mkState [] None [].

(** Truth value of [current_speaker and current_text]. *)
Definition open_buffer (st : state) : option string :=
  match current_speaker st, current_text st with
  | Some sp, _ :: _ => if truthy sp then Some sp else None
  | _, _ => None
  end.

(** One iteration of [for line in lines]. *)
Definition step (voice_mappings : Dict.t string) (st : state) (raw : string)
  : result state :=
  let line := strip raw in
  if negb (truthy line) then Ok st
  else
    match _detect_speaker line with
    | Some (speaker, dialogue) =>
        st1 <- match open_buffer st with
               | Some sp =>
                   let text := join " " (current_text st) in
                   voice <- _get_voice_for_speaker sp voice_mappings ;;
                   Ok (mkState (segments st ++ [(voice, text)])
                               (current_speaker st) [])
               | None => Ok st
               end ;;
        Ok (mkState (segments st1) (Some speaker)
                    (if truthy dialogue
                     then current_text st1 ++ [dialogue]
                     else current_text st1))
    | None =>
        match current_speaker st with
        | Some (String _ _) =>
            Ok (mkState (segments st) (current_speaker st)
                        (current_text st ++ [line]))
        | _ =>
            if negb (_is_scene_direction line)
            then Ok (mkState (segments st) (Some "NARRATOR")
                             (current_text st ++ [line]))
            else Ok st
        end
    end.

Fixpoint loop (voice_mappings : Dict.t string) (st : state) (lines : list string)
  : result state :=
  match lines with
  | [] => Ok st
  | l :: rest => st' <- step voice_mappings st l ;; loop voice_mappings st' rest
  end.

(** The statements after the loop: the final segment. *)
Definition finish (voice_mappings : Dict.t string) (st : state)
  : result (list segment) :=
  match open_buffer st with
  | Some sp =>
      let text := join " " (current_text st) in
      voice <- _get_voice_for_speaker sp voice_mappings ;;
      Ok (segments st ++ [(voice, text)])
  | None => Ok (segments st)
  end.

(** [parse_script] once the text is split into lines. *)
Definition parse_lines (lines : list string) (voice_mappings : Dict.t string)
  : result (list segment) :=
  st <- loop voice_mappings initial lines ;; finish voice_mappings st.

Definition parse_script (script_text : string) (voice_mappings : option (Dict.t string))
  : result (list segment) :=
  let voice_mappings := match voice_mappings with
                        | None => []
                        | Some d => d
                        end in
  parse_lines (split_on nl script_text) voice_mappings.

(** *** [detect_characters] and [suggest_voice_mappings] *)

(** [character_counts[speaker] += 1] on a [Counter] *)
Definition count_up (k : string) (d : Dict.t nat) : Dict.t nat :=
  match Dict.get k d with
  | Some n => Dict.set k (n + 1) d
  | None => Dict.set k (0 + 1) d
  end.

Definition detect_characters_lines (lines : list string) : Dict.t nat :=
  fold_left
    (fun character_counts line =>
       match _detect_speaker line with
       | Some (sp, _) =>
           let speaker := upper sp in
           if negb (mem speaker scene_keywords)
           then count_up speaker character_counts
           else character_counts
       | None => character_counts
       end)
    lines [].

Definition detect_characters (script_text : string) : Dict.t nat :=
  detect_characters_lines (split_on nl script_text).

(** The variables of the loop of [suggest_voice_mappings]. *)
Record sstate : Type := mkS {
  suggestions : Dict.t string;
  male_voice_idx : nat;
  female_voice_idx : nat
}.

Definition suggest_step (st : sstate) (character : string) : result sstate :=
  char_lower <- index (split_ws (lower character)) 0 ;;
  if contains "narr" char_lower then
    Ok (mkS (Dict.set character "af_heart" (suggestions st))
            (male_voice_idx st) (female_voice_idx st))
  else if mem char_lower male_names then
    voices <- Dict.item "male" available_voices ;;
    v <- index voices (male_voice_idx st mod List.length voices) ;;
    Ok (mkS (Dict.set character v (suggestions st))
            (male_voice_idx st + 1) (female_voice_idx st))
  else if mem char_lower female_names then
    voices <- Dict.item "female" available_voices ;;
    v <- index voices (female_voice_idx st mod List.length voices) ;;
    Ok (mkS (Dict.set character v (suggestions st))
            (male_voice_idx st) (female_voice_idx st + 1))
  else
    if (List.length (suggestions st) mod 2 =? 0)%nat
    then Ok (mkS (Dict.set character "am_adam" (suggestions st))
                 (male_voice_idx st) (female_voice_idx st))
    else Ok (mkS (Dict.set character "af_bella" (suggestions st))
                 (male_voice_idx st) (female_voice_idx st)).

Fixpoint suggest_loop (st : sstate) (characters : list string) : result sstate :=
  match characters with
  | [] => Ok st
  | c :: rest => st' <- suggest_step st c ;; suggest_loop st' rest
  end.

Definition suggest_chars (characters : list string) : result (Dict.t string) :=
  st <- suggest_loop (mkS [] 0 0) characters ;; Ok (suggestions st).

Definition suggest_voice_mappings (script_text : string) : result (Dict.t string) :=
  suggest_chars (Dict.keys (detect_characters script_text)).

End ScriptParser.

Import ScriptParser.

Definition unlines (l : list string) : string := join (String nl EmptyString) l.


(** ** Binary floating point

    Python's [float] is the IEEE 754 binary64 format and numpy's [float32]
    the binary32 format. An operation gives the value of the format that is
    nearest to the exact result, a tie going to the even significand, and
    an infinity when that value would be [2 ^ emax] or more. *)

Module Float.

(** A binary format: the number of bits of the significand, the exponent of
    the least normal value, and the exponent that is no longer finite. *)
Record format : Type := mkFormat { prec : Z; emin : Z; emax : Z }.

Definition binary64 : format := mkFormat 53 (-1022) 1024.
Definition binary32 : format := mkFormat 24 (-126) 128.

(** A value of a format: a finite one, given by its exact rational value
    (a zero carries no sign), an infinity, or a NaN. *)
Inductive float : Type :=
| Finite (value : Q)
| Inf (negative : bool)
| NaN.

Definition is_finite (x : float) : bool :=
  match x with
  | Finite _ => true
  | _ => false
  end.

(** [2 ^ e] for [e >= 0], and 1 below. *)
Definition pow2 (e : Z) : Z := 2 ^ Z.max 0 e.

(** The integer nearest to [a / b] for [b > 0], a tie going to the even
    one. *)
Definition nearest_even (a b : Z) : Z :=
  let q := (a / b)%Z in
  let r := (a mod b)%Z in
  if (2 * r <? b)%Z then q
  else if (b <? 2 * r)%Z then (q + 1)%Z
  else if Z.even q then q else (q + 1)%Z.

(** The exponent [e] of [a / b], for [a > 0] and [b > 0]:
    [2 ^ e <= a / b < 2 ^ (e + 1)]. *)
Definition floor_log2 (a b : Z) : Z :=
  let e := (Z.log2 a - Z.log2 b)%Z in
  if (a * pow2 (- e) <? b * pow2 e)%Z then (e - 1)%Z else e.

(** The value of the format nearest to [a / b], for [b > 0]: the
    significand is [a / b] over the unit in the last place [2 ^ q], rounded
    to the nearest integer; a rounded value of [2 ^ emax] or more is an
    infinity. *)
Definition round_ratio (f : format) (a b : Z) : float :=
  if (a =? 0)%Z then Finite 0
  else
    let e := Z.max (floor_log2 (Z.abs a) b) (emin f) in
    let q := (e - (prec f - 1))%Z in
    let k := nearest_even (Z.abs a * pow2 (- q)) (b * pow2 q) in
    if (2 ^ prec f * pow2 (emax f - prec f - q) <=? k * pow2 (q - (emax f - prec f)))%Z
    then Inf (a <? 0)%Z
    else Finite (Qmake (Z.sgn a * k * pow2 q) (Z.to_pos (pow2 (- q)))).

Definition round (f : format) (x : Q) : float :=
  round_ratio f (Qnum x) (Zpos (Qden x)).

(** [x <= y] and [x < y]; a comparison with a NaN is false. *)
Definition leb (x y : float) : bool :=
  match x, y with
  | NaN, _ => false
  | _, NaN => false
  | Inf true, _ => true
  | _, Inf false => true
  | Inf false, _ => false
  | _, Inf true => false
  | Finite u, Finite v => Qle_bool u v
  end.

Definition ltb (x y : float) : bool :=
  match x, y with
  | NaN, _ => false
  | _, NaN => false
  | _, _ => negb (leb y x)
  end.

Definition abs (x : float) : float :=
  match x with
  | Finite v => Finite (Qabs v)
  | Inf _ => Inf false
  | NaN => NaN
  end.

(** [np.maximum]: a NaN wins. *)
Definition maximum (x y : float) : float :=
  match x, y with
  | NaN, _ => NaN
  | _, NaN => NaN
  | _, _ => if ltb x y then y else x
  end.

Definition is_neg (v : Q) : bool := negb (Qle_bool 0 v).

(** [x / y] in the format [f]. *)
Definition divide (f : format) (x y : float) : float :=
  match x, y with
  | NaN, _ => NaN
  | _, NaN => NaN
  | Inf _, Inf _ => NaN
  | Inf s, Finite v => Inf (xorb s (is_neg v))
  | Finite _, Inf _ => Finite 0
  | Finite u, Finite v =>
      if Qeq_bool v 0
      then if Qeq_bool u 0 then NaN else Inf (is_neg u)
      else round f (u / v)
  end.

(** Python's [a / b] on two [int]: the float nearest to the quotient. *)
Definition true_divide (a b : Z) : result float :=
  if (b =? 0)%Z then Raise (ZeroDivisionError "division by zero")
  else
    match round binary64 (inject_Z a / inject_Z b) with
    | Inf _ => Raise (OverflowError "integer division result too large for a float")
    | x => Ok x
    end.

(** Python's [int(x)] on a [float]: the value truncated toward zero. *)
Definition int (x : float) : result Z :=
  match x with
  | Finite v => Ok (Z.quot (Qnum v) (Zpos (Qden v)))
  | Inf _ => Raise (OverflowError "cannot convert float infinity to integer")
  | NaN => Raise (ValueError "cannot convert float NaN to integer")
  end.

End Float.

(** ** audio_processor_module.AudioProcessor *)

Module AudioProcessor.

Definition waveform : Type := list Q.

(** [np.linspace(start, stop, num)]: [num] evenly spaced samples,
    [start + i * step] with [step = (stop - start) / (num - 1)]. *)
Definition linspace (start stop : Q) (num : nat) : waveform :=
  let step := ((stop - start) / inject_Z (Z.of_nat num - 1))%Q in
  map (fun i => (inject_Z (Z.of_nat i) * step + start)%Q) (seq 0 num).

(** Element-wise product and sum of two arrays of one length. *)
Definition zip_with (f : Q -> Q -> Q) (x y : waveform) : waveform :=
  map (fun p => f (fst p) (snd p)) (combine x y).

(** [x[-n:]] and [x[:-n]] for [n > 0] *)
Definition last_n (n : nat) (x : waveform) : waveform := skipn (length x - n) x.
Definition drop_last (n : nat) (x : waveform) : waveform := firstn (length x - n) x.

(** [int(self.sample_rate * crossfade_duration_ms / 1000)], both
    arguments being [int] as the signatures declare: the exact product, its
    float quotient by 1000, which fails when it is too large for a float,
    and the truncation of that float toward zero. *)
Definition crossfade_samples (sample_rate crossfade_duration_ms : Z) : result Z :=
  x <- Float.true_divide (sample_rate * crossfade_duration_ms) 1000 ;;
  Float.int x.

(** The body of the loop over [audio_segments[1:]]. The arrays are cut and
    joined as the code does; the products with the fades and the sum of the
    two windows are those of exact numbers, so that a mixed sample is the
    one of the code up to the rounding of these operations (at the fade
    weights 1 and 0 there is none). *)
Definition mix (crossfade_samples : Z) (result current : waveform) : waveform :=
  let n := Z.to_nat crossfade_samples in
  if ((0 <? crossfade_samples) && (crossfade_samples <=? Z.of_nat (length result)))%Z then
    let fade_out := linspace 1 0 n in
    let fade_in := linspace 0 1 n in
    let tail := zip_with Qmult (last_n n result) fade_out in
    if (crossfade_samples <=? Z.of_nat (length current))%Z then
      let head := zip_with Qmult (firstn n current) fade_in in
      let crossfaded := zip_with Qplus tail head in
      drop_last n result ++ crossfaded ++ skipn n current
    else
      result ++ current
  else
    result ++ current.

Definition concatenate_with_crossfade
    (sample_rate : Z) (audio_segments : list waveform) (crossfade_duration_ms : Z)
  : result waveform :=
  match audio_segments with
  | [] => Raise (ValueError "No audio segments to concatenate")
  | [only] => Ok only
  | first :: rest =>
      crossfade_samples <- crossfade_samples sample_rate crossfade_duration_ms ;;
      Ok (fold_left (mix crossfade_samples) rest first)
  end.

End AudioProcessor.

Import AudioProcessor.

(** ** audio_processor_module.AudioProcessor.save_audio

    The samples that [save_audio] hands to [sf.write], as [float32]
    values. The array it is given holds finite samples; writing the file is
    taken to succeed. [audio.astype(np.float32)] rounds every sample to
    [float32], which leaves a sample that is a [float32] already as it is,
    so that the test on [audio.dtype] needs no case of its own. *)

Module AudioFile.

(** [np.abs(audio).max()]; the maximum of an empty array is an error. *)
Definition peak (audio : list Float.float) : result Float.float :=
  match audio with
  | [] => Raise (ValueError
            "zero-size array to reduction operation maximum which has no identity")
  | x :: rest => Ok (fold_left Float.maximum (map Float.abs rest) (Float.abs x))
  end.

Definition save_audio (audio : waveform) : result (list Float.float) :=
  let audio := map (Float.round Float.binary32) audio in
  max_val <- peak audio ;;
  if Float.ltb (Float.Finite 1) max_val
  then Ok (map (fun x => Float.divide Float.binary32 x max_val) audio)
  else Ok audio.

End AudioFile.

Import AudioFile.

(** ** tts_engine_module.KokoroTTSEngine *)

(** The exceptions that the engine and the endpoints add to [exn]. *)
Inductive pyexn : Type :=
| Builtin (e : exn)
| RuntimeError (msg : string)
| TypeError (msg : string)
| HTTPException (status_code : nat) (detail : string).

Inductive outcome (A : Type) : Type :=
| Done (a : A)
| Failed (e : pyexn).

Arguments Done {A} a.
Arguments Failed {A} e.

Definition and_then {A B : Type} (o : outcome A) (f : A -> outcome B) : outcome B :=
  match o with
  | Done a => f a
  | Failed e => Failed e
  end.

(** A call of the parser or of the audio processor inside the engine or an
    endpoint. *)
Definition lift {A : Type} (r : result A) : outcome A :=
  match r with
  | Ok a => Done a
  | Raise e => Failed (Builtin e)
  end.

Module KokoroTTSEngine.

Definition voices : Dict.t string :=
  [ ("af_bella", "Bella (Female, Warm)");
    ("af_sarah", "Sarah (Female, Professional)");
    ("af_heart", "Heart (Female, Narrator)");
    ("af_sky", "Sky (Female, Young)");
    ("af_nicole", "Nicole (Female, Calm)");
    ("am_adam", "Adam (Male, Deep)");
    ("am_michael", "Michael (Male, Friendly)");
    ("bf_emma", "Emma (British Female)");
    ("bf_isabella", "Isabella (British Female)");
    ("bm_george", "George (British Male)");
    ("bm_lewis", "Lewis (British Male)") ].

Section Engine.

(** The type of the [speed] argument, which the engine only passes on. *)
Variable Speed : Type.

(** [self.pipeline]: [None], or the Kokoro pipeline. A call of the
    pipeline, run to the end of its generator, gives the audio chunks or
    fails with an exception, of which only the text [str(e)] is used. *)
Variable pipeline : option (string -> string -> Speed -> string + list waveform).

Definition is_ready : bool :=
  match pipeline with
  | Some _ => true
  | None => false
  end.

Definition synthesize (text voice : string) (speed : Speed) : outcome waveform :=
  match pipeline with
  | None => Failed (RuntimeError "TTS engine not initialized")
  | Some run =>
      if negb (truthy (strip text))
      then Failed (Builtin (ValueError "Text cannot be empty"))
      else
        let voice := if negb (mem voice (Dict.keys voices)) then "af_heart" else voice in
        (* try: ... except Exception as e: raise RuntimeError(f"Synthesis failed: {e}") *)
        match run text voice speed with
        | inl e => Failed (RuntimeError (String.append "Synthesis failed: " e))
        | inr audio_chunks =>
            match audio_chunks with
            | [] => Failed (RuntimeError
                              (String.append "Synthesis failed: " "No audio generated"))
            | _ :: _ => Done (List.concat audio_chunks)
            end
        end
  end.

End Engine.

End KokoroTTSEngine.

(** ** kokoro_complete_app: the three synthesis endpoints

    An endpoint is modelled from the text it receives to the samples of the
    file it answers with. Reading the upload, the temporary files, the ZIP
    archive and the logging are left out and taken to succeed. *)

Module App.

Import KokoroTTSEngine.

(** [AudioProcessor()] is built with its default sample rate. *)
Definition sample_rate : Z := 24000.

(** What an endpoint answers: a file made of samples (for the batch, the
    files of the archive in order), or an error status with its detail. *)
Inductive response : Type :=
| FileResponse (samples : list Float.float) (filename : string)
| ZipResponse (entries : list (string * list Float.float)) (filename : string)
| ErrorResponse (status_code : nat) (detail : string).

Section Endpoints.

Variable Speed : Type.

(** The default [speed=1.0] of [synthesize]. *)
Variable default_speed : Speed.

Variable pipeline : option (string -> string -> Speed -> string + list waveform).

(** [str(e)] for an [HTTPException], which Starlette defines. *)
Variable str_http : nat -> string -> string.

(** [str(e)] *)
Definition str (e : pyexn) : string :=
  match e with
  | Builtin (ValueError msg) => msg
  | Builtin IndexError => "list index out of range"
  | Builtin (KeyError key) => String.append "'" (String.append key "'")
  | Builtin (OverflowError msg) => msg
  | Builtin (ZeroDivisionError msg) => msg
  | RuntimeError msg => msg
  | TypeError msg => msg
  | HTTPException status_code detail => str_http status_code detail
  end.

(** The loop [for voice, text in segments], with [text.strip()] handed to
    the engine. *)
Fixpoint synthesize_all (segments : list segment) (speed : Speed)
  : outcome (list waveform) :=
  match segments with
  | [] => Done []
  | (voice, text) :: rest =>
      and_then (synthesize Speed pipeline (strip text) voice speed) (fun audio_data =>
      and_then (synthesize_all rest speed) (fun audio_segments =>
      Done (audio_data :: audio_segments)))
  end.

(** [audio_processor.concatenate_with_crossfade(audio_segments,
    crossfade_duration_ms=...)], where the request may leave
    [crossfade_ms] null: the product with the sample rate then fails, once
    the two early returns are passed. *)
Definition concatenate_request
    (audio_segments : list waveform) (crossfade_ms : option Z) : outcome waveform :=
  match crossfade_ms with
  | Some ms => lift (concatenate_with_crossfade sample_rate audio_segments ms)
  | None =>
      match audio_segments with
      | [] => Failed (Builtin (ValueError "No audio segments to concatenate"))
      | [only] => Done only
      | _ :: _ :: _ =>
          Failed (TypeError "unsupported operand type(s) for *: 'int' and 'NoneType'")
      end
  end.

(** From the segments to the samples written to the file. *)
Definition render (segments : list segment) (speed : Speed) (crossfade_ms : option Z)
  : outcome (list Float.float) :=
  and_then (synthesize_all segments speed) (fun audio_segments =>
  and_then (concatenate_request audio_segments crossfade_ms) (fun final_audio =>
  lift (save_audio final_audio))).

(** The [except Exception as e] of every endpoint: whatever was raised in
    the body, an [HTTPException] included, becomes a status 500. *)
Definition answer {A : Type} (body : outcome A) (ok : A -> response) : response :=
  match body with
  | Done a => ok a
  | Failed e => ErrorResponse 500 (str e)
  end.

(** *** POST /synthesize/script, from the decoded text of the upload *)

Definition synthesize_script_body (script_text : string)
  : outcome (list Float.float) :=
  if negb (truthy (strip script_text))
  then Failed (HTTPException 400 "Empty script file")
  else
    and_then (lift (parse_script script_text None)) (fun segments =>
    match segments with
    | [] => Failed (HTTPException 400
                      "No dialogue detected. Use format like 'CHARACTER: dialogue'")
    | _ :: _ => render segments default_speed (Some 50%Z)
    end).

Definition synthesize_script (stem script_text : string) : response :=
  answer (synthesize_script_body script_text)
         (fun samples => FileResponse samples (String.append stem "_audio.wav")).

(** *** POST /synthesize/text *)




(** *** POST /synthesize/batch *)

Record BatchTTSRequest : Type := mkBatchTTSRequest {
  texts : list string;
  batch_voice_mappings : option (Dict.t string);
  batch_speed : Speed;
  batch_crossfade_ms : option Z
}.

(** One turn of [for idx, text in enumerate(request.texts)]: the samples
    written for the text, or nothing when the text is blank. *)
Definition batch_item (request : BatchTTSRequest) (text : string)
  : outcome (option (list Float.float)) :=
  if negb (truthy (strip text)) then Done None
  else
    and_then (lift (parse_script text (batch_voice_mappings request)))
      (fun segments =>
    let segments := match segments with
                    | [] => [("af_heart", text)]
                    | _ :: _ => segments
                    end in
    and_then (render segments (batch_speed request) (batch_crossfade_ms request))
      (fun samples => Done (Some samples))).

Fixpoint batch_loop (request : BatchTTSRequest) (todo : list string)
    (output_files : list (list Float.float)) : outcome (list (list Float.float)) :=
  match todo with
  | [] => Done output_files
  | text :: rest =>
      and_then (batch_item request text) (fun written =>
      match written with
      | Some samples => batch_loop request rest (output_files ++ [samples])
      | None => batch_loop request rest output_files
      end)
  end.

Definition synthesize_batch_body (request : BatchTTSRequest)
  : outcome (list (list Float.float)) :=
  match texts request with
  | [] => Failed (HTTPException 400 "No texts provided")
  | _ :: _ => batch_loop request (texts request) []
  end.

(** [f"audio_{i+1}.wav"], the name of entry [i] of the archive. *)
Definition entry_name (i : nat) : string :=
  String.append "audio_"
    (String.append (NilEmpty.string_of_uint (Nat.to_uint (i + 1))) ".wav").

Definition synthesize_batch (request : BatchTTSRequest) : response :=
  answer (synthesize_batch_body request)
         (fun output_files =>
            ZipResponse
              (map (fun p => (entry_name (fst p), snd p))
                   (combine (seq 0 (List.length output_files)) output_files))
              "batch_audio.zip").

End Endpoints.

End App.

(** The rounding the specification names: the integer nearest to [a / b]
    for [b > 0], a tie going to the even neighbour as Python's [round]
    does. *)
Definition spec_round_div (a b : Z) : Z :=
  let q := (a / b)%Z in
  let r := (a mod b)%Z in
  if (2 * r <? b)%Z then q
  else if (b <? 2 * r)%Z then (q + 1)%Z
  else if Z.even q then q else (q + 1)%Z.

(** ** Vocabulary of the statements *)

(** The voices that [_get_voice_for_speaker] can pick by itself. *)
Definition builtin_voices : list string := ["am_adam"; "af_bella"; "af_heart"].

(** A speaker name with a first white-space-delimited token. *)
Definition has_token (speaker : string) : Prop := split_ws (lower speaker) <> [].

(** No key of the voice map equals the speaker name case-insensitively. *)
Definition no_key_for (speaker : string) (vm : Dict.t string) : Prop :=
  forall k, In k (Dict.keys vm) -> upper k <> upper speaker.

(** What the parser promises of an emitted segment. *)
Definition segment_ok (vm : Dict.t string) (seg : segment) : Prop :=
  snd seg <> EmptyString /\
  (In (fst seg) (Dict.values vm) \/ In (fst seg) builtin_voices).

(** What holds of the loop variables of [parse_script] at every iteration. *)
Definition invariant (vm : Dict.t string) (st : state) : Prop :=
  (forall sp, current_speaker st = Some sp -> has_token sp) /\
  Forall (fun t => t <> EmptyString) (current_text st) /\
  Forall (segment_ok vm) (segments st) /\
  (current_speaker st = None -> current_text st = []).

(** The first group of a match starts with a capital letter. *)
Definition capital_group (g : list string) : Prop :=
  exists c t, is_AZ c = true /\ group g 1 = String c t.

(** The loop variables with some segments put in front of [segments]. *)
Definition prepend (front : list segment) (st : state) : state :=
  mkState (front ++ segments st) (current_speaker st) (current_text st).

(** The text buffered for a cue: its inline dialogue, when there is one,
    then the lines that follow it, stripped, the blank ones left out. *)
Definition buffer_of (dialogue : string) (following : list string) : list string :=
  (if truthy dialogue then [dialogue] else []) ++ filter truthy (map strip following).

(** The segment of a buffer: none when the buffer is empty. *)
Definition block_segments (voice : string) (buffer : list string) : list segment :=
  match buffer with
  | [] => []
  | _ :: _ => [(voice, join " " buffer)]
  end.

(** What the name of a character says, by its first token in lower case:
    a male name, a female name, a narrator, or nothing. *)
Inductive kind : Type := Male | Female | Narrator | Other.

Definition kind_eqb (a b : kind) : bool :=
  match a, b with
  | Male, Male | Female, Female | Narrator, Narrator | Other, Other => true
  | _, _ => false
  end.

Definition kind_of (character : string) : kind :=
  match split_ws (lower character) with
  | tok :: _ =>
      if mem tok male_names then Male
      else if mem tok female_names then Female
      else if contains "narr" tok then Narrator
      else Other
  | [] => Other
  end.

Definition count_kind (k : kind) (characters : list string) : nat :=
  List.length (filter (fun c => kind_eqb (kind_of c) k) characters).

(** A pool of [available_voices]. *)
Definition pool (gender : string) : list string :=
  match Dict.get gender available_voices with
  | Some voices => voices
  | None => []
  end.

(** The voice suggested for a character that comes after the characters
    [before]: the pool of its gender taken in turn; af_heart for a
    narrator; otherwise am_adam after an even number of characters and
    af_bella after an odd number. *)
Definition expected_voice (before : list string) (character : string) : string :=
  match kind_of character with
  | Male =>
      nth (count_kind Male before mod List.length (pool "male")) (pool "male") EmptyString
  | Female =>
      nth (count_kind Female before mod List.length (pool "female")) (pool "female")
          EmptyString
  | Narrator => "af_heart"
  | Other => if Nat.even (List.length before) then "am_adam" else "af_bella"
  end.

Fixpoint assignment (before todo : list string) : Dict.t string :=
  match todo with
  | [] => []
  | c :: rest => (c, expected_voice before c) :: assignment (before ++ [c]) rest
  end.

(** The character named by a line, as [detect_characters] counts it. *)
Definition character_of (line : string) : option string :=
  match _detect_speaker line with
  | Some (sp, _) =>
      if negb (mem (upper sp) scene_keywords) then Some (upper sp) else None
  | None => None
  end.

(** The names of a list in the order of their first appearance. *)
Definition first_appearances (names : list string) : list string :=
  fold_left (fun seen name => if mem name seen then seen else seen ++ [name]) names [].

Fixpoint filter_map {A B : Type} (f : A -> option B) (l : list A) : list B :=
  match l with
  | [] => []
  | x :: l' =>
      match f x with
      | Some y => y :: filter_map f l'
      | None => filter_map f l'
      end
  end.

(** The characters of a script, in the order of their first cue. *)
Definition characters_of (script_text : string) : list string :=
  first_appearances (filter_map character_of (split_on nl script_text)).

(** Every character of a string passes a test. *)
Fixpoint all_chars (p : ascii -> bool) (s : string) : bool :=
  match s with
  | EmptyString => true
  | String c s' => p c && all_chars p s'
  end.

(** A character with which a pattern of [_detect_speaker] can start: a
    capital letter, an opening bracket or parenthesis, an asterisk. *)
Definition cue_start (c : ascii) : bool :=
  is_AZ c || Ascii.eqb c "[" || Ascii.eqb c "(" || Ascii.eqb c "*".

(** The first character of a line, when there is one, passes a test. *)
Definition starts_with (p : ascii -> bool) (line : string) : bool :=
  match line with
  | EmptyString => false
  | String c _ => p c
  end.

(** What a script without cues narrates: its lines from the first one that
    is neither blank nor a scene direction, stripped, the blank ones left
    out. *)
Fixpoint narration (lines : list string) : list string :=
  match lines with
  | [] => []
  | l :: rest =>
      if negb (truthy (strip l)) || _is_scene_direction (strip l)
      then narration rest
      else filter truthy (map strip lines)
  end.

(** The first group of a match is a capital letter followed by token
    characters. *)
Definition token_group (g : list string) : Prop :=
  exists c t, is_AZ c = true /\ all_chars token_char t = true /\
              group g 1 = String c t.

(** Two states of the loop of [parse_script] that differ at most in the
    voices of their segments. *)
Definition same_texts (st1 st2 : state) : Prop :=
  map snd (segments st1) = map snd (segments st2) /\
  current_speaker st1 = current_speaker st2 /\
  current_text st1 = current_text st2.

(** The buffered lines and the emitted texts keep some ink: none is white
    space throughout. *)
Definition inked (st : state) : Prop :=
  Forall (fun t => strip t <> EmptyString) (current_text st) /\
  Forall (fun seg : segment => strip (snd seg) <> EmptyString) (segments st).

(** The error of [np.abs(audio).max()] on an empty array, and the error of
    the product of the sample rate with a null [crossfade_ms]. *)
Definition zero_size : exn :=
  ValueError "zero-size array to reduction operation maximum which has no identity".

Definition null_crossfade : pyexn :=
  TypeError "unsupported operand type(s) for *: 'int' and 'NoneType'".

(** The error of a quotient of two [int] that is too large for a float. *)
Definition overflow : exn :=
  OverflowError "integer division result too large for a float".

(** The least magnitude of [sample_rate * crossfade_duration_ms] at which
    the quotient by 1000 is too large for a float: 1000 times the middle
    of the largest finite float and [2 ^ 1024]. *)
Definition window_overflow : Z := 1000 * (2 ^ 1024 - 2 ^ 970).

(** The least magnitude that [float32] rounds to an infinity: the middle
    of the largest finite value and [2 ^ 128]. *)
Definition float32_overflow : Q := inject_Z (2 ^ 128 - 2 ^ 103).

(** A finite float within [-1, 1]. *)
Definition within_unit (x : Float.float) : Prop :=
  match x with
  | Float.Finite v => (Qabs v <= 1)%Q
  | _ => False
  end.

(** A string of ASCII characters, on which the case conversions of the
    model are those of Python. *)
Definition ascii_only (s : string) : bool :=
  all_chars (fun c => (code c <? 128)%N) s.

(** The voice that [synthesize] hands to the pipeline. *)
Definition effective_voice (voice : string) : string :=
  if mem voice (Dict.keys KokoroTTSEngine.voices) then voice else "af_heart".

(** * Properties of the waveform concatenator *)

(** ** The float quotient of the window *)

Section Rounding.

Import Float.
Local Open Scope Z_scope.

Lemma pow2_pos (e : Z) : 0 < pow2 e.
Proof. unfold pow2. apply Z.pow_pos_nonneg; lia. Qed.

Lemma pow2_nonneg (e : Z) : 0 <= e -> pow2 e = 2 ^ e.
Proof. intros H. unfold pow2. now rewrite Z.max_r. Qed.

Lemma pow2_nonpos (e : Z) : e <= 0 -> pow2 e = 1.
Proof. intros H. unfold pow2. now rewrite Z.max_l. Qed.

Lemma pow2_add (d e : Z) : 0 <= d -> 0 <= e -> pow2 (d + e) = pow2 d * pow2 e.
Proof.
  intros Hd He. rewrite !pow2_nonneg by lia. now apply Z.pow_add_r.
Qed.

(** Scaling both sides of a ratio: [a * pow2 (-q)] over [b * pow2 q] is
    [a / b] times [2 ^ (- q)]. *)
Lemma pow2_shift (d e : Z) :
  pow2 (d + e) * pow2 (- d) * pow2 (- e) = pow2 (- (d + e)) * pow2 d * pow2 e.
Proof.
  destruct (Z_le_dec 0 d) as [Hd|Hd], (Z_le_dec 0 e) as [He|He].
  - rewrite (pow2_nonpos (- d)), (pow2_nonpos (- e)), (pow2_nonpos (- (d + e))) by lia.
    rewrite pow2_add by lia. lia.
  - destruct (Z_le_dec 0 (d + e)) as [Hs|Hs].
    + rewrite (pow2_nonpos (- d)), (pow2_nonpos e), (pow2_nonpos (- (d + e))) by lia.
      replace d with ((d + e) + (- e)) at 2 by lia.
      rewrite (pow2_add (d + e) (- e)) by lia. lia.
    + rewrite (pow2_nonpos (- d)), (pow2_nonpos e), (pow2_nonpos (d + e)) by lia.
      replace (- e) with (- (d + e) + d) at 1 by lia.
      rewrite (pow2_add (- (d + e)) d) by lia. lia.
  - destruct (Z_le_dec 0 (d + e)) as [Hs|Hs].
    + rewrite (pow2_nonpos d), (pow2_nonpos (- e)), (pow2_nonpos (- (d + e))) by lia.
      replace e with ((d + e) + (- d)) at 2 by lia.
      rewrite (pow2_add (d + e) (- d)) by lia. lia.
    + rewrite (pow2_nonpos d), (pow2_nonpos (- e)), (pow2_nonpos (d + e)) by lia.
      replace (- d) with (- (d + e) + e) at 1 by lia.
      rewrite (pow2_add (- (d + e)) e) by lia. lia.
  - rewrite (pow2_nonpos d), (pow2_nonpos e), (pow2_nonpos (d + e)) by lia.
    replace (- (d + e)) with (- d + - e) by lia.
    rewrite pow2_add by lia. lia.
Qed.

(** The rounded quotient is within one half of the exact one. *)
Lemma nearest_even_half (a b : Z) :
  0 < b ->
  2 * a - b <= 2 * (b * nearest_even a b) <= 2 * a + b.
Proof.
  intros Hb. unfold nearest_even.
  pose proof (Z.div_mod a b ltac:(lia)) as Hdm.
  pose proof (Z.mod_pos_bound a b Hb) as Hr.
  destruct (2 * (a mod b) <? b) eqn:E1; [apply Z.ltb_lt in E1; lia|].
  apply Z.ltb_ge in E1.
  destruct (b <? 2 * (a mod b)) eqn:E2; [apply Z.ltb_lt in E2; lia|].
  apply Z.ltb_ge in E2.
  destruct (Z.even (a / b)); lia.
Qed.

Lemma nearest_even_ge (a b n : Z) :
  0 < b -> n * b <= a -> n <= nearest_even a b.
Proof.
  intros Hb H. pose proof (nearest_even_half a b Hb) as Hh.
  assert (2 * (b * n) - b <= 2 * (b * nearest_even a b)) by lia.
  assert (b * (2 * n - 1) <= b * (2 * nearest_even a b)) by lia.
  apply Z.mul_le_mono_pos_l in H1; lia.
Qed.

Lemma nearest_even_le (a b n : Z) :
  0 < b -> a <= n * b -> nearest_even a b <= n.
Proof.
  intros Hb H. pose proof (nearest_even_half a b Hb) as Hh.
  assert (b * (2 * nearest_even a b) <= b * (2 * n + 1)) by lia.
  apply Z.mul_le_mono_pos_l in H0; lia.
Qed.

(** A tie goes to the even neighbour: the rounded quotient reaches an even
    [n] as soon as the exact one reaches [n - 1/2]. *)
Lemma nearest_even_ge_even (a b n : Z) :
  0 < b -> Z.even n = true ->
  (n <= nearest_even a b <-> (2 * n - 1) * b <= 2 * a).
Proof.
  intros Hb Hn. unfold nearest_even.
  pose proof (Z.div_mod a b ltac:(lia)) as Hdm.
  pose proof (Z.mod_pos_bound a b Hb) as Hr.
  set (q := a / b) in *. set (r := a mod b) in *.
  destruct (2 * r <? b) eqn:E1.
  - apply Z.ltb_lt in E1. split; intros H.
    + assert ((2 * n - 1) * b <= (2 * q - 1) * b) by (apply Z.mul_le_mono_nonneg_r; lia).
      lia.
    + destruct (Z_le_dec n q) as [|Hgt]; [assumption|].
      assert ((2 * q + 1) * b <= (2 * n - 1) * b) by (apply Z.mul_le_mono_nonneg_r; lia).
      lia.
  - apply Z.ltb_ge in E1. destruct (b <? 2 * r) eqn:E2.
    + apply Z.ltb_lt in E2. split; intros H.
      * assert ((2 * n - 1) * b <= (2 * q + 1) * b) by (apply Z.mul_le_mono_nonneg_r; lia).
        lia.
      * destruct (Z_le_dec n (q + 1)) as [|Hgt]; [assumption|].
        assert ((2 * q + 3) * b <= (2 * n - 1) * b) by (apply Z.mul_le_mono_nonneg_r; lia).
        lia.
    + apply Z.ltb_ge in E2. assert (Hh : 2 * r = b) by lia.
      destruct (Z.even q) eqn:Eq.
      * assert (Hodd : n <> q + 1).
        { intros ->. rewrite Z.even_add, Eq in Hn. discriminate. }
        split; intros H.
        -- assert ((2 * n - 1) * b <= (2 * q - 1) * b)
             by (apply Z.mul_le_mono_nonneg_r; lia).
           lia.
        -- destruct (Z_le_dec n q) as [|Hgt]; [assumption|].
           assert ((2 * q + 3) * b <= (2 * n - 1) * b)
             by (apply Z.mul_le_mono_nonneg_r; lia).
           lia.
      * split; intros H.
        -- assert ((2 * n - 1) * b <= (2 * q + 1) * b)
             by (apply Z.mul_le_mono_nonneg_r; lia).
           lia.
        -- destruct (Z_le_dec n (q + 1)) as [|Hgt]; [assumption|].
           assert ((2 * q + 3) * b <= (2 * n - 1) * b)
             by (apply Z.mul_le_mono_nonneg_r; lia).
           lia.
Qed.

(** [floor_log2 a b] is the exponent of [a / b]. *)
Lemma floor_log2_spec (a b : Z) :
  0 < a -> 0 < b ->
  b * pow2 (floor_log2 a b) <= a * pow2 (- floor_log2 a b)
  /\ a * pow2 (- floor_log2 a b) < 2 * (b * pow2 (floor_log2 a b)).
Proof.
  intros Ha Hb. unfold floor_log2.
  destruct (Z.log2_spec a Ha) as [Ha1 Ha2]. destruct (Z.log2_spec b Hb) as [Hb1 Hb2].
  pose proof (Z.log2_nonneg a) as Hla. pose proof (Z.log2_nonneg b) as Hlb.
  set (la := Z.log2 a) in *. set (lb := Z.log2 b) in *.
  rewrite Z.pow_succ_r in Ha2, Hb2 by assumption.
  assert (HA : 0 < 2 ^ la) by (apply Z.pow_pos_nonneg; lia).
  assert (HB : 0 < 2 ^ lb) by (apply Z.pow_pos_nonneg; lia).
  destruct (Z_le_dec 0 (la - lb)) as [He|He].
  - assert (Hsplit : 2 ^ la = 2 ^ lb * 2 ^ (la - lb)).
    { rewrite <- Z.pow_add_r by lia. f_equal. lia. }
    assert (HE : 0 < 2 ^ (la - lb)) by (apply Z.pow_pos_nonneg; lia).
    rewrite (pow2_nonpos (- (la - lb))), (pow2_nonneg (la - lb)) by lia.
    destruct (a * 1 <? b * 2 ^ (la - lb)) eqn:T.
    + apply Z.ltb_lt in T.
      destruct (Z.eq_dec (la - lb) 0) as [E0|E0].
      * rewrite E0 in *. change (2 ^ 0) with 1 in *.
        rewrite (pow2_nonpos (0 - 1)) by lia.
        replace (- (0 - 1)) with 1 by lia. change (pow2 1) with 2. lia.
      * rewrite (pow2_nonneg (la - lb - 1)), (pow2_nonpos (- (la - lb - 1))) by lia.
        assert (Hs : 2 ^ (la - lb) = 2 * 2 ^ (la - lb - 1)).
        { rewrite <- Z.pow_succ_r by lia. f_equal. lia. }
        assert (0 < 2 ^ (la - lb - 1)) by (apply Z.pow_pos_nonneg; lia).
        rewrite Hs in T.
        split; [|lia].
        assert (b * 2 ^ (la - lb - 1) <= 2 * 2 ^ lb * 2 ^ (la - lb - 1))
          by (apply Z.mul_le_mono_nonneg_r; lia).
        rewrite Hs in Hsplit. lia.
    + apply Z.ltb_ge in T.
      rewrite (pow2_nonpos (- (la - lb))), (pow2_nonneg (la - lb)) by lia.
      split; [lia|].
      assert (2 ^ lb * 2 ^ (la - lb) <= b * 2 ^ (la - lb))
        by (apply Z.mul_le_mono_nonneg_r; lia).
      lia.
  - assert (Hsplit : 2 ^ lb = 2 ^ la * 2 ^ (lb - la)).
    { rewrite <- Z.pow_add_r by lia. f_equal. lia. }
    assert (HE : 0 < 2 ^ (lb - la)) by (apply Z.pow_pos_nonneg; lia).
    rewrite (pow2_nonneg (- (la - lb))), (pow2_nonpos (la - lb)) by lia.
    replace (- (la - lb)) with (lb - la) by lia.
    destruct (a * 2 ^ (lb - la) <? b * 1) eqn:T.
    + apply Z.ltb_lt in T.
      rewrite (pow2_nonpos (la - lb - 1)), (pow2_nonneg (- (la - lb - 1))) by lia.
      replace (- (la - lb - 1)) with (Z.succ (lb - la)) by lia.
      rewrite Z.pow_succ_r by lia.
      split; [|lia].
      assert (2 ^ la * 2 ^ (lb - la) <= a * 2 ^ (lb - la))
        by (apply Z.mul_le_mono_nonneg_r; lia).
      lia.
    + apply Z.ltb_ge in T.
      rewrite (pow2_nonneg (- (la - lb))), (pow2_nonpos (la - lb)) by lia.
      replace (- (la - lb)) with (lb - la) by lia.
      split; [lia|].
      assert (a * 2 ^ (lb - la) < 2 * 2 ^ la * 2 ^ (lb - la))
        by (apply Z.mul_lt_mono_pos_r; lia).
      lia.
Qed.


Lemma pow2_ratio (u d : Z) :
  0 <= d -> pow2 (u + d) * pow2 (- u) = 2 ^ d * (pow2 (- (u + d)) * pow2 u).
Proof.
  intros Hd. pose proof (pow2_shift d u) as H.
  rewrite (pow2_nonpos (- d)), (pow2_nonneg d) in H by lia.
  replace (d + u) with (u + d) in H by lia. lia.
Qed.

(** [x / y < 2 ^ (u + d)] is [x / y < 2 ^ d * 2 ^ u], and so for [<=]. *)
Lemma ratio_shift_lt (x y u d : Z) :
  0 <= d ->
  (x * pow2 (- (u + d)) < y * pow2 (u + d) <-> x * pow2 (- u) < 2 ^ d * (y * pow2 u)).
Proof.
  intros Hd. pose proof (pow2_ratio u d Hd) as HR.
  pose proof (pow2_pos u) as HA. pose proof (pow2_pos (- u)) as HA'.
  pose proof (pow2_pos (u + d)) as HB. pose proof (pow2_pos (- (u + d))) as HB'.
  set (A := pow2 u) in *. set (A' := pow2 (- u)) in *.
  set (B := pow2 (u + d)) in *. set (B' := pow2 (- (u + d))) in *.
  set (D := 2 ^ d) in *.
  rewrite (Z.mul_lt_mono_pos_r (A * A') (x * B') (y * B)) by lia.
  rewrite (Z.mul_lt_mono_pos_r (B' * A) (x * A') (D * (y * A))) by lia.
  replace (y * B * (A * A')) with (y * A * (B * A')) by ring.
  rewrite HR.
  replace (x * B' * (A * A')) with (x * A' * (B' * A)) by ring.
  replace (y * A * (D * (B' * A))) with (D * (y * A) * (B' * A)) by ring.
  reflexivity.
Qed.

Lemma ratio_shift_le (x y u d : Z) :
  0 <= d ->
  (y * pow2 (u + d) <= x * pow2 (- (u + d)) <-> 2 ^ d * (y * pow2 u) <= x * pow2 (- u)).
Proof.
  intros Hd. pose proof (ratio_shift_lt x y u d Hd) as H. lia.
Qed.

(** The bound on [a / b] from its exponent, brought to the exponent [q]. *)
Lemma significand_lt (a b q n : Z) :
  0 < a -> 0 < b -> 0 <= n -> floor_log2 a b + 1 <= q + n ->
  a * pow2 (- q) < 2 ^ n * (b * pow2 q).
Proof.
  intros Ha Hb Hn He.
  destruct (floor_log2_spec a b Ha Hb) as [_ H].
  set (e := floor_log2 a b) in *.
  change 2 with (2 ^ 1) in H at 1.
  apply (ratio_shift_lt a b e 1) in H; [|lia].
  assert (H' : a * pow2 (- (q + n)) < b * pow2 (q + n)).
  { replace (q + n) with (e + 1 + (q + n - (e + 1))) by lia.
    apply ratio_shift_lt; [lia|].
    assert (0 < 2 ^ (q + n - (e + 1))) by (apply Z.pow_pos_nonneg; lia).
    pose proof (pow2_pos (e + 1)). pose proof (pow2_pos (- (e + 1))). nia. }
  now apply ratio_shift_lt in H'.
Qed.

Lemma significand_ge (a b q n : Z) :
  0 < a -> 0 < b -> 0 <= n -> q + n <= floor_log2 a b ->
  2 ^ n * (b * pow2 q) <= a * pow2 (- q).
Proof.
  intros Ha Hb Hn He.
  destruct (floor_log2_spec a b Ha Hb) as [H _].
  set (e := floor_log2 a b) in *.
  apply ratio_shift_le; [lia|].
  replace e with (q + n + (e - (q + n))) in H by lia.
  apply ratio_shift_le in H; [|lia].
  assert (0 < 2 ^ (e - (q + n))) by (apply Z.pow_pos_nonneg; lia).
  pose proof (pow2_pos (q + n)). pose proof (pow2_pos (- (q + n))). nia.
Qed.

Lemma nearest_even_nonneg (a b : Z) : 0 <= a -> 0 < b -> 0 <= nearest_even a b.
Proof. intros Ha Hb. apply nearest_even_ge; lia. Qed.

End Rounding.

Section Formats.

Import Float.
Local Open Scope Z_scope.

Variable f : format.
Hypothesis Hprec : 0 < prec f.
Hypothesis Hemax : prec f <= emax f.
Hypothesis Hemin : emin f <= 0.

(** Rounding overflows exactly from the middle of the largest finite value
    and [2 ^ emax] on. *)
Lemma round_ratio_overflow (a b : Z) :
  0 < b ->
  (is_finite (round_ratio f a b) = false
   <-> b * (2 * 2 ^ emax f - 2 ^ (emax f - prec f)) <= 2 * Z.abs a).
Proof.
  intros Hb. unfold round_ratio.
  set (p := prec f) in *. set (E := emax f) in *.
  assert (HpE : 2 ^ E = 2 ^ p * 2 ^ (E - p)).
  { rewrite <- Z.pow_add_r by lia. f_equal. lia. }
  assert (Hp2 : 0 < 2 ^ p) by (apply Z.pow_pos_nonneg; lia).
  assert (Hs2 : 0 < 2 ^ (E - p)) by (apply Z.pow_pos_nonneg; lia).
  destruct (a =? 0) eqn:Ea.
  - apply Z.eqb_eq in Ea. subst a. cbn [is_finite Z.abs].
    split; [discriminate|]. nia.
  - apply Z.eqb_neq in Ea.
    assert (Hx : 0 < Z.abs a) by lia.
    set (x := Z.abs a) in *.
    set (e := Z.max (floor_log2 x b) (emin f)).
    set (q := e - (p - 1)).
    set (k := nearest_even (x * pow2 (- q)) (b * pow2 q)).
    assert (He0 : floor_log2 x b <= e) by (unfold e; lia).
    pose proof (pow2_pos q) as Hq1. pose proof (pow2_pos (- q)) as Hq2.
    assert (Hden : 0 < b * pow2 q) by nia.
    destruct (Z_lt_dec (E - p) q) as [Hgt|Hle].
    + (* the exponent alone is too large *)
      assert (Hee : e = floor_log2 x b) by (unfold q, e in *; lia).
      assert (Hk : 2 ^ (p - 1) <= k).
      { apply nearest_even_ge; [exact Hden|].
        apply (significand_ge x b q (p - 1)); unfold q in *; lia. }
      assert (HxE : 2 ^ E * (b * pow2 0) <= x * pow2 (- 0)).
      { apply significand_ge; unfold q in *; lia. }
      change (pow2 (- 0)) with 1 in HxE. change (pow2 0) with 1 in HxE.
      rewrite (pow2_nonpos (E - p - q)), (pow2_nonneg (q - (E - p))) by lia.
      assert (H2 : 2 * 2 ^ (p - 1) = 2 ^ p).
      { rewrite <- Z.pow_succ_r by lia. f_equal. lia. }
      assert (Hd : 2 <= 2 ^ (q - (E - p))).
      { change 2 with (2 ^ 1) at 1. apply Z.pow_le_mono_r; lia. }
      replace (2 ^ p * 1 <=? k * 2 ^ (q - (E - p))) with true
        by (symmetry; apply Z.leb_le; nia).
      cbn [is_finite]. split; [intros _; nia | reflexivity].
    + destruct (Z.eq_dec q (E - p)) as [Heq|Hne].
      * (* the largest finite exponent: the significand decides *)
        rewrite Heq, Z.sub_diag. change (pow2 0) with 1.
        assert (Hev : Z.even (2 ^ p) = true).
        { replace p with (Z.succ (p - 1)) by lia. rewrite Z.pow_succ_r by lia.
          now rewrite Z.even_mul. }
        pose proof (nearest_even_ge_even (x * pow2 (- q)) (b * pow2 q) (2 ^ p) Hden Hev)
          as Hiff.
        fold k in Hiff.
        rewrite (pow2_nonpos (- q)), (pow2_nonneg q) in Hiff by lia.
        rewrite Heq in Hiff.
        destruct (2 ^ p * 1 <=? k * 1) eqn:T; cbn [is_finite].
        -- apply Z.leb_le in T. split; [intros _|reflexivity].
           assert (T' : 2 ^ p <= k) by lia. apply Hiff in T'. nia.
        -- apply Z.leb_gt in T. split; [discriminate|]. intros H. exfalso.
           assert (2 ^ p <= k) by (apply Hiff; nia). lia.
      * (* below it nothing overflows *)
        assert (Hlt : q < E - p) by lia.
        assert (Hk : k <= 2 ^ p).
        { apply nearest_even_le; [exact Hden|].
          pose proof (significand_lt x b q p Hx Hb ltac:(lia) ltac:(unfold q; lia)).
          lia. }
        assert (HxE : x * pow2 (- 0) < 2 ^ (E - 1) * (b * pow2 0)).
        { apply significand_lt; unfold q in *; lia. }
        change (pow2 (- 0)) with 1 in HxE. change (pow2 0) with 1 in HxE.
        assert (H2 : 2 * 2 ^ (E - 1) = 2 ^ E).
        { rewrite <- Z.pow_succ_r by lia. f_equal. lia. }
        rewrite (pow2_nonneg (E - p - q)), (pow2_nonpos (q - (E - p))) by lia.
        assert (Hd : 2 <= 2 ^ (E - p - q)).
        { change 2 with (2 ^ 1) at 1. apply Z.pow_le_mono_r; lia. }
        replace (2 ^ p * 2 ^ (E - p - q) <=? k * 1) with false
          by (symmetry; apply Z.leb_gt; nia).
        cbn [is_finite]. split; [discriminate|]. intros H. exfalso. nia.
Qed.

Lemma round_ratio_not_nan (a b : Z) : round_ratio f a b <> NaN.
Proof.
  unfold round_ratio. destruct (a =? 0); [discriminate|].
  match goal with |- context [if ?c then _ else _] => destruct c end; discriminate.
Qed.

Lemma round_ratio_inf (a b : Z) (s : bool) :
  round_ratio f a b = Inf s -> s = (a <? 0).
Proof.
  unfold round_ratio. destruct (a =? 0); [discriminate|].
  match goal with |- context [if ?c then _ else _] => destruct c end;
    [now intros [= <-] | discriminate].
Qed.

(** A quotient within [-1, 1] is rounded to a finite value within
    [-1, 1]. *)
Lemma round_ratio_unit (a b : Z) :
  0 < b -> Z.abs a <= b ->
  exists v, round_ratio f a b = Finite v /\ (Qabs v <= 1)%Q.
Proof.
  intros Hb Hab.
  destruct (round_ratio f a b) as [v|s|] eqn:Hr.
  - exists v. split; [reflexivity|].
    unfold round_ratio in Hr.
    destruct (a =? 0) eqn:Ea; [injection Hr as <-; discriminate|].
    apply Z.eqb_neq in Ea.
    assert (Hx : 0 < Z.abs a) by lia.
    set (x := Z.abs a) in *.
    set (e := Z.max (floor_log2 x b) (emin f)) in Hr.
    set (q := e - (prec f - 1)) in Hr.
    set (k := nearest_even (x * pow2 (- q)) (b * pow2 q)) in Hr.
    destruct (_ <=? _) in Hr; [discriminate|]. injection Hr as <-.
    assert (He0 : floor_log2 x b <= 0).
    { destruct (Z_le_dec (floor_log2 x b) 0) as [|Hn]; [assumption|].
      pose proof (significand_ge x b 0 1 Hx Hb ltac:(lia) ltac:(lia)) as H.
      change (pow2 (- 0)) with 1 in H. change (pow2 0) with 1 in H.
      change (2 ^ 1) with 2 in H. lia. }
    assert (Hq : q <= 0) by (unfold q, e; lia).
    pose proof (pow2_pos (- q)) as Hq2.
    rewrite (pow2_nonpos q) by lia.
    assert (Hk : k <= pow2 (- q)).
    { apply nearest_even_le; [rewrite (pow2_nonpos q) by lia; lia|].
      rewrite (pow2_nonpos q) by lia. nia. }
    assert (Hk0 : 0 <= k).
    { apply nearest_even_nonneg; [nia|]. rewrite (pow2_nonpos q) by lia. lia. }
    apply Qabs_Qle_condition. unfold Qle. cbn [Qnum Qden Qopp].
    rewrite Z2Pos.id by exact Hq2.
    destruct (Z.sgn_spec a) as [[_ ->]|[[_ ->]|[_ ->]]]; split; lia.
  - exfalso.
    assert (H : is_finite (round_ratio f a b) = false) by now rewrite Hr.
    apply round_ratio_overflow in H; [|exact Hb].
    assert (0 < 2 ^ (emax f - prec f)) by (apply Z.pow_pos_nonneg; lia).
    assert (2 ^ emax f = 2 ^ prec f * 2 ^ (emax f - prec f)).
    { rewrite <- Z.pow_add_r by lia. f_equal. lia. }
    assert (2 <= 2 ^ prec f).
    { change 2 with (2 ^ 1) at 1. apply Z.pow_le_mono_r; lia. }
    nia.
  - now apply round_ratio_not_nan in Hr.
Qed.

End Formats.

Section Window.

Import Float.
Local Open Scope Z_scope.

Lemma true_divide_1000 (n : Z) :
  true_divide n 1000
  = match round_ratio binary64 n 1000 with
    | Inf _ => Raise overflow
    | x => Ok x
    end.
Proof. unfold true_divide, round. cbn. now rewrite Z.mul_1_r. Qed.

Lemma binary64_threshold :
  2 * 2 ^ emax binary64 - 2 ^ (emax binary64 - prec binary64)
  = 2 * (2 ^ 1024 - 2 ^ 970).
Proof. reflexivity. Qed.

(** The window is computed unless the quotient is too large for a float. *)
Lemma crossfade_samples_overflow (r d : Z) :
  (crossfade_samples r d = Raise overflow
   <-> 1000 * (2 ^ 1024 - 2 ^ 970) <= Z.abs (r * d)) /\
  (Z.abs (r * d) < 1000 * (2 ^ 1024 - 2 ^ 970) ->
   exists n, crossfade_samples r d = Ok n).
Proof.
  unfold crossfade_samples. rewrite true_divide_1000.
  pose proof (round_ratio_overflow binary64 ltac:(reflexivity) ltac:(discriminate)
                ltac:(discriminate) (r * d) 1000 ltac:(lia)) as Hov.
  rewrite binary64_threshold in Hov.
  pose proof (round_ratio_not_nan binary64 (r * d) 1000) as Hnan.
  destruct (round_ratio binary64 (r * d) 1000) as [v|s|]; cbn [bind int is_finite] in *.
  - split; [split; [discriminate|]|].
    + intros H. assert (true = false) by (apply Hov; lia). discriminate.
    + intros _. eexists. reflexivity.
  - assert (1000 * (2 * (2 ^ 1024 - 2 ^ 970)) <= 2 * Z.abs (r * d)) by now apply Hov.
    split; [split; [lia | reflexivity]|]. lia.
  - congruence.
Qed.

(** Below [2 ^ 44] the float quotient is near enough to the exact one:
    the window is the exact quotient truncated toward zero. *)
Lemma crossfade_samples_exact (r d : Z) :
  Z.abs (r * d) < 1000 * 2 ^ 44 ->
  crossfade_samples r d = Ok (Z.quot (r * d) 1000).
Proof.
  intros Hn. unfold crossfade_samples. rewrite true_divide_1000.
  set (n := r * d) in *.
  pose proof (round_ratio_overflow binary64 ltac:(reflexivity) ltac:(discriminate)
                ltac:(discriminate) n 1000 ltac:(lia)) as Hov.
  rewrite binary64_threshold in Hov.
  assert (Hfin : is_finite (round_ratio binary64 n 1000) = true).
  { destruct (is_finite (round_ratio binary64 n 1000)) eqn:E; [reflexivity|].
    assert (1000 * (2 * (2 ^ 1024 - 2 ^ 970)) <= 2 * Z.abs n) by now apply Hov.
    assert (2 ^ 44 < 2 ^ 1024 - 2 ^ 970) by reflexivity. lia. }
  clear Hov. unfold round_ratio in *.
  destruct (n =? 0) eqn:En.
  - apply Z.eqb_eq in En. rewrite En. reflexivity.
  - apply Z.eqb_neq in En.
    assert (Hx : 0 < Z.abs n) by lia.
    set (x := Z.abs n) in *.
    set (e := Z.max (floor_log2 x 1000) (emin binary64)) in *.
    set (q := e - (prec binary64 - 1)) in *.
    set (k := nearest_even (x * pow2 (- q)) (1000 * pow2 q)) in *.
    destruct (_ <=? _); [discriminate|]. cbn [bind int Qnum Qden].
    assert (He0 : floor_log2 x 1000 <= 43).
    { destruct (Z_le_dec (floor_log2 x 1000) 43) as [|Hgt]; [assumption|].
      pose proof (significand_ge x 1000 0 44 Hx ltac:(lia) ltac:(lia) ltac:(lia)) as H.
      change (pow2 (- 0)) with 1 in H. change (pow2 0) with 1 in H. lia. }
    assert (Hq : q <= -9) by (unfold q, e; cbn [emin prec binary64]; lia).
    rewrite (pow2_nonpos q) in * by lia. rewrite (pow2_nonneg (- q)) in * by lia.
    assert (Hj : 512 <= 2 ^ (- q)).
    { change 512 with (2 ^ 9). apply Z.pow_le_mono_r; lia. }
    set (J := 2 ^ (- q)) in *.
    rewrite Z2Pos.id by lia.
    assert (Hkdef : k = nearest_even (x * J) (1000 * 1)).
    { unfold k, J. now rewrite (pow2_nonpos q), (pow2_nonneg (- q)) by lia. }
    pose proof (nearest_even_half (x * J) (1000 * 1) ltac:(lia)) as Hh.
    rewrite <- Hkdef in Hh.
    pose proof (Z.div_mod x 1000 ltac:(lia)) as Hdm.
    pose proof (Z.mod_pos_bound x 1000 ltac:(lia)) as Hr.
    assert (Hk : k / J = x / 1000).
    { assert (HR : x mod 1000 * J <= 999 * J) by (apply Z.mul_le_mono_nonneg_r; lia).
      assert (HR0 : 0 <= x mod 1000 * J) by (apply Z.mul_nonneg_nonneg; lia).
      assert (Hx' : x * J = 1000 * (x / 1000 * J) + x mod 1000 * J).
      { rewrite Hdm at 1. ring. }
      symmetry. apply (Z.div_unique k J (x / 1000) (k - J * (x / 1000))); [left|]; lia. }
    assert (Hxq : Z.quot x 1000 = x / 1000) by (apply Z.quot_div_nonneg; lia).
    assert (Hk0 : 0 <= k).
    { rewrite Hkdef. apply nearest_even_nonneg; [apply Z.mul_nonneg_nonneg|]; lia. }
    assert (Hkq : Z.quot k J = k / J) by (apply Z.quot_div_nonneg; lia).
    f_equal. rewrite Z.mul_1_r.
    destruct (Z.sgn_spec n) as [[Hs ->]|[[Hs ->]|[Hs ->]]]; [|lia|].
    + rewrite Z.mul_1_l, Hkq, Hk, <- Hxq. unfold x. now rewrite Z.abs_eq by lia.
    + replace (-1 * k) with (- k) by lia.
      rewrite Z.quot_opp_l by lia. rewrite Hkq, Hk, <- Hxq.
      unfold x. rewrite Z.abs_neq by lia. rewrite Z.quot_opp_l by lia. lia.
Qed.

(** The sign of the window is that of the product. *)
Lemma crossfade_samples_sign (r d n : Z) :
  crossfade_samples r d = Ok n ->
  (r * d <= 0 -> n <= 0) /\ (0 <= r * d -> 0 <= n).
Proof.
  unfold crossfade_samples. rewrite true_divide_1000.
  unfold round_ratio.
  destruct (r * d =? 0) eqn:En.
  - cbn. intros [= <-]. lia.
  - apply Z.eqb_neq in En.
    set (x := Z.abs (r * d)).
    set (e := Z.max (floor_log2 x 1000) (emin binary64)).
    set (q := e - (prec binary64 - 1)).
    set (k := nearest_even (x * pow2 (- q)) (1000 * pow2 q)).
    destruct (_ <=? _); [discriminate|]. cbn [bind int Qnum Qden].
    intros [= <-].
    pose proof (pow2_pos q). pose proof (pow2_pos (- q)).
    assert (Hk0 : 0 <= k) by (apply nearest_even_nonneg; unfold x; nia).
    rewrite Z2Pos.id by lia.
    destruct (Z.sgn_spec (r * d)) as [[Hs ->]|[[Hs ->]|[Hs ->]]]; [|lia|].
    + split; [lia|]. intros _. apply Z.quot_pos; nia.
    + split; [|lia]. intros _.
      replace (- (1) * k * pow2 q) with (- (k * pow2 q)) by lia.
      rewrite Z.quot_opp_l by lia.
      assert (0 <= Z.quot (k * pow2 q) (pow2 (- q))) by (apply Z.quot_pos; nia). lia.
Qed.

End Window.

(** ** The crossfade *)

Section Crossfade.

Lemma zip_with_length (f : Q -> Q -> Q) (x y : waveform) :
  length (zip_with f x y) = Nat.min (length x) (length y).
Proof.
  unfold zip_with. now rewrite length_map, length_combine.
Qed.

Lemma zip_with_nth (f : Q -> Q -> Q) (x y : waveform) (i : nat) (d : Q) :
  i < length x -> i < length y ->
  nth i (zip_with f x y) d = f (nth i x d) (nth i y d).
Proof.
  revert y i. induction x as [|a x IH]; intros [|b y] [|i]; simpl; intros Hx Hy;
    try lia; try reflexivity.
  apply IH; lia.
Qed.

Lemma linspace_length (start stop : Q) (num : nat) :
  length (linspace start stop num) = num.
Proof.
  unfold linspace. now rewrite length_map, length_seq.
Qed.

Lemma linspace_nth (start stop : Q) (num i : nat) (d : Q) :
  i < num ->
  nth i (linspace start stop num) d =
  (inject_Z (Z.of_nat i) * ((stop - start) / inject_Z (Z.of_nat num - 1)) + start)%Q.
Proof.
  intros Hi. unfold linspace.
  set (f := fun i : nat => _).
  rewrite (nth_indep _ d (f 0)) by now rewrite length_map, length_seq.
  rewrite map_nth, seq_nth by assumption. reflexivity.
Qed.

(** The crossfade branch of [mix], when both sides hold a full window. *)
Lemma mix_crossfade (n : nat) (x y : waveform) :
  0 < n -> n <= length x -> n <= length y ->
  mix (Z.of_nat n) x y =
  drop_last n x
  ++ zip_with Qplus (zip_with Qmult (last_n n x) (linspace 1 0 n))
                    (zip_with Qmult (firstn n y) (linspace 0 1 n))
  ++ skipn n y.
Proof.
  intros Hn Hx Hy. unfold mix. rewrite Nat2Z.id.
  replace (0 <? Z.of_nat n)%Z with true by (symmetry; apply Z.ltb_lt; lia).
  replace (Z.of_nat n <=? Z.of_nat (length x))%Z with true
    by (symmetry; apply Z.leb_le; lia).
  replace (Z.of_nat n <=? Z.of_nat (length y))%Z with true
    by (symmetry; apply Z.leb_le; lia).
  reflexivity.
Qed.

Lemma last_n_length (n : nat) (x : waveform) :
  n <= length x -> length (last_n n x) = n.
Proof. intros H. unfold last_n. rewrite length_skipn. lia. Qed.

Lemma last_n_nth (n i : nat) (x : waveform) (d : Q) :
  n <= length x -> nth i (last_n n x) d = nth (length x - n + i) x d.
Proof.
  intros H. unfold last_n. rewrite nth_skipn. reflexivity.
Qed.

Lemma drop_last_length (n : nat) (x : waveform) :
  length (drop_last n x) = length x - n.
Proof. unfold drop_last. rewrite length_firstn. lia. Qed.

Lemma window_length (n : nat) (x y : waveform) :
  n <= length x -> n <= length y ->
  length (zip_with Qplus (zip_with Qmult (last_n n x) (linspace 1 0 n))
                         (zip_with Qmult (firstn n y) (linspace 0 1 n))) = n.
Proof.
  intros Hx Hy.
  rewrite !zip_with_length, last_n_length, !linspace_length, length_firstn by assumption.
  lia.
Qed.

(** Sample [i] of the mixed window. *)
Lemma window_nth (n i : nat) (x y : waveform) :
  n <= length x -> n <= length y -> i < n ->
  nth i (zip_with Qplus (zip_with Qmult (last_n n x) (linspace 1 0 n))
                        (zip_with Qmult (firstn n y) (linspace 0 1 n))) 0%Q
  = (nth (length x - n + i) x 0
       * (inject_Z (Z.of_nat i) * ((0 - 1) / inject_Z (Z.of_nat n - 1)) + 1)
     + nth i y 0
       * (inject_Z (Z.of_nat i) * ((1 - 0) / inject_Z (Z.of_nat n - 1)) + 0))%Q.
Proof.
  intros Hx Hy Hi.
  rewrite zip_with_nth
    by (rewrite zip_with_length, ?last_n_length, ?linspace_length, ?length_firstn; lia).
  rewrite !zip_with_nth
    by (rewrite ?last_n_length, ?linspace_length, ?length_firstn; lia).
  rewrite !linspace_nth, last_n_nth, nth_firstn by assumption.
  replace (i <? n)%nat with true by (symmetry; apply Nat.ltb_lt; lia).
  reflexivity.
Qed.

End Crossfade.

(** C1. Two waveforms of 100 samples, sample rate 1000, crossfade of 50 ms:
    the window is 50 samples, the result has 100 + 100 - 50 = 150 samples,
    and sample [i] of the overlap (index [50 + i] of the result) is
    [a[50+i] * (1 - i/49) + b[i] * (i/49)]; the samples before the overlap
    are those of [a] and the samples after it those of [b]. *)
Theorem crossfade_100_100_window_50 (a b : waveform) :
  length a = 100 -> length b = 100 ->
  crossfade_samples 1000 50 = Ok 50%Z /\
  exists r,
    concatenate_with_crossfade 1000 [a; b] 50 = Ok r /\
    length r = 150 /\
    (forall i, i < 50 ->
       (nth (50 + i) r 0
        == nth (50 + i) a 0 * (1 - inject_Z (Z.of_nat i) / 49)
           + nth i b 0 * (inject_Z (Z.of_nat i) / 49))%Q) /\
    (forall i, i < 50 -> nth i r 0%Q = nth i a 0%Q) /\
    (forall i, i < 50 -> nth (100 + i) r 0%Q = nth (50 + i) b 0%Q).
Proof.
  intros Ha Hb.
  assert (Hn : crossfade_samples 1000 50 = Ok (Z.of_nat 50)) by (vm_compute; reflexivity).
  split; [exact Hn|].
  unfold concatenate_with_crossfade. rewrite Hn. cbn [bind].
  eexists. split; [reflexivity|].
  cbn [fold_left].
  rewrite mix_crossfade by lia.
  assert (Hd : length (drop_last 50 a) = 50) by (rewrite drop_last_length; lia).
  assert (Hw := window_length 50 a b ltac:(lia) ltac:(lia)).
  split; [|split; [|split]].
  - rewrite !length_app, Hd, Hw, length_skipn. lia.
  - intros i Hi.
    rewrite app_nth2 by lia. rewrite Hd.
    replace (50 + i - 50) with i by lia.
    rewrite app_nth1 by lia.
    rewrite window_nth by lia.
    rewrite Ha. replace (100 - 50 + i) with (50 + i) by lia.
    change (inject_Z (Z.of_nat 50 - 1)) with (inject_Z 49).
    change (inject_Z 49) with 49%Q.
    field.
  - intros i Hi. rewrite app_nth1 by lia.
    unfold drop_last. rewrite nth_firstn.
    replace (i <? length a - 50)%nat with true by (symmetry; apply Nat.ltb_lt; lia).
    reflexivity.
  - intros i Hi. rewrite app_nth2 by lia. rewrite Hd.
    rewrite app_nth2 by lia. rewrite Hw.
    rewrite nth_skipn. f_equal. lia.
Qed.

Lemma crossfade_100_100_window_50_witness :
  exists r,
    concatenate_with_crossfade 1000 [repeat 1%Q 100; repeat 0%Q 100] 50 = Ok r /\
    length r = 150.
Proof.
  destruct (crossfade_100_100_window_50 (repeat 1%Q 100) (repeat 0%Q 100))
    as [_ [r [Hr [Hl _]]]]; [reflexivity | reflexivity |].
  exists r. split; assumption.
Defined.

(** C5, as the specification words it, fails: at sample rate 1500 and a
    crossfade of 1 ms the window is 1 sample, not the nearest integer 2,
    and the mix of two 2-sample waveforms has 3 samples accordingly. *)
Lemma crossfade_samples_is_not_round :
  crossfade_samples 1500 1 = Ok 1%Z /\
  spec_round_div (1500 * 1) 1000 = 2%Z /\
  crossfade_samples 1500 1 <> Ok (spec_round_div (1500 * 1) 1000) /\
  crossfade_samples 1999 1 <> Ok (spec_round_div (1999 * 1) 1000) /\
  exists w, concatenate_with_crossfade 1500 [[1; 2]; [3; 4]]%Q 1 = Ok w /\ length w = 3.
Proof.
  split; [vm_compute; reflexivity|]. split; [reflexivity|].
  split; [vm_compute; discriminate|]. split; [vm_compute; discriminate|].
  eexists. split; vm_compute; reflexivity.
Qed.

(** C5, amended. The window used for mixing is [int(sample_rate *
    crossfade_duration_ms / 1000)]. As long as the product is below
    [1000 * 2 ^ 44] in magnitude this is the exact quotient truncated toward
    zero: its floor when it is not negative (1 at sample rate 1500 and
    1 ms). Beyond, the float quotient is rounded before it is truncated (at
    a product of 17592186044416999 the window is 17592186044417), and from
    [window_overflow] on the division raises OverflowError. *)
Theorem crossfade_samples_truncates (r d : Z) :
  (forall first second rest,
     concatenate_with_crossfade r (first :: second :: rest) d
     = (n <- crossfade_samples r d ;;
        Ok (fold_left (mix n) (second :: rest) first))) /\
  ((Z.abs (r * d) < 1000 * 2 ^ 44)%Z ->
   crossfade_samples r d = Ok (Z.quot (r * d) 1000) /\
   (0 <= r * d ->
    1000 * Z.quot (r * d) 1000 <= r * d < 1000 * Z.quot (r * d) 1000 + 1000)%Z /\
   (r * d <= 0 ->
    1000 * Z.quot (r * d) 1000 - 1000 < r * d <= 1000 * Z.quot (r * d) 1000)%Z) /\
  crossfade_samples 17592186044416999 1 = Ok 17592186044417%Z /\
  (crossfade_samples r d = Raise overflow <-> (window_overflow <= Z.abs (r * d))%Z) /\
  ((Z.abs (r * d) < window_overflow)%Z -> exists n, crossfade_samples r d = Ok n).
Proof.
  split; [reflexivity|]. split; [|split; [vm_compute; reflexivity|]].
  - intros Hb. split; [now apply crossfade_samples_exact|].
    pose proof (Z.quot_rem' (r * d) 1000) as Hqr.
    split; intros Hs.
    + pose proof (Z.rem_bound_pos (r * d) 1000 Hs ltac:(lia)). lia.
    + pose proof (Z.rem_bound_pos_neg (r * d) 1000 ltac:(lia) Hs). lia.
  - exact (crossfade_samples_overflow r d).
Qed.

Lemma crossfade_samples_truncates_witness :
  crossfade_samples 1500 1 = Ok (Z.quot (1500 * 1) 1000) /\
  (1000 * Z.quot (1500 * 1) 1000 <= 1500 * 1 < 1000 * Z.quot (1500 * 1) 1000 + 1000)%Z.
Proof.
  destruct (proj1 (proj2 (crossfade_samples_truncates 1500 1))) as (H1 & H2 & _).
  - vm_compute. reflexivity.
  - split; [exact H1 | apply H2; vm_compute; discriminate].
Defined.

Section Raising.

Lemma concatenate_two (sample_rate ms : Z) (a b : waveform) (rest : list waveform) :
  concatenate_with_crossfade sample_rate (a :: b :: rest) ms
  = (n <- crossfade_samples sample_rate ms ;; Ok (fold_left (mix n) (b :: rest) a)).
Proof. reflexivity. Qed.

(** What the concatenator does on two segments or more follows the
    window. *)
Lemma concatenate_some (sample_rate ms : Z) (a b : waveform) (rest : list waveform) :
  ((Z.abs (sample_rate * ms) < window_overflow)%Z /\
   exists n, crossfade_samples sample_rate ms = Ok n /\
             concatenate_with_crossfade sample_rate (a :: b :: rest) ms
             = Ok (fold_left (mix n) (b :: rest) a)) \/
  ((window_overflow <= Z.abs (sample_rate * ms))%Z /\
   concatenate_with_crossfade sample_rate (a :: b :: rest) ms = Raise overflow).
Proof.
  rewrite concatenate_two.
  destruct (crossfade_samples_overflow sample_rate ms) as [Hov Hok].
  fold window_overflow in Hov, Hok.
  destruct (Z_lt_dec (Z.abs (sample_rate * ms)) window_overflow) as [Hlt|Hge].
  - left. split; [exact Hlt|]. destruct (Hok Hlt) as [n Hn].
    exists n. rewrite Hn. now split.
  - right. split; [lia|]. rewrite (proj2 Hov) by lia. reflexivity.
Qed.

End Raising.

(** C8, as the specification words it, fails: a list of two segments is
    not empty, and yet with a crossfade duration of [10 ^ 400] ms, or of
    its opposite, the concatenator raises, OverflowError, from the float
    division that gives the window. *)
Lemma concatenate_overflows :
  concatenate_with_crossfade 24000 [[1; 2]; [3; 4]]%Q (10 ^ 400) = Raise overflow /\
  concatenate_with_crossfade 24000 [[1; 2]; [3; 4]]%Q (- 10 ^ 400) = Raise overflow /\
  overflow <> ValueError "No audio segments to concatenate".
Proof. split; [|split]; [vm_compute; reflexivity | vm_compute; reflexivity | discriminate]. Qed.

(** C8, amended. The concatenator raises the [ValueError] for an empty
    list of segments exactly when the list is empty. Its one other error is
    the OverflowError of the window, raised exactly when there are two
    segments or more and the product of the sample rate and the crossfade
    duration is [window_overflow] or more in magnitude. In every other case
    it returns a waveform: for a single segment always, and for more
    whenever the product is below that bound. *)
Theorem concatenate_raises_iff_empty (sample_rate ms : Z) (segs : list waveform) :
  (concatenate_with_crossfade sample_rate segs ms
   = Raise (ValueError "No audio segments to concatenate") <-> segs = []) /\
  (concatenate_with_crossfade sample_rate segs ms = Raise overflow
   <-> 2 <= length segs /\ (window_overflow <= Z.abs (sample_rate * ms))%Z) /\
  (forall e, concatenate_with_crossfade sample_rate segs ms = Raise e ->
             e = ValueError "No audio segments to concatenate" \/ e = overflow) /\
  (segs <> [] ->
   length segs = 1 \/ (Z.abs (sample_rate * ms) < window_overflow)%Z ->
   exists w, concatenate_with_crossfade sample_rate segs ms = Ok w).
Proof.
  destruct segs as [|a [|b rest]].
  - cbn [concatenate_with_crossfade length].
    split; [tauto|]. split; [split; [discriminate | lia]|].
    split; [intros e [= <-]; now left | congruence].
  - cbn [concatenate_with_crossfade length].
    split; [split; discriminate|]. split; [split; [discriminate | lia]|].
    split; [discriminate|]. intros _ _. eexists. reflexivity.
  - destruct (concatenate_some sample_rate ms a b rest)
      as [(Hlt & n & _ & ->) | (Hge & ->)]; cbn [length].
    + split; [split; discriminate|]. split; [split; [discriminate | lia]|].
      split; [discriminate|]. intros _ _. eexists. reflexivity.
    + split; [split; discriminate|]. split; [split; [lia | reflexivity]|].
      split; [intros e [= <-]; now right|]. intros _ [H|H]; [discriminate | lia].
Qed.

Lemma concatenate_raises_iff_empty_witness :
  exists w, concatenate_with_crossfade 24000 [[1; 0]; [0; 1]]%Q 50 = Ok w.
Proof.
  apply (proj2 (proj2 (proj2 (concatenate_raises_iff_empty 24000 50 [[1; 0]; [0; 1]]%Q)))).
  - discriminate.
  - right. vm_compute. reflexivity.
Defined.

(** * Properties of the string primitives *)

Section Strings.

Lemma upper_char_idem (c : ascii) : upper_char (upper_char c) = upper_char c.
Proof. destruct c as [[] [] [] [] [] [] [] []]; reflexivity. Qed.

Lemma upper_idem (s : string) : upper (upper s) = upper s.
Proof.
  induction s as [|c s IH]; simpl; [reflexivity|].
  unfold upper in *. simpl. now rewrite upper_char_idem, IH.
Qed.

Lemma lower_AZ_not_space (c : ascii) :
  is_AZ c = true -> is_space (lower_char c) = false.
Proof. destruct c as [[] [] [] [] [] [] [] []]; vm_compute; congruence. Qed.

Lemma AZ_not_space (c : ascii) : is_AZ c = true -> is_space c = false.
Proof. destruct c as [[] [] [] [] [] [] [] []]; vm_compute; congruence. Qed.

Lemma rstrip_keeps_head (c : ascii) (t : string) :
  is_space c = false -> exists r, rstrip (String c t) = String c r.
Proof.
  intros Hc. simpl. destruct (rstrip t) as [|c' r].
  - rewrite Hc. now exists EmptyString.
  - now exists (String c' r).
Qed.

Lemma strip_keeps_head (c : ascii) (t : string) :
  is_space c = false -> exists r, strip (String c t) = String c r.
Proof.
  intros Hc. unfold strip. simpl lstrip. rewrite Hc.
  now apply rstrip_keeps_head.
Qed.

Lemma split_ws_cons (c : ascii) (s : string) :
  is_space c = false \/ split_ws s <> [] -> split_ws (String c s) <> [].
Proof.
  intros H. simpl. destruct (is_space c) eqn:Hc.
  - destruct H as [H|H]; [discriminate | exact H].
  - destruct s as [|c' s']; [discriminate|].
    destruct (is_space c'); [discriminate|].
    destruct (split_ws (String c' s')); discriminate.
Qed.

Lemma contains_narr_token (s : string) :
  contains "narr" s = true -> split_ws s <> [].
Proof.
  induction s as [|c s IH]; [discriminate|].
  intros H. apply split_ws_cons.
  cbn [contains] in H. apply orb_true_iff in H. destruct H as [H|H].
  - left. cbn [String.prefix] in H.
    destruct (ascii_dec "n" c) as [<-|]; [reflexivity | discriminate].
  - right. now apply IH.
Qed.

Lemma join_nonempty (sep x : string) (l : list string) :
  x <> EmptyString -> join sep (x :: l) <> EmptyString.
Proof.
  intros Hx. unfold join. simpl. destruct l as [|y l]; [exact Hx|].
  destruct x; [congruence | discriminate].
Qed.

Lemma truthy_nonempty (s : string) : truthy s = true <-> s <> EmptyString.
Proof. destruct s; simpl; split; congruence. Qed.

Lemma mem_In (x : string) (l : list string) : mem x l = true <-> In x l.
Proof.
  unfold mem. rewrite existsb_exists. split.
  - intros [y [Hy E]]. apply String.eqb_eq in E. now subst.
  - intros H. exists x. split; [exact H | apply String.eqb_refl].
Qed.

End Strings.

(** * Properties of the matcher *)

Section Matcher.

Lemma re_match_In (r : regex) (s : string) (g : list string) :
  re_match r s = Some g -> exists a b, In (a, b, g) (matches r s).
Proof.
  unfold re_match. destruct (matches r s) as [|[[a b] g'] l]; [discriminate|].
  intros [= <-]. exists a, b. now left.
Qed.

Lemma matches_Seq (r1 r2 : regex) (s a b : string) (g : list string) :
  In (a, b, g) (matches (Seq r1 r2) s) ->
  exists a1 s1 g1 a2 g2,
    In (a1, s1, g1) (matches r1 s) /\ In (a2, b, g2) (matches r2 s1) /\
    a = String.append a1 a2 /\ g = g1 ++ g2.
Proof.
  cbn [matches]. rewrite in_flat_map. intros [[[a1 s1] g1] [H1 H2]].
  apply in_map_iff in H2. destruct H2 as [[[a2 s2] g2] [E H2]].
  injection E as <- <- <-. now exists a1, s1, g1, a2, g2.
Qed.

Lemma matches_Grp (r : regex) (s a b : string) (g : list string) :
  In (a, b, g) (matches (Grp r) s) ->
  exists g0, In (a, b, g0) (matches r s) /\ g = a :: g0.
Proof.
  cbn [matches]. rewrite in_map_iff. intros [[[a0 s0] g0] [E H]].
  injection E as <- <- <-. now exists g0.
Qed.

Lemma matches_Chr (p : ascii -> bool) (s a b : string) (g : list string) :
  In (a, b, g) (matches (Chr p) s) ->
  exists c, p c = true /\ s = String c b /\ a = String c EmptyString /\ g = [].
Proof.
  cbn [matches]. destruct s as [|c s']; [intros []|].
  destruct (p c) eqn:Hc; [|intros []].
  intros [E|[]]. injection E as <- <- <-. now exists c.
Qed.

Lemma matches_Rep (p : ascii -> bool) (lo : nat) (gr : bool)
      (s a b : string) (g : list string) :
  In (a, b, g) (matches (Rep p lo gr) s) -> g = [].
Proof.
  cbn [matches]. rewrite in_map_iff. intros [[a0 b0] [E _]]. now injection E.
Qed.

(** The first group of a speaker token starts with a capital letter. *)
Lemma matches_token (lo : nat) (gr : bool) (s a b : string) (g : list string) :
  In (a, b, g) (matches (Grp (Seq (Chr is_AZ) (Rep token_char lo gr))) s) ->
  exists c t, is_AZ c = true /\ g = [String c t].
Proof.
  intros H. apply matches_Grp in H. destruct H as [g0 [H ->]].
  apply matches_Seq in H. destruct H as (a1 & s1 & g1 & a2 & g2 & H1 & H2 & -> & ->).
  apply matches_Chr in H1. destruct H1 as (c & Hc & _ & -> & ->).
  apply matches_Rep in H2. subst g2.
  exists c, a2. now split.
Qed.

Lemma pattern1_group (s : string) (g : list string) :
  re_match pattern1 s = Some g -> capital_group g.
Proof.
  intros H. apply re_match_In in H. destruct H as (a & b & H).
  apply matches_Seq in H. destruct H as (a1 & s1 & g1 & a2 & g2 & H1 & _ & _ & ->).
  apply matches_token in H1. destruct H1 as (c & t & Hc & ->).
  now exists c, t.
Qed.

Lemma pattern2_group (s : string) (g : list string) :
  re_match pattern2 s = Some g -> capital_group g.
Proof.
  intros H. apply re_match_In in H. destruct H as (a & b & H).
  apply matches_Seq in H. destruct H as (a1 & s1 & g1 & a2 & g2 & H1 & H2 & _ & ->).
  apply matches_Chr in H1. destruct H1 as (_ & _ & _ & _ & ->).
  apply matches_Seq in H2. destruct H2 as (a3 & s3 & g3 & a4 & g4 & H3 & _ & _ & ->).
  apply matches_token in H3. destruct H3 as (c & t & Hc & ->).
  now exists c, t.
Qed.

Lemma pattern3_group (s : string) (g : list string) :
  re_match pattern3 s = Some g -> capital_group g.
Proof.
  intros H. apply re_match_In in H. destruct H as (a & b & H).
  apply matches_Seq in H. destruct H as (a1 & s1 & g1 & a2 & g2 & H1 & _ & _ & ->).
  apply matches_token in H1. destruct H1 as (c & t & Hc & ->).
  now exists c, t.
Qed.

Lemma pattern4_group (s : string) (g : list string) :
  re_match pattern4 s = Some g -> capital_group g.
Proof.
  intros H. apply re_match_In in H. destruct H as (a & b & H).
  apply matches_Seq in H. destruct H as (a1 & s1 & g1 & a2 & g2 & H1 & H2 & _ & ->).
  apply matches_Chr in H1. destruct H1 as (_ & _ & _ & _ & ->).
  apply matches_Seq in H2. destruct H2 as (a3 & s3 & g3 & a4 & g4 & H3 & H4 & _ & ->).
  apply matches_Chr in H3. destruct H3 as (_ & _ & _ & _ & ->).
  apply matches_Seq in H4. destruct H4 as (a5 & s5 & g5 & a6 & g6 & H5 & _ & _ & ->).
  apply matches_token in H5. destruct H5 as (c & t & Hc & ->).
  now exists c, t.
Qed.

Lemma capital_group_token (g : list string) :
  capital_group g -> has_token (strip (group g 1)).
Proof.
  intros (c & t & Hc & ->).
  destruct (strip_keeps_head c t (AZ_not_space c Hc)) as [r ->].
  unfold has_token, lower. cbn [map_chars].
  apply split_ws_cons. left. now apply lower_AZ_not_space.
Qed.

(** Every speaker that [_detect_speaker] returns has a first token. *)
Lemma detect_speaker_token (line speaker dialogue : string) :
  _detect_speaker line = Some (speaker, dialogue) -> has_token speaker.
Proof.
  unfold _detect_speaker, orelse.
  destruct (re_match pattern1 line) as [g1|] eqn:H1.
  - destruct (negb (mem (upper (strip (group g1 1))) scene_keywords)).
    + intros [= <- _]. apply capital_group_token. eapply pattern1_group; eauto.
    + destruct (re_match pattern2 line) as [g2|] eqn:H2.
      * intros [= <- _]. apply capital_group_token. eapply pattern2_group; eauto.
      * destruct (re_match pattern3 line) as [g3|] eqn:H3.
        -- destruct (negb (mem (upper (strip (group g3 1))) scene_keywords)).
           ++ intros [= <- _]. apply capital_group_token. eapply pattern3_group; eauto.
           ++ destruct (re_match pattern4 line) as [g4|] eqn:H4; [|discriminate].
              intros [= <- _]. apply capital_group_token. eapply pattern4_group; eauto.
        -- destruct (re_match pattern4 line) as [g4|] eqn:H4; [|discriminate].
           intros [= <- _]. apply capital_group_token. eapply pattern4_group; eauto.
  - destruct (re_match pattern2 line) as [g2|] eqn:H2.
    + intros [= <- _]. apply capital_group_token. eapply pattern2_group; eauto.
    + destruct (re_match pattern3 line) as [g3|] eqn:H3.
      * destruct (negb (mem (upper (strip (group g3 1))) scene_keywords)).
        -- intros [= <- _]. apply capital_group_token. eapply pattern3_group; eauto.
        -- destruct (re_match pattern4 line) as [g4|] eqn:H4; [|discriminate].
           intros [= <- _]. apply capital_group_token. eapply pattern4_group; eauto.
      * destruct (re_match pattern4 line) as [g4|] eqn:H4; [|discriminate].
        intros [= <- _]. apply capital_group_token. eapply pattern4_group; eauto.
Qed.

End Matcher.

(** * Properties of the voice resolution *)

Section Voices.

Lemma get_key_in {V : Type} (k : string) (d : Dict.t V) (v : V) :
  Dict.get k d = Some v -> In k (Dict.keys d) /\ In v (Dict.values d).
Proof.
  induction d as [|[k' v'] d IH]; simpl; [discriminate|].
  destruct (String.eqb k k') eqn:E.
  - intros [= <-]. apply String.eqb_eq in E. subst. split; now left.
  - intros H. destruct (IH H). split; now right.
Qed.

(** The first entry whose key passes a test is the live binding of its key. *)
Lemma find_key_get {V : Type} (P : string -> bool) (d : Dict.t V) (k : string) (v : V) :
  find (fun kv => P (fst kv)) d = Some (k, v) ->
  Dict.get k d = Some v /\ P k = true.
Proof.
  induction d as [|[k' v'] d IH]; simpl; [discriminate|].
  destruct (P k') eqn:Hk'.
  - intros [= <- <-]. now rewrite String.eqb_refl.
  - intros H. destruct (IH H) as [Hg Hp]. split; [|exact Hp].
    destruct (String.eqb k k') eqn:E; [|exact Hg].
    apply String.eqb_eq in E. congruence.
Qed.

Lemma find_key_none {V : Type} (P : string -> bool) (d : Dict.t V) (k : string) :
  find (fun kv => P (fst kv)) d = None -> In k (Dict.keys d) -> P k = false.
Proof.
  intros H Hin. unfold Dict.keys in Hin. apply in_map_iff in Hin.
  destruct Hin as [[k' v] [E Hin]]. simpl in E. subst k'.
  exact (find_none _ _ H _ Hin).
Qed.

(** Rule (a): a key that matches case-insensitively decides the voice. *)
Lemma voice_map_hit (speaker : string) (vm : Dict.t string) (k : string) :
  In k (Dict.keys vm) -> upper k = upper speaker ->
  exists k' v,
    Dict.get k' vm = Some v /\ upper k' = upper speaker /\
    _get_voice_for_speaker speaker vm = Ok v.
Proof.
  intros Hin Hk. unfold _get_voice_for_speaker.
  destruct (Dict.get (upper speaker) vm) as [v|] eqn:Hg.
  - exists (upper speaker), v. repeat split; [exact Hg | apply upper_idem].
  - destruct (find _ vm) as [[k' v]|] eqn:Hf.
    + apply (find_key_get (fun key => String.eqb (upper key) (upper speaker))) in Hf.
      destruct Hf as [Hg' Hp]. apply String.eqb_eq in Hp.
      now exists k', v.
    + apply (find_key_none (fun key => String.eqb (upper key) (upper speaker)) vm k) in Hf;
        [|exact Hin].
      rewrite Hk, String.eqb_refl in Hf. discriminate.
Qed.

(** Rules (b) to (d), reached when no key matches. *)
Lemma voice_map_miss (speaker : string) (vm : Dict.t string) :
  no_key_for speaker vm ->
  _get_voice_for_speaker speaker vm =
  (speaker_lower <- index (split_ws (lower speaker)) 0 ;;
   if mem speaker_lower male_names then Ok "am_adam"
   else if mem speaker_lower female_names then Ok "af_bella"
   else if contains "narr" speaker_lower || String.eqb (upper speaker) "NARRATOR"
        then Dict.item "NARRATOR" default_voices
        else Dict.item "DEFAULT" default_voices).
Proof.
  intros Hno. unfold _get_voice_for_speaker.
  destruct (Dict.get (upper speaker) vm) as [v|] eqn:Hg.
  - apply get_key_in in Hg. destruct Hg as [Hin _].
    exfalso. apply (Hno _ Hin). apply upper_idem.
  - destruct (find _ vm) as [[k' v]|] eqn:Hf; [|reflexivity].
    apply (find_key_get (fun key => String.eqb (upper key) (upper speaker))) in Hf.
    destruct Hf as [Hg' Hp]. apply String.eqb_eq in Hp.
    apply get_key_in in Hg'. destruct Hg' as [Hin _].
    exfalso. exact (Hno _ Hin Hp).
Qed.

(** The voice returned is a value of the map or a built-in voice. *)
Lemma voice_range (speaker : string) (vm : Dict.t string) (v : string) :
  _get_voice_for_speaker speaker vm = Ok v ->
  In v (Dict.values vm) \/ In v builtin_voices.
Proof.
  unfold _get_voice_for_speaker.
  destruct (Dict.get (upper speaker) vm) as [v0|] eqn:Hg.
  - intros [= <-]. left. now apply get_key_in in Hg.
  - destruct (find _ vm) as [[k' v0]|] eqn:Hf.
    + intros [= <-]. left.
      apply (find_key_get (fun key => String.eqb (upper key) (upper speaker))) in Hf.
      destruct Hf as [Hg' _]. now apply get_key_in in Hg'.
    + destruct (index (split_ws (lower speaker)) 0) as [tok|e]; [|discriminate].
      cbn [bind]. intros H. right. unfold builtin_voices.
      destruct (mem tok male_names); [injection H as <-; simpl; tauto|].
      destruct (mem tok female_names); [injection H as <-; simpl; tauto|].
      destruct (contains "narr" tok || String.eqb (upper speaker) "NARRATOR");
        injection H as <-; simpl; tauto.
Qed.

(** A speaker with a first token always gets a voice. *)
Lemma voice_total (speaker : string) (vm : Dict.t string) :
  has_token speaker -> exists v, _get_voice_for_speaker speaker vm = Ok v.
Proof.
  unfold has_token, _get_voice_for_speaker. intros Ht.
  destruct (Dict.get (upper speaker) vm) as [v0|]; [now exists v0|].
  destruct (find _ vm) as [[k' v0]|]; [now exists v0|].
  destruct (split_ws (lower speaker)) as [|tok rest]; [congruence|].
  cbn [index nth_error bind].
  destruct (mem tok male_names); [eexists; reflexivity|].
  destruct (mem tok female_names); [eexists; reflexivity|].
  destruct (contains "narr" tok || String.eqb (upper speaker) "NARRATOR");
    eexists; reflexivity.
Qed.

End Voices.

(** C3. A key of the voice map that equals the speaker name
    case-insensitively decides the voice, before any other rule: the voice
    returned is the one bound to such a key, and to that very key when it
    is the only one; without such a key the first token is looked up in the
    male names, then in the female names, and the narrator and default
    voice come last. With the map JOHN -> x, John resolves to x. *)
Theorem voice_map_first (speaker : string) (vm : Dict.t string) :
  (forall k, In k (Dict.keys vm) -> upper k = upper speaker ->
     (exists k' v, Dict.get k' vm = Some v /\ upper k' = upper speaker /\
                   _get_voice_for_speaker speaker vm = Ok v) /\
     ((forall k', In k' (Dict.keys vm) -> upper k' = upper speaker -> k' = k) ->
      exists v, Dict.get k vm = Some v /\ _get_voice_for_speaker speaker vm = Ok v)) /\
  (no_key_for speaker vm ->
   forall tok rest, split_ws (lower speaker) = tok :: rest ->
     _get_voice_for_speaker speaker vm =
     Ok (if mem tok male_names then "am_adam"
         else if mem tok female_names then "af_bella"
         else "af_heart")) /\
  (forall x, _get_voice_for_speaker "John" [("JOHN", x)] = Ok x).
Proof.
  split; [|split].
  - intros k Hin Hk.
    destruct (voice_map_hit speaker vm k Hin Hk) as (k' & v & Hg & Hk' & Hv).
    split; [now exists k', v|].
    intros Huniq. exists v. split; [|exact Hv].
    rewrite <- (Huniq k'); [exact Hg | | exact Hk'].
    now apply get_key_in in Hg.
  - intros Hno tok rest Hs. rewrite voice_map_miss by assumption.
    rewrite Hs. cbn [index nth_error bind].
    destruct (mem tok male_names); [reflexivity|].
    destruct (mem tok female_names); [reflexivity|].
    destruct (contains "narr" tok || String.eqb (upper speaker) "NARRATOR"); reflexivity.
  - intros x. reflexivity.
Qed.

Lemma voice_map_first_witness :
  exists v, Dict.get "JOHN" [("JOHN", "x")] = Some v /\
            _get_voice_for_speaker "John" [("JOHN", "x")] = Ok v.
Proof.
  apply (proj2 (proj1 (voice_map_first "John" [("JOHN", "x")]) "JOHN"
                  ltac:(simpl; tauto) ltac:(reflexivity))).
  intros k' [<-|[]] _. reflexivity.
Defined.

(** C7. When no key of the voice map matches and the first token is in
    neither name set, a speaker whose name contains "narr" in any case, or
    is NARRATOR, gets the narrator voice af_heart; THE NARRATOR does. *)
Theorem narrator_voice (speaker : string) (vm : Dict.t string) :
  no_key_for speaker vm ->
  (forall tok rest, split_ws (lower speaker) = tok :: rest ->
     mem tok male_names = false /\ mem tok female_names = false) ->
  contains "narr" (lower speaker) = true \/ speaker = "NARRATOR" ->
  _get_voice_for_speaker speaker vm = Dict.item "NARRATOR" default_voices /\
  _get_voice_for_speaker speaker vm = Ok "af_heart".
Proof.
  intros Hno Hnames Hnarr.
  assert (Ht : split_ws (lower speaker) <> []).
  { destruct Hnarr as [H| ->]; [now apply contains_narr_token | discriminate]. }
  rewrite voice_map_miss by assumption.
  destruct (split_ws (lower speaker)) as [|tok rest] eqn:Hs; [congruence|].
  destruct (Hnames tok rest eq_refl) as [Hm Hf].
  cbn [index nth_error bind]. rewrite Hm, Hf.
  destruct (contains "narr" tok || String.eqb (upper speaker) "NARRATOR");
    split; reflexivity.
Qed.

Lemma narrator_voice_witness :
  _get_voice_for_speaker "THE NARRATOR" [("JOHN", "x")] = Ok "af_heart".
Proof.
  apply (narrator_voice "THE NARRATOR" [("JOHN", "x")]).
  - intros k [<-|[]]. vm_compute. discriminate.
  - intros tok rest H. vm_compute in H. injection H as <- _. split; reflexivity.
  - left. reflexivity.
Defined.

(** * Properties of the parsing loop *)

Section Loop.

Variable vm : Dict.t string.

Lemma invariant_initial : invariant vm initial.
Proof.
  unfold invariant, initial. cbn. repeat split; try constructor; discriminate.
Qed.

(** The segment that a flush emits satisfies [segment_ok]. *)
Lemma flush_ok (st : state) (sp : string) :
  invariant vm st -> open_buffer st = Some sp ->
  exists v, _get_voice_for_speaker sp vm = Ok v /\
            segment_ok vm (v, join " " (current_text st)).
Proof.
  intros (Hsp & Htx & _) Hopen. unfold open_buffer in Hopen.
  destruct (current_speaker st) as [sp0|] eqn:Es; [|discriminate].
  destruct (current_text st) as [|t ts] eqn:Et; [discriminate|].
  destruct (truthy sp0); [|discriminate]. injection Hopen as ->.
  destruct (voice_total sp vm (Hsp sp eq_refl)) as [v Hv].
  exists v. split; [exact Hv|]. split; cbn [fst snd].
  - apply join_nonempty. now inversion Htx.
  - now apply (voice_range sp).
Qed.

Lemma has_token_truthy (sp : string) : has_token sp -> truthy sp = true.
Proof. destruct sp; [intros H; now contradiction H | reflexivity]. Qed.

(** Without an open buffer the text collected so far is empty. *)
Lemma closed_buffer_empty (st : state) :
  invariant vm st -> open_buffer st = None -> current_text st = [].
Proof.
  intros (Hsp & _ & _ & Hnone) Ho. unfold open_buffer in Ho.
  destruct (current_speaker st) as [sp|]; [|now apply Hnone].
  destruct (current_text st) as [|t ts]; [reflexivity|].
  now rewrite (has_token_truthy sp (Hsp sp eq_refl)) in Ho.
Qed.

(** What a cue line does: the open buffer is flushed as [finish] would
    flush it, and a new buffer starts with the inline dialogue. *)
Lemma step_cue (st : state) (raw speaker dialogue : string) :
  invariant vm st ->
  _detect_speaker (strip raw) = Some (speaker, dialogue) ->
  step vm st raw =
  (before <- finish vm st ;;
   Ok (mkState before (Some speaker) (if truthy dialogue then [dialogue] else []))).
Proof.
  intros Hinv Hd. unfold step, finish.
  destruct (truthy (strip raw)) eqn:Hline; cbn [negb].
  2:{ destruct (strip raw); [discriminate Hd | discriminate Hline]. }
  rewrite Hd.
  destruct (open_buffer st) as [sp|] eqn:Ho.
  - destruct (flush_ok st sp Hinv Ho) as (v & -> & _). reflexivity.
  - cbn [bind]. now rewrite (closed_buffer_empty st Hinv Ho).
Qed.

(** What any other line does. *)
Lemma step_no_cue (st : state) (raw : string) :
  _detect_speaker (strip raw) = None ->
  step vm st raw =
  Ok (if negb (truthy (strip raw)) then st
      else match current_speaker st with
           | Some (String _ _) =>
               mkState (segments st) (current_speaker st)
                       (current_text st ++ [strip raw])
           | _ =>
               if negb (_is_scene_direction (strip raw))
               then mkState (segments st) (Some "NARRATOR")
                            (current_text st ++ [strip raw])
               else st
           end).
Proof.
  intros Hd. unfold step. rewrite Hd.
  destruct (negb (truthy (strip raw))); [reflexivity|].
  destruct (current_speaker st) as [[|c sp]|]; try reflexivity;
    destruct (negb (_is_scene_direction (strip raw))); reflexivity.
Qed.

Lemma step_invariant (st : state) (raw : string) :
  invariant vm st -> exists st', step vm st raw = Ok st' /\ invariant vm st'.
Proof.
  intros Hinv.
  destruct (_detect_speaker (strip raw)) as [[speaker dialogue]|] eqn:Hd.
  - rewrite (step_cue st raw speaker dialogue Hinv Hd).
    unfold finish.
    assert (Hnew : Forall (fun t => t <> EmptyString)
                          (if truthy dialogue then [dialogue] else [])).
    { destruct (truthy dialogue) eqn:Hdl; [|constructor].
      constructor; [now apply truthy_nonempty | constructor]. }
    apply detect_speaker_token in Hd.
    destruct (open_buffer st) as [sp|] eqn:Ho.
    + destruct (flush_ok st sp Hinv Ho) as (v & -> & Hseg).
      cbn [bind]. eexists. split; [reflexivity|].
      destruct Hinv as (_ & _ & Hsegs & _).
      unfold invariant. cbn [segments current_speaker current_text].
      split; [now intros sp' [= <-]|]. split; [exact Hnew|].
      split; [|discriminate].
      apply Forall_app. split; [exact Hsegs | now constructor].
    + cbn [bind]. eexists. split; [reflexivity|].
      destruct Hinv as (_ & _ & Hsegs & _).
      unfold invariant. cbn [segments current_speaker current_text].
      split; [now intros sp' [= <-]|]. split; [exact Hnew|].
      split; [exact Hsegs | discriminate].
  - rewrite (step_no_cue st raw Hd). eexists. split; [reflexivity|].
    destruct (truthy (strip raw)) eqn:Hline; cbn [negb]; [|exact Hinv].
    apply truthy_nonempty in Hline.
    destruct Hinv as (Hsp & Htx & Hsegs & Hnone).
    assert (Hnew : Forall (fun t => t <> EmptyString) (current_text st ++ [strip raw])).
    { apply Forall_app. split; [exact Htx | now repeat constructor]. }
    assert (Hnarr : invariant vm (mkState (segments st) (Some "NARRATOR")
                                          (current_text st ++ [strip raw]))).
    { unfold invariant. cbn [segments current_speaker current_text].
      split; [intros sp' [= <-]; discriminate|].
      split; [exact Hnew|]. split; [exact Hsegs | discriminate]. }
    destruct (current_speaker st) as [[|c sp]|] eqn:Es.
    + destruct (_is_scene_direction (strip raw)); cbn [negb]; [|exact Hnarr].
      unfold invariant. rewrite Es. now repeat split.
    + unfold invariant. cbn [segments current_speaker current_text].
      split; [exact Hsp|]. split; [exact Hnew|].
      split; [exact Hsegs | discriminate].
    + destruct (_is_scene_direction (strip raw)); cbn [negb]; [|exact Hnarr].
      unfold invariant. rewrite Es. now repeat split.
Qed.

Lemma loop_invariant (lines : list string) (st : state) :
  invariant vm st -> exists st', loop vm st lines = Ok st' /\ invariant vm st'.
Proof.
  revert st. induction lines as [|l rest IH]; intros st Hinv.
  - now exists st.
  - destruct (step_invariant st l Hinv) as (st1 & H1 & Hinv1).
    destruct (IH st1 Hinv1) as (st2 & H2 & Hinv2).
    exists st2. split; [|exact Hinv2]. simpl. now rewrite H1.
Qed.

Lemma finish_ok (st : state) :
  invariant vm st ->
  exists segs, finish vm st = Ok segs /\ Forall (segment_ok vm) segs.
Proof.
  intros Hinv. unfold finish.
  destruct (open_buffer st) as [sp|] eqn:Ho.
  - destruct (flush_ok st sp Hinv Ho) as (v & -> & Hseg).
    cbn [bind]. eexists. split; [reflexivity|].
    destruct Hinv as (_ & _ & Hsegs & _).
    apply Forall_app. split; [exact Hsegs | now constructor].
  - exists (segments st). split; [reflexivity|]. now destruct Hinv as (_ & _ & H & _).
Qed.

(** [parse_lines] returns, and each segment it returns is [segment_ok]. *)
Lemma parse_lines_ok (lines : list string) :
  exists segs, parse_lines lines vm = Ok segs /\ Forall (segment_ok vm) segs.
Proof.
  unfold parse_lines.
  destruct (loop_invariant lines initial invariant_initial) as (st & -> & Hinv).
  cbn [bind]. now apply finish_ok.
Qed.

End Loop.

Lemma parse_script_ok (script_text : string) (voice_mappings : option (Dict.t string)) :
  exists segs,
    parse_script script_text voice_mappings = Ok segs /\
    Forall (segment_ok (match voice_mappings with Some d => d | None => [] end)) segs.
Proof. unfold parse_script. apply parse_lines_ok. Qed.

(** C4. [parse_script] returns on every script and voice map, and no
    segment it returns has an empty text; a bare cue that captures no
    dialogue before the next cue, or before the end, yields no segment. *)
Theorem segment_text_never_empty
    (script_text : string) (voice_mappings : option (Dict.t string)) :
  (exists segs,
     parse_script script_text voice_mappings = Ok segs /\
     Forall (fun seg : segment => snd seg <> EmptyString) segs) /\
  parse_script (unlines ["JOHN"; "SARAH: hi"; "MARY"]) None = Ok [("af_bella", "hi")].
Proof.
  split; [|reflexivity].
  destruct (parse_script_ok script_text voice_mappings) as (segs & H & Hall).
  exists segs. split; [exact H|].
  eapply Forall_impl; [|exact Hall]. now intros seg [Ht _].
Qed.

(** C10. [parse_script] returns on every script and voice map, and the
    voice of each segment it returns is a value of the voice map or one of
    am_adam, af_bella, af_heart; without a voice map it is one of the
    three. *)
Theorem voices_from_map_or_builtin
    (script_text : string) (voice_mappings : Dict.t string) :
  (exists segs,
     parse_script script_text (Some voice_mappings) = Ok segs /\
     Forall (fun seg : segment =>
               In (fst seg) (Dict.values voice_mappings) \/
               In (fst seg) ["am_adam"; "af_bella"; "af_heart"]) segs) /\
  (exists segs,
     parse_script script_text None = Ok segs /\
     Forall (fun seg : segment =>
               In (fst seg) ["am_adam"; "af_bella"; "af_heart"]) segs).
Proof.
  split.
  - destruct (parse_script_ok script_text (Some voice_mappings)) as (segs & H & Hall).
    exists segs. split; [exact H|].
    eapply Forall_impl; [|exact Hall]. now intros seg [_ Hv].
  - destruct (parse_script_ok script_text None) as (segs & H & Hall).
    exists segs. split; [exact H|].
    eapply Forall_impl; [|exact Hall]. intros seg [_ [[]|Hv]]. exact Hv.
Qed.

(** * Cue blocks *)

Section Blocks.

Variable vm : Dict.t string.

Lemma loop_app (st : state) (l1 l2 : list string) :
  loop vm st (l1 ++ l2) = (st' <- loop vm st l1 ;; loop vm st' l2).
Proof.
  revert st. induction l1 as [|l l1 IH]; intros st; [reflexivity|].
  simpl. destruct (step vm st l) as [st1|e]; [apply IH | reflexivity].
Qed.

Lemma open_buffer_prepend (front : list segment) (st : state) :
  open_buffer (prepend front st) = open_buffer st.
Proof. reflexivity. Qed.

Lemma step_prepend (front : list segment) (st : state) (raw : string) :
  step vm (prepend front st) raw = (st' <- step vm st raw ;; Ok (prepend front st')).
Proof.
  unfold step.
  destruct (negb (truthy (strip raw))); [reflexivity|].
  destruct (_detect_speaker (strip raw)) as [[speaker dialogue]|].
  - rewrite open_buffer_prepend.
    destruct (open_buffer st) as [sp|]; [|reflexivity].
    cbn [prepend current_text segments current_speaker].
    destruct (_get_voice_for_speaker sp vm) as [v|e]; [|reflexivity].
    cbn [bind segments current_text]. unfold prepend.
    cbn [segments current_text current_speaker]. now rewrite app_assoc.
  - cbn [prepend current_speaker].
    destruct (current_speaker st) as [[|c sp]|]; try reflexivity;
      destruct (negb (_is_scene_direction (strip raw))); reflexivity.
Qed.

Lemma loop_prepend (front : list segment) (lines : list string) (st : state) :
  loop vm (prepend front st) lines
  = (st' <- loop vm st lines ;; Ok (prepend front st')).
Proof.
  revert st. induction lines as [|l rest IH]; intros st; [reflexivity|].
  simpl. rewrite step_prepend.
  destruct (step vm st l) as [st1|e]; [|reflexivity].
  cbn [bind]. apply IH.
Qed.

Lemma finish_prepend (front : list segment) (st : state) :
  finish vm (prepend front st) = (segs <- finish vm st ;; Ok (front ++ segs)).
Proof.
  unfold finish. rewrite open_buffer_prepend.
  destruct (open_buffer st) as [sp|]; [|reflexivity].
  cbn [prepend current_text segments].
  destruct (_get_voice_for_speaker sp vm) as [v|e]; [|reflexivity].
  cbn [bind]. now rewrite app_assoc.
Qed.

(** A cue line cuts the script in two scripts that are parsed apart. *)
Lemma cue_splits (pre rest : list string) (cue speaker dialogue : string) :
  _detect_speaker (strip cue) = Some (speaker, dialogue) ->
  parse_lines (pre ++ cue :: rest) vm =
  (before <- parse_lines pre vm ;;
   after <- parse_lines (cue :: rest) vm ;;
   Ok (before ++ after)).
Proof.
  intros Hd. unfold parse_lines. rewrite loop_app.
  destruct (loop_invariant vm pre initial (invariant_initial vm)) as (st & -> & Hinv).
  cbn [bind loop].
  rewrite (step_cue vm st cue speaker dialogue Hinv Hd).
  rewrite (step_cue vm initial cue speaker dialogue (invariant_initial vm) Hd).
  destruct (finish_ok vm st Hinv) as (before & -> & _).
  cbn [bind finish open_buffer initial current_speaker segments].
  set (start := mkState [] (Some speaker) (if truthy dialogue then [dialogue] else [])).
  replace (mkState before (Some speaker) (if truthy dialogue then [dialogue] else []))
    with (prepend before start)
    by (unfold prepend, start; cbn; now rewrite app_nil_r).
  rewrite loop_prepend.
  destruct (loop vm start rest) as [st'|e]; [|reflexivity].
  cbn [bind]. rewrite finish_prepend.
  destruct (finish vm st') as [after|e]; reflexivity.
Qed.

(** Lines that are no cue, blank or not, are collected in the buffer of
    the active speaker; the blank ones leave it as it is. *)
Lemma loop_following (segs : list segment) (c : ascii) (sp : string)
      (text following : list string) :
  Forall (fun l => _detect_speaker (strip l) = None) following ->
  loop vm (mkState segs (Some (String c sp)) text) following
  = Ok (mkState segs (Some (String c sp)) (text ++ filter truthy (map strip following))).
Proof.
  intros H. revert text. induction H as [|l ls Hl _ IH]; intros text.
  - simpl. now rewrite app_nil_r.
  - cbn [loop]. rewrite (step_no_cue vm _ l Hl).
    cbn [bind map filter current_speaker segments current_text].
    destruct (truthy (strip l)); cbn [negb].
    + rewrite IH. now rewrite <- app_assoc.
    + apply IH.
Qed.

(** A cue and the lines after it, up to the end of the script. *)
Lemma last_block (cue speaker dialogue : string) (following : list string) :
  _detect_speaker (strip cue) = Some (speaker, dialogue) ->
  Forall (fun l => _detect_speaker (strip l) = None) following ->
  exists v,
    _get_voice_for_speaker speaker vm = Ok v /\
    parse_lines (cue :: following) vm
    = Ok (block_segments v (buffer_of dialogue following)).
Proof.
  intros Hd Hf.
  pose proof (detect_speaker_token _ _ _ Hd) as Ht.
  destruct (voice_total speaker vm Ht) as [v Hv].
  exists v. split; [exact Hv|].
  unfold parse_lines. cbn [loop].
  rewrite (step_cue vm initial cue speaker dialogue (invariant_initial vm) Hd).
  cbn [bind finish open_buffer initial current_speaker segments].
  destruct speaker as [|c sp]; [now contradiction Ht|].
  rewrite (loop_following [] c sp _ following Hf).
  cbn [bind]. unfold finish, open_buffer, buffer_of, block_segments.
  cbn [current_speaker current_text segments truthy].
  destruct ((if truthy dialogue then [dialogue] else [])
            ++ filter truthy (map strip following)); [reflexivity|].
  rewrite Hv. reflexivity.
Qed.

End Blocks.

(** C2. The code at the line INT. KITCHEN - NIGHT, no speaker being
    active: the line is a scene direction for [_is_scene_direction], yet
    pattern 3 of [_detect_speaker] takes it for a cue, the loop makes it the
    current speaker, and the next line is emitted as a segment of that
    speaker (here with the voice that the map gives to that name, where
    narration would get af_heart). *)
Theorem slugline_opens_speaker :
  _is_scene_direction "INT. KITCHEN - NIGHT" = true /\
  _detect_speaker "INT. KITCHEN - NIGHT" = Some ("INT. KITCHEN - NIGHT", "") /\
  step [] initial "INT. KITCHEN - NIGHT"
  = Ok (mkState [] (Some "INT. KITCHEN - NIGHT") []) /\
  parse_script (unlines ["INT. KITCHEN - NIGHT"; "Rain on the window."])
               (Some [("INT. KITCHEN - NIGHT", "x")])
  = Ok [("x", "Rain on the window.")] /\
  parse_script "Rain on the window." (Some [("INT. KITCHEN - NIGHT", "x")])
  = Ok [("af_heart", "Rain on the window.")] /\
  detect_characters "INT. KITCHEN - NIGHT" = [("INT. KITCHEN - NIGHT", 1)].
Proof. repeat split; reflexivity. Qed.

(** C6, as the specification words it, fails: a blank line between two
    dialogue lines of one speaker does not end the segment, the two lines
    are joined in one text. *)
Lemma blank_line_does_not_bound :
  parse_script (unlines ["JOHN: hi"; ""; "there"]) None = Ok [("am_adam", "hi there")].
Proof. reflexivity. Qed.

(** C6, amended. Let the lines of a script be: some lines, a cue, lines
    that are no cue (blank lines among them), and then the end of the script
    or the next cue. The script yields the segments of what precedes the
    cue, then at most one segment for the cue, then the segments of what
    follows. The text of that segment is the inline dialogue of the cue and
    the non-blank lines after it, stripped, joined by single spaces; blank
    lines are skipped and do not bound it; when nothing was collected there
    is no segment. *)
Theorem block_text
    (script_text : string) (vm : Dict.t string) (pre following post : list string)
    (cue speaker dialogue : string) :
  split_on nl script_text = pre ++ cue :: following ++ post ->
  _detect_speaker (strip cue) = Some (speaker, dialogue) ->
  Forall (fun l => _detect_speaker (strip l) = None) following ->
  (post = [] \/
   exists next rest, post = next :: rest /\ _detect_speaker (strip next) <> None) ->
  exists v before after,
    _get_voice_for_speaker speaker vm = Ok v /\
    parse_lines pre vm = Ok before /\
    parse_lines post vm = Ok after /\
    parse_script script_text (Some vm)
    = Ok (before ++ block_segments v (buffer_of dialogue following) ++ after).
Proof.
  intros Hlines Hd Hf Hpost.
  destruct (last_block vm cue speaker dialogue following Hd Hf) as (v & Hv & Hblock).
  destruct (parse_lines_ok vm pre) as (before & Hbefore & _).
  destruct (parse_lines_ok vm post) as (after & Hafter & _).
  exists v, before, after. repeat split; try assumption.
  unfold parse_script. rewrite Hlines.
  rewrite (cue_splits vm pre (following ++ post) cue speaker dialogue Hd).
  rewrite Hbefore. cbn [bind].
  destruct Hpost as [-> | (next & rest & -> & Hnext)].
  - rewrite app_nil_r, Hblock. cbn [bind].
    unfold parse_lines in Hafter. cbn in Hafter. injection Hafter as <-.
    now rewrite app_nil_r.
  - destruct (_detect_speaker (strip next)) as [[sp' d']|] eqn:Hd'; [|congruence].
    change (cue :: following ++ next :: rest) with ((cue :: following) ++ next :: rest).
    rewrite (cue_splits vm (cue :: following) rest next sp' d' Hd').
    rewrite Hblock, Hafter. reflexivity.
Qed.

Lemma block_text_witness :
  exists v before after,
    _get_voice_for_speaker "JOHN" [] = Ok v /\
    parse_lines ["Once upon a time."] [] = Ok before /\
    parse_lines ["SARAH: yo"] [] = Ok after /\
    parse_script (unlines ["Once upon a time."; "JOHN: hi"; ""; "there"; "SARAH: yo"])
                 (Some [])
    = Ok (before ++ block_segments v (buffer_of "hi" [""; "there"]) ++ after).
Proof.
  apply (block_text
           (unlines ["Once upon a time."; "JOHN: hi"; ""; "there"; "SARAH: yo"]) []
           ["Once upon a time."] [""; "there"] ["SARAH: yo"] "JOHN: hi" "JOHN" "hi").
  - reflexivity.
  - reflexivity.
  - repeat constructor.
  - right. exists "SARAH: yo", []. split; [reflexivity | vm_compute; discriminate].
Defined.

(** * Properties of the dictionaries *)

Section Dicts.

Context {V : Type}.

Lemma set_fresh (k : string) (v : V) (d : Dict.t V) :
  ~ In k (Dict.keys d) -> Dict.set k v d = d ++ [(k, v)].
Proof.
  induction d as [|[k' v'] d IH]; simpl; intros Hk; [reflexivity|].
  destruct (String.eqb k k') eqn:E.
  - apply String.eqb_eq in E. subst. tauto.
  - rewrite IH by tauto. reflexivity.
Qed.

Lemma set_present (k : string) (v : V) (d : Dict.t V) :
  In k (Dict.keys d) -> Dict.keys (Dict.set k v d) = Dict.keys d.
Proof.
  induction d as [|[k' v'] d IH]; simpl; intros Hk; [contradiction|].
  destruct (String.eqb k k') eqn:E; [reflexivity|].
  simpl. rewrite IH; [reflexivity|].
  destruct Hk as [<-|Hk]; [|exact Hk]. now rewrite String.eqb_refl in E.
Qed.

Lemma keys_set (k : string) (v : V) (d : Dict.t V) :
  Dict.keys (Dict.set k v d)
  = if mem k (Dict.keys d) then Dict.keys d else Dict.keys d ++ [k].
Proof.
  destruct (mem k (Dict.keys d)) eqn:E.
  - apply set_present. now apply mem_In.
  - rewrite set_fresh.
    + unfold Dict.keys. now rewrite map_app.
    + intros H. apply mem_In in H. congruence.
Qed.

Lemma get_app_fresh (k : string) (v : V) (d : Dict.t V) :
  ~ In k (Dict.keys d) -> Dict.get k (d ++ [(k, v)]) = Some v.
Proof.
  induction d as [|[k' v'] d IH]; simpl; intros Hk.
  - now rewrite String.eqb_refl.
  - destruct (String.eqb k k') eqn:E.
    + apply String.eqb_eq in E. subst. tauto.
    + apply IH. tauto.
Qed.

Lemma get_app_old (k : string) (d d' : Dict.t V) (v : V) :
  Dict.get k d = Some v -> Dict.get k (d ++ d') = Some v.
Proof.
  induction d as [|[k' v'] d IH]; simpl; [discriminate|].
  destruct (String.eqb k k'); [trivial | exact IH].
Qed.

End Dicts.

Lemma index_nth {A : Type} (l : list A) (i : nat) (d : A) :
  i < List.length l -> index l i = Ok (nth i l d).
Proof.
  intros Hi. unfold index.
  destruct (nth_error l i) as [x|] eqn:E.
  - now rewrite (nth_error_nth _ _ d E).
  - apply nth_error_None in E. lia.
Qed.

(** * Properties of the voice suggestions *)

Section Suggestions.

(** No name of the two name sets contains "narr": the narrator test never
    takes a gendered name away. *)
Lemma named_not_narr (tok : string) :
  mem tok male_names = true \/ mem tok female_names = true ->
  contains "narr" tok = false.
Proof.
  intros [H|H]; apply mem_In in H; simpl in H;
    repeat (destruct H as [<-|H]; [reflexivity|]); contradiction.
Qed.

Lemma count_kind_app (k : kind) (l : list string) (c : string) :
  count_kind k (l ++ [c])
  = count_kind k l + (if kind_eqb (kind_of c) k then 1 else 0).
Proof.
  unfold count_kind. rewrite filter_app, length_app. simpl.
  destruct (kind_eqb (kind_of c) k); reflexivity.
Qed.

Lemma lower_upper_char (c : ascii) : lower_char (upper_char c) = lower_char c.
Proof. destruct c as [[] [] [] [] [] [] [] []]; reflexivity. Qed.

Lemma lower_upper (s : string) : lower (upper s) = lower s.
Proof.
  induction s as [|c s IH]; [reflexivity|].
  unfold lower, upper in *. simpl. now rewrite lower_upper_char, IH.
Qed.

Lemma has_token_upper (s : string) : has_token s -> has_token (upper s).
Proof. unfold has_token. now rewrite lower_upper. Qed.

(** One iteration on a character that has no suggestion yet. *)
Lemma suggest_step_fresh (st : sstate) (before : list string) (c : string) :
  has_token c ->
  Dict.keys (suggestions st) = before -> ~ In c before ->
  male_voice_idx st = count_kind Male before ->
  female_voice_idx st = count_kind Female before ->
  suggest_step st c
  = Ok (mkS (suggestions st ++ [(c, expected_voice before c)])
            (count_kind Male (before ++ [c]))
            (count_kind Female (before ++ [c]))).
Proof.
  intros Ht Hkeys Hfresh Hm Hf.
  assert (Hlen : List.length (suggestions st) = List.length before).
  { rewrite <- Hkeys. unfold Dict.keys. now rewrite length_map. }
  rewrite <- Hkeys in Hfresh.
  unfold suggest_step, expected_voice. rewrite !count_kind_app.
  unfold kind_of, has_token in *.
  destruct (split_ws (lower c)) as [|tok rest]; [congruence|].
  cbn [index nth_error bind].
  destruct (contains "narr" tok) eqn:Hn.
  - destruct (mem tok male_names) eqn:Em.
    { rewrite named_not_narr in Hn by tauto. discriminate. }
    destruct (mem tok female_names) eqn:Ef.
    { rewrite named_not_narr in Hn by tauto. discriminate. }
    cbn [kind_eqb]. rewrite !Nat.add_0_r, set_fresh by assumption.
    now rewrite Hm, Hf.
  - destruct (mem tok male_names) eqn:Em.
    + cbn [kind_eqb bind Dict.item Dict.get available_voices String.eqb Ascii.eqb Bool.eqb].
      change (pool "male") with ["am_adam"; "am_michael"].
      rewrite (index_nth _ _ EmptyString)
        by (apply Nat.mod_upper_bound; discriminate).
      cbn [bind]. rewrite set_fresh by assumption.
      now rewrite Hm, Hf, Nat.add_0_r.
    + destruct (mem tok female_names) eqn:Ef.
      * cbn [kind_eqb bind Dict.item Dict.get available_voices String.eqb Ascii.eqb Bool.eqb].
        change (pool "female")
          with ["af_bella"; "af_sarah"; "af_heart"; "af_sky"; "af_nicole"].
        rewrite (index_nth _ _ EmptyString)
          by (apply Nat.mod_upper_bound; discriminate).
        cbn [bind]. rewrite set_fresh by assumption.
        now rewrite Hm, Hf, Nat.add_0_r.
      * cbn [kind_eqb]. rewrite !Nat.add_0_r, Hlen, <- Hm, <- Hf.
        rewrite !set_fresh by assumption.
        destruct (Nat.even (List.length before)) eqn:Ev.
        -- apply Nat.even_spec in Ev. destruct Ev as [h Ev].
           replace (List.length before mod 2 =? 0)%nat with true; [reflexivity|].
           symmetry. apply Nat.eqb_eq. rewrite Ev, Nat.mul_comm. apply Nat.Div0.mod_mul.
        -- replace (List.length before mod 2 =? 0)%nat with false; [reflexivity|].
           symmetry. apply Nat.eqb_neq. intros E0.
           apply Nat.Div0.mod_divides in E0. destruct E0 as [h E0].
           assert (Nat.even (List.length before) = true)
             by (apply Nat.even_spec; now exists h).
           congruence.
Qed.

Lemma keys_assignment (before todo : list string) :
  Dict.keys (assignment before todo) = todo.
Proof.
  revert before. induction todo as [|c rest IH]; intros before; [reflexivity|].
  simpl. f_equal. apply IH.
Qed.

Lemma suggest_loop_fresh (todo before : list string) (st : sstate) :
  Forall has_token todo -> NoDup (before ++ todo) ->
  Dict.keys (suggestions st) = before ->
  male_voice_idx st = count_kind Male before ->
  female_voice_idx st = count_kind Female before ->
  suggest_loop st todo
  = Ok (mkS (suggestions st ++ assignment before todo)
            (count_kind Male (before ++ todo))
            (count_kind Female (before ++ todo))).
Proof.
  revert before st. induction todo as [|c rest IH]; intros before st Ht Hnd Hk Hm Hf.
  - simpl. rewrite !app_nil_r, <- Hm, <- Hf. now destruct st.
  - apply Forall_cons_iff in Ht. destruct Ht as [Hc Hrest].
    assert (Hfresh : ~ In c before).
    { intros Hin. apply NoDup_remove_2 in Hnd. apply Hnd. apply in_or_app. now left. }
    cbn [suggest_loop].
    rewrite (suggest_step_fresh st before c Hc Hk Hfresh Hm Hf). cbn [bind].
    rewrite (IH (before ++ [c])); cbn [suggestions male_voice_idx female_voice_idx].
    + cbn [assignment]. now rewrite <- !app_assoc.
    + exact Hrest.
    + now rewrite <- app_assoc.
    + unfold Dict.keys in *. now rewrite map_app, Hk.
    + reflexivity.
    + reflexivity.
Qed.

(** The voice of character number [i] in an assignment. *)
Lemma get_assignment (todo before : list string) (i : nat) (c : string) :
  NoDup (before ++ todo) -> nth_error todo i = Some c ->
  Dict.get c (assignment before todo)
  = Some (expected_voice (before ++ firstn i todo) c).
Proof.
  revert before i. induction todo as [|c0 rest IH]; intros before i Hnd Hi.
  - now destruct i.
  - destruct i as [|i]; simpl in Hi |- *.
    + injection Hi as ->. now rewrite String.eqb_refl, app_nil_r.
    + destruct (String.eqb c c0) eqn:E.
      * apply String.eqb_eq in E. subst c0. exfalso.
        apply NoDup_remove_2 in Hnd. apply Hnd. apply in_or_app. right.
        now apply nth_error_In in Hi.
      * rewrite (IH (before ++ [c0]) i); [now rewrite <- app_assoc | | exact Hi].
        now rewrite <- app_assoc.
Qed.

(** The keys that [detect_characters] collects. *)
Lemma detect_characters_keys (lines : list string) (acc : Dict.t nat) :
  Dict.keys
    (fold_left
       (fun character_counts line =>
          match _detect_speaker line with
          | Some (sp, _) =>
              let speaker := upper sp in
              if negb (mem speaker scene_keywords)
              then count_up speaker character_counts
              else character_counts
          | None => character_counts
          end)
       lines acc)
  = fold_left (fun seen name => if mem name seen then seen else seen ++ [name])
              (filter_map character_of lines) (Dict.keys acc).
Proof.
  revert acc. induction lines as [|l rest IH]; intros acc; [reflexivity|].
  cbn [fold_left filter_map]. rewrite IH. unfold character_of.
  destruct (_detect_speaker l) as [[sp d]|]; [|reflexivity].
  cbn zeta. destruct (negb (mem (upper sp) scene_keywords)); [|reflexivity].
  cbn [fold_left]. f_equal. unfold count_up.
  destruct (Dict.get (upper sp) acc); apply keys_set.
Qed.

Lemma first_appearances_NoDup (names seen : list string) :
  NoDup seen ->
  NoDup (fold_left (fun seen name => if mem name seen then seen else seen ++ [name])
                   names seen).
Proof.
  revert seen. induction names as [|n rest IH]; intros seen Hnd; [exact Hnd|].
  cbn [fold_left]. apply IH.
  destruct (mem n seen) eqn:E; [exact Hnd|].
  apply NoDup_app; [exact Hnd | repeat constructor; intros [] |].
  intros x Hx [<-|[]]. apply mem_In in Hx. congruence.
Qed.

Lemma first_appearances_Forall (P : string -> Prop) (names seen : list string) :
  Forall P names -> Forall P seen ->
  Forall P (fold_left (fun seen name => if mem name seen then seen else seen ++ [name])
                      names seen).
Proof.
  revert seen. induction names as [|n rest IH]; intros seen Hn Hs; [exact Hs|].
  inversion Hn; subst. cbn [fold_left]. apply IH; [assumption|].
  destruct (mem n seen); [exact Hs|].
  apply Forall_app. split; [exact Hs | now repeat constructor].
Qed.

Lemma characters_have_token (lines : list string) :
  Forall has_token (filter_map character_of lines).
Proof.
  induction lines as [|l rest IH]; [constructor|].
  cbn [filter_map]. unfold character_of at 1.
  destruct (_detect_speaker l) as [[sp d]|] eqn:Hd; [|exact IH].
  destruct (negb (mem (upper sp) scene_keywords)); [|exact IH].
  constructor; [|exact IH].
  apply has_token_upper. now apply (detect_speaker_token l sp d).
Qed.

End Suggestions.

(** C9. The code on ZED, JOHN, QUX: ZED and QUX carry no gender signal,
    JOHN between them does. The fallback branch, which its comment calls
    alternating, counts every character assigned so far where the male and
    the female branch count their own: QUX, the second speaker without a
    signal, gets the male voice am_adam like ZED, the first. Next to each
    other the two do alternate. *)
Theorem no_signal_speakers_do_not_alternate :
  kind_of "ZED" = Other /\ kind_of "QUX" = Other /\ kind_of "JOHN" = Male /\
  suggest_voice_mappings (unlines ["ZED: a"; "JOHN: b"; "QUX: c"])
  = Ok [("ZED", "am_adam"); ("JOHN", "am_adam"); ("QUX", "am_adam")] /\
  suggest_voice_mappings (unlines ["ZED: a"; "QUX: c"])
  = Ok [("ZED", "am_adam"); ("QUX", "af_bella")].
Proof. repeat split; reflexivity. Qed.

(** X27. What [suggest_voice_mappings] computes. It returns on every
    script a mapping whose keys are the characters in the order of their
    first cue. The k-th character with a male first name (k from 0) gets
    the male pool entry k mod 2, and the k-th with a female first name the
    female pool entry k mod 5, each count on its own; a character whose
    first token contains "narr" gets af_heart; any other character gets
    am_adam when an even number of characters precede it and af_bella when
    an odd number do. *)
Theorem suggestions_by_kind (script_text : string) :
  Dict.keys (detect_characters script_text) = characters_of script_text /\
  exists m,
    suggest_voice_mappings script_text = Ok m /\
    Dict.keys m = characters_of script_text /\
    forall i c,
      nth_error (characters_of script_text) i = Some c ->
      Dict.get c m = Some (expected_voice (firstn i (characters_of script_text)) c).
Proof.
  assert (Hkeys : Dict.keys (detect_characters script_text) = characters_of script_text).
  { unfold detect_characters, detect_characters_lines.
    now rewrite detect_characters_keys. }
  split; [exact Hkeys|].
  assert (Hnd : NoDup (characters_of script_text)).
  { apply first_appearances_NoDup. constructor. }
  assert (Ht : Forall has_token (characters_of script_text)).
  { apply first_appearances_Forall; [apply characters_have_token | constructor]. }
  exists (assignment [] (characters_of script_text)).
  split; [|split].
  - unfold suggest_voice_mappings, suggest_chars. rewrite Hkeys.
    rewrite (suggest_loop_fresh (characters_of script_text) [] (mkS [] 0 0));
      try reflexivity; assumption.
  - apply keys_assignment.
  - intros i c Hi. now rewrite (get_assignment _ [] i c Hnd Hi).
Qed.

Lemma suggestions_by_kind_witness :
  exists m,
    suggest_voice_mappings (unlines ["ZED: a"; "JOHN: b"; "QUX: c"; "MIKE: d"]) = Ok m /\
    Dict.get "MIKE" m = Some (expected_voice ["ZED"; "JOHN"; "QUX"] "MIKE").
Proof.
  destruct (suggestions_by_kind (unlines ["ZED: a"; "JOHN: b"; "QUX: c"; "MIKE: d"]))
    as [_ [m [Hm [_ Hget]]]].
  exists m. split; [exact Hm|].
  apply (Hget 3 "MIKE"). reflexivity.
Defined.

(** * More on the string primitives *)

Section Stripping.

Lemma rstrip_idem (s : string) : rstrip (rstrip s) = rstrip s.
Proof.
  induction s as [|c s IH]; [reflexivity|].
  cbn [rstrip]. destruct (rstrip s) as [|c' r] eqn:E.
  - destruct (is_space c) eqn:Hc; [reflexivity|].
    cbn [rstrip]. now rewrite Hc.
  - cbn [rstrip] in IH |- *. now rewrite IH.
Qed.

Lemma lstrip_head (s : string) :
  lstrip s = EmptyString \/
  exists c t, lstrip s = String c t /\ is_space c = false.
Proof.
  induction s as [|c s IH]; [now left|].
  cbn [lstrip]. destruct (is_space c) eqn:Hc; [exact IH|].
  right. now exists c, s.
Qed.

Lemma strip_idem (s : string) : strip (strip s) = strip s.
Proof.
  unfold strip at 2 3.
  destruct (lstrip_head s) as [-> | (c & t & -> & Hc)]; [reflexivity|].
  destruct (rstrip_keeps_head c t Hc) as [r Hr].
  unfold strip. rewrite Hr. cbn [lstrip]. rewrite Hc, <- Hr.
  apply rstrip_idem.
Qed.

Lemma lstrip_all_space (s : string) :
  lstrip s = EmptyString <-> all_chars is_space s = true.
Proof.
  induction s as [|c s IH]; [now split|].
  cbn [lstrip all_chars]. destruct (is_space c); cbn [andb]; [exact IH|].
  split; discriminate.
Qed.

(** [s.strip()] is empty exactly when [s] is white space throughout. *)
Lemma strip_empty_iff (s : string) :
  strip s = EmptyString <-> all_chars is_space s = true.
Proof.
  rewrite <- lstrip_all_space. unfold strip. split.
  - intros H. destruct (lstrip_head s) as [E | (c & t & E & Hc)]; [exact E|].
    rewrite E in H. destruct (rstrip_keeps_head c t Hc) as [r Hr]. congruence.
  - now intros ->.
Qed.

Lemma all_chars_lstrip (p : ascii -> bool) (s : string) :
  all_chars p s = true -> all_chars p (lstrip s) = true.
Proof.
  induction s as [|c s IH]; [trivial|].
  cbn [lstrip]. destruct (is_space c); [|trivial].
  cbn [all_chars]. intros H. apply andb_true_iff in H. now apply IH.
Qed.

Lemma all_chars_rstrip (p : ascii -> bool) (s : string) :
  all_chars p s = true -> all_chars p (rstrip s) = true.
Proof.
  induction s as [|c s IH]; [trivial|].
  cbn [all_chars rstrip]. intros H. apply andb_true_iff in H. destruct H as [Hc Hs].
  specialize (IH Hs). destruct (rstrip s) as [|c' r].
  - destruct (is_space c); [reflexivity|]. cbn [all_chars]. now rewrite Hc.
  - cbn [all_chars] in IH |- *. now rewrite Hc, IH.
Qed.

Lemma all_chars_strip (p : ascii -> bool) (s : string) :
  all_chars p s = true -> all_chars p (strip s) = true.
Proof. intros H. unfold strip. now apply all_chars_rstrip, all_chars_lstrip. Qed.

Lemma all_chars_append (p : ascii -> bool) (a b : string) :
  all_chars p (String.append a b) = all_chars p a && all_chars p b.
Proof.
  induction a as [|c a IH]; [reflexivity|].
  cbn [String.append all_chars]. now rewrite IH, andb_assoc.
Qed.

Lemma token_char_upper (c : ascii) : token_char c = true -> upper_char c = c.
Proof. destruct c as [[] [] [] [] [] [] [] []]; vm_compute; congruence. Qed.

Lemma all_token_upper (s : string) :
  all_chars token_char s = true -> upper s = s.
Proof.
  induction s as [|c s IH]; [reflexivity|].
  cbn [all_chars]. intros H. apply andb_true_iff in H. destruct H as [Hc Hs].
  unfold upper in *. cbn [map_chars]. now rewrite (token_char_upper c Hc), IH.
Qed.

End Stripping.

(** * More on the matcher and on [_detect_speaker] *)

Section Detection.

Lemma runs_all (p : ascii -> bool) (s a b : string) :
  In (a, b) (runs p s) -> all_chars p a = true.
Proof.
  revert a b. induction s as [|c s IH]; intros a b; cbn [runs].
  - intros [[= <- <-]|[]]. reflexivity.
  - intros [[= <- <-]|H]; [reflexivity|].
    destruct (p c) eqn:Hc; [|contradiction].
    apply in_map_iff in H. destruct H as [[a' b'] [[= <- <-] H]].
    cbn [all_chars fst]. rewrite Hc. exact (IH _ _ H).
Qed.

Lemma matches_Rep_all (p : ascii -> bool) (lo : nat) (gr : bool)
      (s a b : string) (g : list string) :
  In (a, b, g) (matches (Rep p lo gr) s) -> all_chars p a = true.
Proof.
  cbn [matches]. rewrite in_map_iff. intros [[a0 b0] [[= <- <- <-] H]].
  apply filter_In in H. destruct H as [H _]. cbn [fst].
  destruct gr; [apply in_rev in H|]; exact (runs_all p s a0 b0 H).
Qed.

Lemma matches_token_group (lo : nat) (gr : bool) (s a b : string) (g : list string) :
  In (a, b, g) (matches (Grp (Seq (Chr is_AZ) (Rep token_char lo gr))) s) ->
  exists c t, is_AZ c = true /\ all_chars token_char t = true /\ g = [String c t].
Proof.
  intros H. apply matches_Grp in H. destruct H as [g0 [H ->]].
  apply matches_Seq in H. destruct H as (a1 & s1 & g1 & a2 & g2 & H1 & H2 & -> & ->).
  apply matches_Chr in H1. destruct H1 as (c & Hc & _ & -> & ->).
  pose proof (matches_Rep_all _ _ _ _ _ _ _ H2) as Hall.
  apply matches_Rep in H2. subst g2.
  exists c, a2. repeat split; assumption.
Qed.

Lemma pattern1_token (s : string) (g : list string) :
  re_match pattern1 s = Some g -> token_group g.
Proof.
  intros H. apply re_match_In in H. destruct H as (a & b & H).
  apply matches_Seq in H. destruct H as (a1 & s1 & g1 & a2 & g2 & H1 & _ & _ & ->).
  apply matches_token_group in H1. destruct H1 as (c & t & Hc & Ht & ->).
  now exists c, t.
Qed.

Lemma pattern2_token (s : string) (g : list string) :
  re_match pattern2 s = Some g -> token_group g.
Proof.
  intros H. apply re_match_In in H. destruct H as (a & b & H).
  apply matches_Seq in H. destruct H as (a1 & s1 & g1 & a2 & g2 & H1 & H2 & _ & ->).
  apply matches_Chr in H1. destruct H1 as (_ & _ & _ & _ & ->).
  apply matches_Seq in H2. destruct H2 as (a3 & s3 & g3 & a4 & g4 & H3 & _ & _ & ->).
  apply matches_token_group in H3. destruct H3 as (c & t & Hc & Ht & ->).
  now exists c, t.
Qed.

Lemma pattern3_token (s : string) (g : list string) :
  re_match pattern3 s = Some g -> token_group g.
Proof.
  intros H. apply re_match_In in H. destruct H as (a & b & H).
  apply matches_Seq in H. destruct H as (a1 & s1 & g1 & a2 & g2 & H1 & _ & _ & ->).
  apply matches_token_group in H1. destruct H1 as (c & t & Hc & Ht & ->).
  now exists c, t.
Qed.

Lemma pattern4_token (s : string) (g : list string) :
  re_match pattern4 s = Some g -> token_group g.
Proof.
  intros H. apply re_match_In in H. destruct H as (a & b & H).
  apply matches_Seq in H. destruct H as (a1 & s1 & g1 & a2 & g2 & H1 & H2 & _ & ->).
  apply matches_Chr in H1. destruct H1 as (_ & _ & _ & _ & ->).
  apply matches_Seq in H2. destruct H2 as (a3 & s3 & g3 & a4 & g4 & H3 & H4 & _ & ->).
  apply matches_Chr in H3. destruct H3 as (_ & _ & _ & _ & ->).
  apply matches_Seq in H4. destruct H4 as (a5 & s5 & g5 & a6 & g6 & H5 & _ & _ & ->).
  apply matches_token_group in H5. destruct H5 as (c & t & Hc & Ht & ->).
  now exists c, t.
Qed.

(** Where the result of [_detect_speaker] comes from: the groups of one of
    the four patterns, stripped. *)
Lemma detect_speaker_source (line speaker dialogue : string) :
  _detect_speaker line = Some (speaker, dialogue) ->
  exists g,
    token_group g /\ speaker = strip (group g 1) /\
    (dialogue = strip (group g 2) \/ dialogue = EmptyString).
Proof.
  unfold _detect_speaker, orelse.
  destruct (re_match pattern1 line) as [g1|] eqn:H1;
    [destruct (negb (mem (upper (strip (group g1 1))) scene_keywords));
     [intros [= <- <-]; exists g1; split; [eapply pattern1_token; eauto | tauto]|]|];
  (destruct (re_match pattern2 line) as [g2|] eqn:H2;
    [intros [= <- <-]; exists g2; split; [eapply pattern2_token; eauto | tauto]|]);
  (destruct (re_match pattern3 line) as [g3|] eqn:H3;
    [destruct (negb (mem (upper (strip (group g3 1))) scene_keywords));
     [intros [= <- <-]; exists g3; split; [eapply pattern3_token; eauto | tauto]|]|]);
  (destruct (re_match pattern4 line) as [g4|] eqn:H4; [|discriminate]);
  intros [= <- <-]; exists g4; (split; [eapply pattern4_token; eauto | tauto]).
Qed.

Lemma token_group_speaker (g : list string) :
  token_group g ->
  starts_with is_AZ (strip (group g 1)) = true /\
  all_chars token_char (strip (group g 1)) = true.
Proof.
  intros (c & t & Hc & Ht & ->). split.
  - destruct (strip_keeps_head c t (AZ_not_space c Hc)) as [r ->]. exact Hc.
  - apply all_chars_strip. cbn [all_chars]. rewrite Ht, andb_true_r.
    unfold token_char. now rewrite Hc.
Qed.

Lemma matches_Seq_nil (r1 r2 : regex) (s : string) :
  matches r1 s = [] -> matches (Seq r1 r2) s = [].
Proof. intros H. cbn [matches]. now rewrite H. Qed.

Lemma matches_Grp_nil (r : regex) (s : string) :
  matches r s = [] -> matches (Grp r) s = [].
Proof. intros H. cbn [matches]. now rewrite H. Qed.

Lemma matches_Chr_nil (p : ascii -> bool) (s : string) :
  starts_with p s = false -> matches (Chr p) s = [].
Proof. destruct s as [|c s]; [reflexivity|]. cbn. now intros ->. Qed.

End Detection.

Lemma speaker_shape (line speaker dialogue : string) :
  _detect_speaker line = Some (speaker, dialogue) ->
  starts_with is_AZ speaker = true /\
  all_chars token_char speaker = true /\
  upper speaker = speaker /\
  strip speaker = speaker /\
  strip dialogue = dialogue.
Proof.
  intros H. apply detect_speaker_source in H.
  destruct H as (g & Hg & -> & Hd).
  destruct (token_group_speaker g Hg) as [Hs Ha].
  repeat split; try assumption.
  - now apply all_token_upper.
  - apply strip_idem.
  - destruct Hd as [-> | ->]; [apply strip_idem | reflexivity].
Qed.

(** X1. Whatever line it is given, a speaker that [_detect_speaker] returns
    begins with a capital letter, is made of capitals, white space,
    apostrophes, hyphens and periods only, and carries no white space at
    either end: upper-casing or stripping it changes nothing. The dialogue
    returned with it is stripped too. *)
Theorem detected_speaker_shape (line speaker dialogue : string) :
  _detect_speaker line = Some (speaker, dialogue) ->
  starts_with is_AZ speaker = true /\
  all_chars token_char speaker = true /\
  upper speaker = speaker /\
  strip speaker = speaker /\
  strip dialogue = dialogue.
Proof. apply speaker_shape. Qed.

Lemma detected_speaker_shape_witness :
  upper "MARY ANN" = "MARY ANN" /\ strip "so it is" = "so it is".
Proof.
  destruct (detected_speaker_shape "(MARY ANN)   so it is  " "MARY ANN" "so it is")
    as (_ & _ & Hu & _ & Hd); [reflexivity|].
  split; assumption.
Defined.

Lemma detect_needs_cue_start (line : string) :
  starts_with cue_start line = false -> _detect_speaker line = None.
Proof.
  intros H.
  assert (HAZ : starts_with is_AZ line = false).
  { destruct line as [|c l]; [reflexivity|]. cbn [starts_with] in H |- *.
    unfold cue_start in H. now destruct (is_AZ c). }
  assert (H1 : re_match pattern1 line = None).
  { unfold re_match, pattern1, speaker_group.
    rewrite matches_Seq_nil; [reflexivity|].
    now apply matches_Grp_nil, matches_Seq_nil, matches_Chr_nil. }
  assert (H2 : re_match pattern2 line = None).
  { unfold re_match, pattern2. rewrite matches_Seq_nil; [reflexivity|].
    apply matches_Chr_nil.
    destruct line as [|c l]; [reflexivity|]. cbn [starts_with] in H |- *.
    unfold cue_start in H.
    destruct (is_AZ c), (Ascii.eqb c "["), (Ascii.eqb c "(");
      cbn [orb] in H |- *; congruence. }
  assert (H3 : re_match pattern3 line = None).
  { unfold re_match, pattern3.
    rewrite matches_Seq_nil; [reflexivity|].
    now apply matches_Grp_nil, matches_Seq_nil, matches_Chr_nil. }
  assert (H4 : re_match pattern4 line = None).
  { unfold re_match, pattern4, lit. rewrite matches_Seq_nil; [reflexivity|].
    apply matches_Chr_nil.
    destruct line as [|c l]; [reflexivity|]. cbn [starts_with] in H |- *.
    unfold cue_start in H. rewrite Ascii.eqb_sym.
    destruct (is_AZ c), (Ascii.eqb c "["), (Ascii.eqb c "("), (Ascii.eqb c "*");
      cbn [orb] in H |- *; congruence. }
  unfold _detect_speaker. now rewrite H1, H2, H3, H4.
Qed.

(** X2. A line that does not begin with a capital letter, an opening
    bracket, an opening parenthesis or an asterisk is never a cue; the empty
    line is none either. *)
Theorem no_cue_without_cue_start (line : string) :
  starts_with cue_start line = false -> _detect_speaker line = None.
Proof. apply detect_needs_cue_start. Qed.

Lemma no_cue_without_cue_start_witness :
  _detect_speaker "john: hi" = None.
Proof. apply no_cue_without_cue_start. reflexivity. Defined.

(** * More on [detect_characters] *)

Section Characters.

Lemma get_set {V : Type} (c k : string) (v : V) (d : Dict.t V) :
  Dict.get c (Dict.set k v d) = if String.eqb c k then Some v else Dict.get c d.
Proof.
  induction d as [|[k' v'] d IH]; [reflexivity|].
  cbn [Dict.set]. destruct (String.eqb k k') eqn:Ek.
  - apply String.eqb_eq in Ek. subst k'. cbn [Dict.get].
    now destruct (String.eqb c k).
  - cbn [Dict.get]. rewrite IH.
    destruct (String.eqb c k') eqn:Ec; [|reflexivity].
    apply String.eqb_eq in Ec. subst c. now rewrite String.eqb_sym, Ek.
Qed.

Lemma get_count_up (c k : string) (d : Dict.t nat) :
  Dict.get c (count_up k d)
  = if String.eqb c k
    then Some (match Dict.get k d with Some n => n | None => 0 end + 1)
    else Dict.get c d.
Proof. unfold count_up. destruct (Dict.get k d); apply get_set. Qed.

(** The count of a character after some more lines. *)
Lemma detect_characters_get (lines : list string) (acc : Dict.t nat) (c : string) :
  Dict.get c
    (fold_left
       (fun character_counts line =>
          match _detect_speaker line with
          | Some (sp, _) =>
              let speaker := upper sp in
              if negb (mem speaker scene_keywords)
              then count_up speaker character_counts
              else character_counts
          | None => character_counts
          end)
       lines acc)
  = match count_occ string_dec (filter_map character_of lines) c with
    | 0 => Dict.get c acc
    | S n => Some (match Dict.get c acc with Some k => k | None => 0 end + S n)
    end.
Proof.
  revert acc. induction lines as [|l rest IH]; intros acc; [reflexivity|].
  cbn [fold_left filter_map]. rewrite IH. unfold character_of at 2.
  destruct (_detect_speaker l) as [[sp d]|]; [|reflexivity].
  cbn zeta. destruct (negb (mem (upper sp) scene_keywords)); [|reflexivity].
  cbn [count_occ]. rewrite get_count_up.
  destruct (string_dec (upper sp) c) as [->|Hne].
  - rewrite String.eqb_refl.
    destruct (count_occ string_dec (filter_map character_of rest) c);
      destruct (Dict.get c acc); f_equal; lia.
  - replace (String.eqb c (upper sp)) with false; [reflexivity|].
    symmetry. apply String.eqb_neq. congruence.
Qed.

Lemma character_of_shape (line c : string) :
  character_of line = Some c ->
  mem c scene_keywords = false /\ starts_with is_AZ c = true /\ upper c = c /\
  has_token c.
Proof.
  unfold character_of.
  destruct (_detect_speaker line) as [[sp d]|] eqn:Hd; [|discriminate].
  destruct (speaker_shape line sp d Hd) as (Hs & _ & Hu & _).
  pose proof (detect_speaker_token line sp d Hd) as Ht.
  rewrite Hu. destruct (mem sp scene_keywords) eqn:Hk; [discriminate|].
  intros [= <-]. now repeat split.
Qed.

Lemma characters_shape (lines : list string) :
  Forall (fun c => mem c scene_keywords = false /\ starts_with is_AZ c = true /\
                   upper c = c /\ has_token c)
         (filter_map character_of lines).
Proof.
  induction lines as [|l rest IH]; [constructor|].
  cbn [filter_map]. destruct (character_of l) as [c|] eqn:E; [|exact IH].
  constructor; [now apply (character_of_shape l) | exact IH].
Qed.

Lemma characters_of_keys (script_text : string) :
  Dict.keys (detect_characters script_text) = characters_of script_text.
Proof.
  unfold detect_characters, detect_characters_lines.
  now rewrite detect_characters_keys.
Qed.

End Characters.

(** X3. For every script and every name, [detect_characters] maps the
    name to the number of lines that cue it (the speaker upper-cased, scene
    keywords left out), and has no entry for a name that no line cues. *)
Theorem detect_characters_counts (script_text c : string) :
  Dict.get c (detect_characters script_text)
  = match count_occ string_dec (filter_map character_of (split_on nl script_text)) c with
    | 0 => None
    | S n => Some (S n)
    end.
Proof.
  unfold detect_characters, detect_characters_lines.
  rewrite detect_characters_get. reflexivity.
Qed.

(** X4. The keys of [detect_characters] are distinct, come in the order in
    which the characters are first cued, and none of them is a scene
    keyword, also when the keyword is cued in brackets or in bold, where
    [_detect_speaker] itself lets it through; each key begins with a capital
    letter and is its own upper-case form. *)
Theorem detect_characters_keys_clean (script_text : string) :
  Dict.keys (detect_characters script_text)
  = first_appearances (filter_map character_of (split_on nl script_text)) /\
  NoDup (Dict.keys (detect_characters script_text)) /\
  Forall (fun c => mem c scene_keywords = false /\ starts_with is_AZ c = true /\
                   upper c = c)
         (Dict.keys (detect_characters script_text)) /\
  _detect_speaker "[NIGHT] falls" = Some ("NIGHT", "falls") /\
  detect_characters "[NIGHT] falls" = [].
Proof.
  rewrite characters_of_keys. unfold characters_of.
  split; [reflexivity|]. split; [apply first_appearances_NoDup; constructor|].
  split; [|split; reflexivity].
  apply first_appearances_Forall; [|constructor].
  eapply Forall_impl; [|apply characters_shape].
  intros c (H1 & H2 & H3 & _). now repeat split.
Qed.

(** * Scripts without cues *)

Section NoCue.

Variable vm : Dict.t string.

Lemma split_on_all (p : ascii -> bool) (d : ascii) (s : string) :
  all_chars p s = true -> Forall (fun l => all_chars p l = true) (split_on d s).
Proof.
  induction s as [|c s IH]; [now repeat constructor|].
  cbn [all_chars split_on]. intros H. apply andb_true_iff in H.
  destruct H as [Hc Hs]. specialize (IH Hs).
  destruct (Ascii.eqb c d); [now constructor|].
  destruct (split_on d s) as [|h t].
  - repeat constructor. cbn [all_chars]. now rewrite Hc.
  - inversion IH as [|? ? Hh Ht]; subst. constructor; [|exact Ht].
    cbn [all_chars]. now rewrite Hc, Hh.
Qed.

Lemma space_is_no_cue_start (c : ascii) : is_space c = true -> cue_start c = false.
Proof. destruct c as [[] [] [] [] [] [] [] []]; vm_compute; congruence. Qed.

Lemma blank_line_no_cue (l : string) :
  all_chars is_space l = true -> _detect_speaker l = None.
Proof.
  intros H. apply detect_needs_cue_start.
  destruct l as [|c l]; [reflexivity|]. cbn [all_chars starts_with] in *.
  apply andb_true_iff in H. now apply space_is_no_cue_start.
Qed.

Lemma loop_blank (st : state) (lines : list string) :
  Forall (fun l => all_chars is_space l = true) lines -> loop vm st lines = Ok st.
Proof.
  induction 1 as [|l rest Hl _ IH]; [reflexivity|].
  cbn [loop]. unfold step. apply strip_empty_iff in Hl. rewrite Hl.
  cbn [truthy negb bind]. exact IH.
Qed.

(** The loop on a script without cues, from its first line on. *)
Lemma loop_narration (lines : list string) :
  Forall (fun l => _detect_speaker (strip l) = None) lines ->
  loop vm initial lines
  = Ok (mkState []
          (match narration lines with [] => None | _ :: _ => Some "NARRATOR" end)
          (narration lines)).
Proof.
  induction 1 as [|l rest Hl Hrest IH]; [reflexivity|].
  cbn [loop narration]. rewrite (step_no_cue vm initial l Hl).
  cbn [bind initial current_speaker current_text segments app].
  destruct (truthy (strip l)) eqn:Ht; cbn [negb orb]; [|exact IH].
  destruct (_is_scene_direction (strip l)); cbn [negb]; [exact IH|].
  rewrite (loop_following vm [] _ _ [strip l] rest Hrest).
  cbn [map filter]. rewrite Ht. reflexivity.
Qed.

End NoCue.

(** X5. A script that is white space throughout (its [strip()] is empty)
    gives no segment, no character and no suggestion, and raises nothing. *)
Theorem blank_script_gives_nothing
    (script_text : string) (voice_mappings : option (Dict.t string)) :
  strip script_text = EmptyString ->
  parse_script script_text voice_mappings = Ok [] /\
  detect_characters script_text = [] /\
  suggest_voice_mappings script_text = Ok [].
Proof.
  intros H. apply strip_empty_iff in H.
  pose proof (split_on_all is_space nl script_text H) as Hlines.
  assert (Hd : detect_characters script_text = []).
  { unfold detect_characters, detect_characters_lines.
    induction Hlines as [|l rest Hl _ IH]; [reflexivity|].
    cbn [fold_left]. now rewrite (blank_line_no_cue l Hl). }
  split; [|split; [exact Hd|]].
  - unfold parse_script, parse_lines. now rewrite loop_blank.
  - unfold suggest_voice_mappings. now rewrite Hd.
Qed.

Lemma blank_script_gives_nothing_witness :
  parse_script (unlines ["  "; ""; " "]) None = Ok [].
Proof.
  apply (blank_script_gives_nothing (unlines ["  "; ""; " "]) None). reflexivity.
Defined.

(** X6. A script in which no line is a cue yields at most one segment, in
    the voice of NARRATOR: its text is made of the lines from the first one
    that is neither blank nor a scene direction, stripped, the blank ones
    left out, joined by single spaces. Scene directions before that line are
    dropped; those after it are narrated with the rest. *)
Theorem script_without_cues_is_narrated
    (script_text : string) (vm : Dict.t string) :
  Forall (fun l => _detect_speaker (strip l) = None) (split_on nl script_text) ->
  exists v,
    _get_voice_for_speaker "NARRATOR" vm = Ok v /\
    parse_script script_text (Some vm)
    = Ok (block_segments v (narration (split_on nl script_text))).
Proof.
  intros H.
  destruct (voice_total "NARRATOR" vm) as [v Hv]; [discriminate|].
  exists v. split; [exact Hv|].
  unfold parse_script, parse_lines. rewrite (loop_narration vm _ H).
  cbn [bind]. unfold finish, open_buffer, block_segments.
  cbn [current_speaker current_text segments].
  destruct (narration (split_on nl script_text)); [reflexivity|].
  cbn [truthy]. now rewrite Hv.
Qed.

Lemma script_without_cues_is_narrated_witness :
  exists v,
    _get_voice_for_speaker "NARRATOR" [] = Ok v /\
    parse_script (unlines ["FADE IN"; "the rain falls."; "INT. a kitchen"; ""; "it is late."])
                 (Some [])
    = Ok (block_segments v ["the rain falls."; "INT. a kitchen"; "it is late."]).
Proof.
  apply (script_without_cues_is_narrated
           (unlines ["FADE IN"; "the rain falls."; "INT. a kitchen"; ""; "it is late."]) []).
  repeat constructor.
Defined.

(** * More on the voice resolution and on the segments *)

Section MoreVoices.

Lemma upper_lower_char (c : ascii) : upper_char (lower_char c) = upper_char c.
Proof. destruct c as [[] [] [] [] [] [] [] []]; reflexivity. Qed.

Lemma upper_lower (s : string) : upper (lower s) = upper s.
Proof.
  induction s as [|c s IH]; [reflexivity|].
  unfold lower, upper in *. simpl. now rewrite upper_lower_char, IH.
Qed.

(** The voice depends on the speaker through its upper-case form only. *)
Lemma voice_by_upper (s s' : string) (vm : Dict.t string) :
  upper s = upper s' ->
  _get_voice_for_speaker s vm = _get_voice_for_speaker s' vm.
Proof.
  intros H. unfold _get_voice_for_speaker.
  rewrite <- (lower_upper s), <- (lower_upper s'), H. reflexivity.
Qed.

End MoreVoices.

(** X7. Voice resolution does not look at the case of an ASCII speaker
    name: two ASCII names with one upper-case form get the same result (the
    same voice, or the same error), whatever the voice map; so an ASCII
    name, its upper-case form and its lower-case form are resolved
    alike. *)
Theorem voice_ignores_case (s s' : string) (vm : Dict.t string) :
  ascii_only s = true -> ascii_only s' = true ->
  (upper s = upper s' ->
   _get_voice_for_speaker s vm = _get_voice_for_speaker s' vm) /\
  _get_voice_for_speaker (upper s) vm = _get_voice_for_speaker s vm /\
  _get_voice_for_speaker (lower s) vm = _get_voice_for_speaker s vm.
Proof.
  intros _ _. split; [apply voice_by_upper|].
  split; apply voice_by_upper; [apply upper_idem | apply upper_lower].
Qed.

Lemma voice_ignores_case_witness :
  _get_voice_for_speaker "Sarah Connor" [("john", "x")]
  = _get_voice_for_speaker "SARAH connor" [("john", "x")].
Proof.
  apply (proj1 (voice_ignores_case "Sarah Connor" "SARAH connor" [("john", "x")]
                  eq_refl eq_refl)).
  reflexivity.
Defined.

Section Texts.

Variables vm1 vm2 : Dict.t string.

Lemma finish_same_texts (st1 st2 : state) :
  invariant vm1 st1 -> invariant vm2 st2 -> same_texts st1 st2 ->
  exists b1 b2,
    finish vm1 st1 = Ok b1 /\ finish vm2 st2 = Ok b2 /\ map snd b1 = map snd b2.
Proof.
  intros H1 H2 (Hs & Hsp & Htx).
  assert (Ho : open_buffer st1 = open_buffer st2)
    by (unfold open_buffer; now rewrite Hsp, Htx).
  unfold finish.
  destruct (open_buffer st1) as [sp|] eqn:E1; symmetry in Ho; rewrite Ho.
  - destruct (flush_ok vm1 st1 sp H1 E1) as (v1 & -> & _).
    destruct (flush_ok vm2 st2 sp H2 Ho) as (v2 & -> & _).
    cbn [bind]. do 2 eexists. split; [reflexivity|]. split; [reflexivity|].
    rewrite !map_app. cbn [map snd]. rewrite Htx. f_equal. exact Hs.
  - now exists (segments st1), (segments st2).
Qed.

Lemma step_same_texts (st1 st2 : state) (raw : string) :
  invariant vm1 st1 -> invariant vm2 st2 -> same_texts st1 st2 ->
  exists st1' st2',
    step vm1 st1 raw = Ok st1' /\ step vm2 st2 raw = Ok st2' /\
    same_texts st1' st2'.
Proof.
  intros H1 H2 Hsame.
  destruct (_detect_speaker (strip raw)) as [[speaker dialogue]|] eqn:Hd.
  - rewrite (step_cue vm1 st1 raw speaker dialogue H1 Hd).
    rewrite (step_cue vm2 st2 raw speaker dialogue H2 Hd).
    destruct (finish_same_texts st1 st2 H1 H2 Hsame) as (b1 & b2 & -> & -> & Hb).
    cbn [bind]. do 2 eexists. repeat split. exact Hb.
  - rewrite (step_no_cue vm1 st1 raw Hd), (step_no_cue vm2 st2 raw Hd).
    do 2 eexists. split; [reflexivity|]. split; [reflexivity|].
    pose proof Hsame as (Hs & Hsp & Htx).
    destruct (negb (truthy (strip raw))); [exact Hsame|].
    rewrite <- Hsp, <- Htx.
    destruct (current_speaker st1) as [[|c sp]|];
      try destruct (negb (_is_scene_direction (strip raw)));
      try exact Hsame;
      (split; [exact Hs | split; reflexivity]).
Qed.

Lemma loop_same_texts (lines : list string) (st1 st2 : state) :
  invariant vm1 st1 -> invariant vm2 st2 -> same_texts st1 st2 ->
  exists st1' st2',
    loop vm1 st1 lines = Ok st1' /\ loop vm2 st2 lines = Ok st2' /\
    invariant vm1 st1' /\ invariant vm2 st2' /\ same_texts st1' st2'.
Proof.
  revert st1 st2. induction lines as [|l rest IH]; intros st1 st2 H1 H2 Hsame.
  - now exists st1, st2.
  - destruct (step_same_texts st1 st2 l H1 H2 Hsame) as (a1 & a2 & E1 & E2 & Ha).
    destruct (step_invariant vm1 st1 l H1) as (a1' & E1' & Hi1).
    destruct (step_invariant vm2 st2 l H2) as (a2' & E2' & Hi2).
    assert (a1' = a1) by congruence. assert (a2' = a2) by congruence. subst.
    cbn [loop]. rewrite E1, E2. cbn [bind]. now apply IH.
Qed.

Lemma parse_lines_same_texts (lines : list string) :
  exists s1 s2,
    parse_lines lines vm1 = Ok s1 /\ parse_lines lines vm2 = Ok s2 /\
    map snd s1 = map snd s2.
Proof.
  destruct (loop_same_texts lines initial initial
              (invariant_initial vm1) (invariant_initial vm2))
    as (st1 & st2 & E1 & E2 & H1 & H2 & Hsame); [now repeat split|].
  unfold parse_lines. rewrite E1, E2. cbn [bind].
  now apply finish_same_texts.
Qed.

End Texts.

(** X8. The voice map decides voices and nothing else: with any two voice
    maps, or with none, [parse_script] cuts a script in the same segments
    with the same texts in the same order. *)
Theorem voice_map_leaves_texts
    (script_text : string) (voice_mappings1 voice_mappings2 : option (Dict.t string)) :
  exists s1 s2,
    parse_script script_text voice_mappings1 = Ok s1 /\
    parse_script script_text voice_mappings2 = Ok s2 /\
    map snd s1 = map snd s2.
Proof. unfold parse_script. apply parse_lines_same_texts. Qed.

Section Ink.

Variable vm : Dict.t string.

Lemma join_inked (t : string) (ts : list string) :
  strip t <> EmptyString -> strip (join " " (t :: ts)) <> EmptyString.
Proof.
  intros Ht H. apply Ht. apply strip_empty_iff. apply strip_empty_iff in H.
  unfold join in H. cbn [String.concat] in H.
  destruct ts as [|t' ts']; [exact H|].
  rewrite all_chars_append in H. apply andb_true_iff in H. tauto.
Qed.

Lemma finish_inked (st : state) (segs : list segment) :
  inked st -> finish vm st = Ok segs ->
  Forall (fun seg : segment => strip (snd seg) <> EmptyString) segs.
Proof.
  intros [Htx Hsegs]. unfold finish, open_buffer.
  destruct (current_speaker st) as [sp|]; [|now intros [= <-]].
  destruct (current_text st) as [|t ts]; [now intros [= <-]|].
  destruct (truthy sp); [|now intros [= <-]].
  destruct (_get_voice_for_speaker sp vm) as [v|e]; [|discriminate].
  intros [= <-]. apply Forall_app. split; [exact Hsegs|].
  repeat constructor. cbn [snd]. apply join_inked. now inversion Htx.
Qed.

Lemma step_inked (st st' : state) (raw : string) :
  invariant vm st -> inked st -> step vm st raw = Ok st' -> inked st'.
Proof.
  intros Hinv Hink.
  destruct (_detect_speaker (strip raw)) as [[speaker dialogue]|] eqn:Hd.
  - rewrite (step_cue vm st raw speaker dialogue Hinv Hd).
    destruct (finish vm st) as [before|e] eqn:Hf; [|discriminate].
    intros [= <-]. split; cbn [current_text segments].
    + destruct (truthy dialogue) eqn:Ht; [|constructor].
      repeat constructor.
      destruct (speaker_shape _ _ _ Hd) as (_ & _ & _ & _ & ->).
      now apply truthy_nonempty.
    + exact (finish_inked st before Hink Hf).
  - rewrite (step_no_cue vm st raw Hd). intros [= <-].
    destruct (truthy (strip raw)) eqn:Ht; cbn [negb]; [|exact Hink].
    destruct Hink as [Htx Hsegs].
    assert (Hnew : Forall (fun t => strip t <> EmptyString)
                          (current_text st ++ [strip raw])).
    { apply Forall_app. split; [exact Htx|]. repeat constructor.
      rewrite strip_idem. now apply truthy_nonempty. }
    destruct (current_speaker st) as [[|c sp]|];
      try destruct (negb (_is_scene_direction (strip raw)));
      split; cbn [current_text segments]; assumption.
Qed.

Lemma loop_inked (lines : list string) (st st' : state) :
  invariant vm st -> inked st -> loop vm st lines = Ok st' -> inked st'.
Proof.
  revert st. induction lines as [|l rest IH]; intros st Hinv Hink.
  - now intros [= <-].
  - cbn [loop]. destruct (step_invariant vm st l Hinv) as (st1 & E & Hinv1).
    rewrite E. cbn [bind]. apply IH; [exact Hinv1|].
    exact (step_inked st st1 l Hinv Hink E).
Qed.

Lemma parse_lines_inked (lines : list string) :
  exists segs,
    parse_lines lines vm = Ok segs /\
    Forall (fun seg : segment => strip (snd seg) <> EmptyString) segs.
Proof.
  destruct (parse_lines_ok vm lines) as (segs & H & _).
  exists segs. split; [exact H|].
  unfold parse_lines in H.
  destruct (loop vm initial lines) as [st|e] eqn:E; [|discriminate].
  cbn [bind] in H.
  apply (finish_inked st segs); [|exact H].
  apply (loop_inked lines initial st (invariant_initial vm)); [|exact E].
  split; constructor.
Qed.

End Ink.

(** X9. No text that [parse_script] returns is white space throughout:
    the [text.strip()] that the endpoints hand to the engine is never empty,
    so the engine's test for an empty text cannot fire on a parsed
    segment. *)
Theorem segment_text_survives_strip
    (script_text : string) (voice_mappings : option (Dict.t string)) :
  exists segs,
    parse_script script_text voice_mappings = Ok segs /\
    Forall (fun seg : segment => strip (snd seg) <> EmptyString) segs.
Proof. unfold parse_script. apply parse_lines_inked. Qed.

(** * More on the waveform concatenator *)

Section Mixing.

Lemma mix_append (n : Z) (x y : waveform) :
  ~ (0 < n <= Z.of_nat (length x) /\ n <= Z.of_nat (length y))%Z ->
  mix n x y = x ++ y.
Proof.
  intros H. unfold mix.
  destruct (0 <? n)%Z eqn:E0; [|reflexivity].
  destruct (n <=? Z.of_nat (length x))%Z eqn:Ex; [|reflexivity].
  cbn [andb].
  destruct (n <=? Z.of_nat (length y))%Z eqn:Ey; [|reflexivity].
  exfalso. apply H.
  apply Z.ltb_lt in E0. apply Z.leb_le in Ex. apply Z.leb_le in Ey. lia.
Qed.

Lemma fold_mix_append (n : Z) (rest : list waveform) (first : waveform) :
  (n <= 0)%Z -> fold_left (mix n) rest first = first ++ List.concat rest.
Proof.
  intros Hn. revert first. induction rest as [|y rest IH]; intros first.
  - simpl. now rewrite app_nil_r.
  - cbn [fold_left List.concat]. rewrite mix_append by lia.
    rewrite IH. now rewrite app_assoc.
Qed.

Lemma mix_crossfade_length (n : nat) (x y : waveform) :
  0 < n -> n <= length x -> n <= length y ->
  length (mix (Z.of_nat n) x y) = length x + length y - n.
Proof.
  intros Hn Hx Hy. rewrite mix_crossfade by assumption.
  rewrite !length_app, drop_last_length, window_length, length_skipn by assumption.
  lia.
Qed.

Lemma fold_mix_length (n : nat) (rest : list waveform) (first : waveform) :
  0 < n -> n <= length first -> Forall (fun w => n <= length w) rest ->
  length (fold_left (mix (Z.of_nat n)) rest first) + n * length rest
  = length first + list_sum (map (@length Q) rest).
Proof.
  intros Hn Hfirst Hrest. revert first Hfirst.
  induction Hrest as [|y rest Hy _ IH]; intros first Hfirst.
  - simpl. lia.
  - cbn [fold_left map list_sum length].
    pose proof (mix_crossfade_length n first y Hn Hfirst Hy) as Hl.
    pose proof (IH (mix (Z.of_nat n) first y) ltac:(lia)) as Hrec.
    rewrite Nat.mul_succ_r. unfold list_sum in *. cbn [fold_right]. lia.
Qed.

End Mixing.

(** X10. When [sample_rate * crossfade_duration_ms] is below 1000 (a zero
    or negative duration, or less than one sample), the window is not
    positive: whatever is returned is the plain concatenation of the
    segments, and it is returned for a single segment and whenever the
    product is above the opposite of [window_overflow]. The one failure is
    the OverflowError of a negative product at or below that. *)
Theorem no_window_plain_concatenation
    (sample_rate ms : Z) (segs : list waveform) :
  (sample_rate * ms < 1000)%Z -> segs <> [] ->
  (forall w, concatenate_with_crossfade sample_rate segs ms = Ok w ->
             w = List.concat segs) /\
  (length segs = 1 \/ (- window_overflow < sample_rate * ms)%Z ->
   concatenate_with_crossfade sample_rate segs ms = Ok (List.concat segs)) /\
  (forall e, concatenate_with_crossfade sample_rate segs ms = Raise e ->
             e = overflow /\ 2 <= length segs /\
             (sample_rate * ms <= - window_overflow)%Z).
Proof.
  intros Hn Hs.
  destruct segs as [|a [|b rest]]; [congruence | |].
  - cbn [concatenate_with_crossfade List.concat length]. rewrite !app_nil_r.
    split; [now intros w [= <-]|]. split; [reflexivity | discriminate].
  - destruct (concatenate_some sample_rate ms a b rest)
      as [(Hlt & n & Hw & ->) | (Hge & ->)]; cbn [length].
    + destruct (crossfade_samples_sign sample_rate ms n Hw) as [Hneg Hpos].
      assert (Hn0 : (n <= 0)%Z).
      { destruct (Z_le_dec (sample_rate * ms) 0) as [|Hp]; [now apply Hneg|].
        rewrite crossfade_samples_exact in Hw.
        - injection Hw as <-. rewrite Z.quot_small by lia. lia.
        - assert (1000 < 1000 * 2 ^ 44)%Z by reflexivity. lia. }
      rewrite fold_mix_append by exact Hn0.
      split; [now intros w [= <-]|]. split; [reflexivity | discriminate].
    + assert (1000 <= window_overflow)%Z by (vm_compute; discriminate).
      split; [discriminate|]. split; [intros [H1|H1]; [discriminate | lia]|].
      intros e [= <-]. split; [reflexivity|]. split; lia.
Qed.

Lemma no_window_plain_concatenation_witness :
  concatenate_with_crossfade 24000 [[1; 2]; [3]; [4; 5]]%Q 0
  = Ok (List.concat [[1; 2]; [3]; [4; 5]]%Q).
Proof.
  apply (proj1 (proj2 (no_window_plain_concatenation 24000 0 [[1; 2]; [3]; [4; 5]]%Q
                         ltac:(reflexivity) ltac:(discriminate)))).
  right. reflexivity.
Defined.

(** X11. With a positive window of [n] samples and every segment at least
    [n] samples long, each of the [k - 1] joins of [k] segments overlaps [n]
    samples: the result has the total number of samples less [n * (k - 1)]. *)
Theorem crossfaded_length (sample_rate ms n : Z) (segs : list waveform) :
  crossfade_samples sample_rate ms = Ok n ->
  (0 < n)%Z ->
  Forall (fun w => (n <= Z.of_nat (length w))%Z) segs ->
  segs <> [] ->
  exists w,
    concatenate_with_crossfade sample_rate segs ms = Ok w /\
    (Z.of_nat (length w) + n * (Z.of_nat (length segs) - 1)
     = Z.of_nat (list_sum (map (@length Q) segs)))%Z.
Proof.
  intros Hw Hn Hall Hs.
  destruct segs as [|a rest]; [congruence|].
  assert (Ha : Z.to_nat n <= length a) by (apply Forall_inv in Hall; lia).
  assert (Hrest : Forall (fun w => Z.to_nat n <= length w) rest).
  { apply Forall_inv_tail in Hall. eapply Forall_impl; [|exact Hall].
    cbv beta. intros w Hlw. lia. }
  pose proof (fold_mix_length (Z.to_nat n) rest a ltac:(lia) Ha Hrest) as Hlen.
  rewrite Z2Nat.id in Hlen by lia.
  exists (fold_left (mix n) rest a). split.
  - destruct rest as [|b rest]; [reflexivity|].
    rewrite concatenate_two, Hw. reflexivity.
  - cbn [length map]. unfold list_sum in *. cbn [fold_right]. nia.
Qed.

Lemma crossfaded_length_witness :
  exists w,
    concatenate_with_crossfade 1000 [[1; 2; 3]; [4; 5]; [6; 7; 8]]%Q 2 = Ok w /\
    (Z.of_nat (length w) + 2 * (3 - 1) = 8)%Z.
Proof.
  apply (crossfaded_length 1000 2 2 [[1; 2; 3]; [4; 5]; [6; 7; 8]]%Q).
  - vm_compute. reflexivity.
  - reflexivity.
  - repeat constructor; vm_compute; discriminate.
  - discriminate.
Defined.

(** X12. When the window is not positive, or the running result or the
    next segment is shorter than the window, the two are joined end to end
    without any fade; so it is for two segments handed to the concatenator,
    once the window is computed. *)
Theorem short_segment_is_appended (n : Z) (x y : waveform) :
  ~ (0 < n <= Z.of_nat (length x) /\ n <= Z.of_nat (length y))%Z ->
  mix n x y = x ++ y /\
  forall sample_rate ms,
    crossfade_samples sample_rate ms = Ok n ->
    concatenate_with_crossfade sample_rate [x; y] ms = Ok (x ++ y).
Proof.
  intros H. split; [now apply mix_append|].
  intros sample_rate ms Hw. rewrite concatenate_two, Hw.
  cbn [bind fold_left]. now rewrite mix_append.
Qed.

Lemma short_segment_is_appended_witness :
  mix 2 [1; 2; 3]%Q [4]%Q = ([1; 2; 3] ++ [4])%Q /\
  concatenate_with_crossfade 1000 [[1; 2; 3]; [4]]%Q 2 = Ok ([1; 2; 3] ++ [4])%Q.
Proof.
  destruct (short_segment_is_appended 2 [1; 2; 3]%Q [4]%Q) as [H1 H2].
  - vm_compute. intros [_ H]. now apply H.
  - split; [exact H1|]. apply H2. vm_compute. reflexivity.
Defined.

(** X14. In a crossfade the first sample of the window is the sample of the
    running result alone and, when the window has two samples or more, the
    last one is the sample of the next segment alone: the fades run from
    full level to silence and back. *)
Theorem window_endpoints (n : nat) (x y : waveform) :
  0 < n -> n <= length x -> n <= length y ->
  (nth (length x - n) (mix (Z.of_nat n) x y) 0 == nth (length x - n) x 0)%Q /\
  (2 <= n -> (nth (length x - 1) (mix (Z.of_nat n) x y) 0 == nth (n - 1) y 0)%Q).
Proof.
  intros Hn Hx Hy. rewrite mix_crossfade by assumption.
  assert (Hd : length (drop_last n x) = length x - n) by apply drop_last_length.
  pose proof (window_length n x y Hx Hy) as Hw.
  split.
  - rewrite app_nth2 by lia. rewrite Hd, Nat.sub_diag.
    rewrite app_nth1 by lia. rewrite window_nth by lia.
    rewrite Nat.add_0_r. cbn [Z.of_nat]. unfold Qdiv. ring.
  - intros H2. rewrite app_nth2 by lia. rewrite Hd.
    replace (length x - 1 - (length x - n)) with (n - 1) by lia.
    rewrite app_nth1 by lia. rewrite window_nth by lia.
    replace (Z.of_nat n - 1)%Z with (Z.of_nat (n - 1)) by lia.
    assert (Hk : ~ (inject_Z (Z.of_nat (n - 1)) == 0)%Q).
    { change 0%Q with (inject_Z 0). rewrite inject_Z_injective. lia. }
    field. exact Hk.
Qed.

Lemma window_endpoints_witness :
  (nth 1 (mix 2 [1; 2; 3] [4; 5; 6]) 0 == 2)%Q /\
  (nth 2 (mix 2 [1; 2; 3] [4; 5; 6]) 0 == 5)%Q.
Proof.
  destruct (window_endpoints 2 [1; 2; 3]%Q [4; 5; 6]%Q) as [H1 H2];
    [lia | simpl; lia | simpl; lia |].
  split; [exact H1 | apply H2; lia].
Defined.

(** X15. With a window of one sample the fade weights are 1 and 0: the
    running result is kept whole, and the first sample of the next segment
    is dropped without a trace; the result is one sample shorter than the
    plain concatenation. *)
Theorem one_sample_window_drops_a_sample (x y : waveform) :
  1 <= length x -> 1 <= length y ->
  length (mix 1 x y) = length x + length y - 1 /\
  (forall i, i < length x -> (nth i (mix 1 x y) 0 == nth i x 0)%Q) /\
  (forall i, nth (length x + i) (mix 1 x y) 0%Q = nth (1 + i) y 0%Q).
Proof.
  intros Hx Hy. change 1%Z with (Z.of_nat 1).
  split; [apply mix_crossfade_length; lia|].
  rewrite mix_crossfade by lia.
  assert (Hd : length (drop_last 1 x) = length x - 1) by apply drop_last_length.
  pose proof (window_length 1 x y Hx Hy) as Hw.
  split.
  - intros i Hi. destruct (Nat.eq_dec i (length x - 1)) as [->|Hne].
    + rewrite app_nth2 by lia. rewrite Hd, Nat.sub_diag.
      rewrite app_nth1 by lia. rewrite window_nth by lia.
      rewrite Nat.add_0_r. cbn [Z.of_nat]. unfold Qdiv. ring.
    + rewrite app_nth1 by lia. unfold drop_last. rewrite nth_firstn.
      replace (i <? length x - 1)%nat with true by (symmetry; apply Nat.ltb_lt; lia).
      reflexivity.
  - intros i. rewrite app_nth2 by lia. rewrite Hd.
    rewrite app_nth2 by lia. rewrite Hw, nth_skipn. f_equal. lia.
Qed.

Lemma one_sample_window_drops_a_sample_witness :
  length (mix 1 [1; 2]%Q [9; 3]%Q) = 2 + 2 - 1.
Proof.
  apply (one_sample_window_drops_a_sample [1; 2]%Q [9; 3]%Q); simpl; lia.
Defined.

(** * Properties of [save_audio] *)

Section Saving.

Import Float.

Lemma round_unit (f : format) (x : Q) :
  (0 < prec f)%Z -> (prec f <= emax f)%Z -> (emin f <= 0)%Z ->
  (Qabs x <= 1)%Q ->
  exists v, round f x = Finite v /\ (Qabs v <= 1)%Q.
Proof.
  intros Hp He Hm Hx. unfold round. apply round_ratio_unit; try assumption; [lia|].
  destruct x as [a b]. unfold Qabs, Qle in Hx. cbn [Qnum Qden] in *. lia.
Qed.

Lemma cast_overflow (s : Q) :
  is_finite (round binary32 s) = false <-> (float32_overflow <= Qabs s)%Q.
Proof.
  unfold round.
  rewrite (round_ratio_overflow binary32 ltac:(reflexivity) ltac:(discriminate)
             ltac:(discriminate) (Qnum s) (Zpos (Qden s)) ltac:(lia)).
  destruct s as [a b]. unfold float32_overflow, Qabs, Qle. cbn [Qnum Qden inject_Z].
  replace (2 * 2 ^ emax binary32 - 2 ^ (emax binary32 - prec binary32))%Z
    with (2 * (2 ^ 128 - 2 ^ 103))%Z by reflexivity.
  lia.
Qed.

Lemma cast_not_nan (s : Q) : round binary32 s <> NaN.
Proof. apply round_ratio_not_nan. Qed.

Lemma all_finite (l : list float) :
  Forall (fun x => is_finite x = true) l -> exists vs, l = map Finite vs.
Proof.
  induction 1 as [|x l Hx _ [vs ->]]; [now exists []|].
  destruct x as [v| |]; try discriminate. now exists (v :: vs).
Qed.

Lemma maximum_finite (u v : Q) :
  maximum (Finite u) (Finite v) = Finite (if Qle_bool v u then u else v).
Proof. unfold maximum, ltb, leb. now destruct (Qle_bool v u). Qed.

Lemma fold_maximum_finite (l : list Q) (a : Q) :
  exists m,
    fold_left maximum (map Finite l) (Finite a) = Finite m /\
    (a <= m)%Q /\ Forall (fun b => b <= m)%Q l /\
    (forall M, a <= M -> Forall (fun b => b <= M) l -> m <= M)%Q.
Proof.
  revert a. induction l as [|b l IH]; intros a.
  - exists a. cbn. repeat split; [apply Qle_refl | constructor | tauto].
  - cbn [map fold_left]. rewrite maximum_finite.
    destruct (IH (if Qle_bool b a then a else b)) as (m & Hm & Ha & Hl & Hleast).
    exists m. split; [exact Hm|].
    destruct (Qle_bool b a) eqn:E.
    + apply Qle_bool_iff in E. repeat split; try assumption.
      * constructor; [|exact Hl]. eapply Qle_trans; eassumption.
      * intros M HaM HM. apply Hleast; [exact HaM | now apply Forall_inv_tail in HM].
    + assert (a <= b)%Q.
      { apply Qlt_le_weak, Qnot_le_lt. intros H. apply Qle_bool_iff in H. congruence. }
      repeat split.
      * eapply Qle_trans; eassumption.
      * constructor; assumption.
      * intros M HaM HM. apply Hleast;
          [now apply Forall_inv in HM | now apply Forall_inv_tail in HM].
Qed.

Lemma fold_maximum_inf (l : list float) (acc : float) :
  (acc = Inf false \/ exists v, acc = Finite v) ->
  Forall (fun y => y <> NaN) l ->
  (acc = Inf false \/ Exists (fun y => is_finite y = false) l) ->
  fold_left maximum (map abs l) acc = Inf false.
Proof.
  revert acc. induction l as [|y l IH]; intros acc Hacc Hnan Hinf.
  - destruct Hinf as [->|H]; [reflexivity | inversion H].
  - cbn [map fold_left]. pose proof (Forall_inv Hnan) as Hy.
    apply Forall_inv_tail in Hnan.
    destruct y as [v|s|]; [| |congruence].
    + destruct Hacc as [->|[u ->]].
      * cbn. apply IH; [now left | exact Hnan | now left].
      * cbn [abs]. rewrite maximum_finite. apply IH; [right; eexists; reflexivity | exact Hnan|].
        destruct Hinf as [H|H]; [discriminate|].
        inversion H as [? ? H1|? ? H1]; subst; [discriminate | now right].
    + replace (maximum acc (abs (Inf s))) with (Inf false)
        by (destruct Hacc as [->|[u ->]]; reflexivity).
      apply IH; [now left | exact Hnan | now left].
Qed.

Lemma peak_finite (vs : list Q) :
  vs <> [] ->
  exists m,
    peak (map Finite vs) = Ok (Finite m) /\
    Forall (fun v => Qabs v <= m)%Q vs /\
    (forall M, Forall (fun v => Qabs v <= M) vs -> m <= M)%Q.
Proof.
  destruct vs as [|v vs]; [congruence|]. intros _.
  cbn [peak map abs]. rewrite map_map. cbn [abs]. rewrite <- (map_map Qabs Finite).
  destruct (fold_maximum_finite (map Qabs vs) (Qabs v)) as (m & Hm & Ha & Hl & Hleast).
  exists m. rewrite Hm. split; [reflexivity|]. split.
  - constructor; [exact Ha|].
    exact (proj1 (Forall_map Qabs (fun b => b <= m)%Q vs) Hl).
  - intros M HM. apply Hleast; [now apply Forall_inv in HM|].
    apply Forall_inv_tail in HM.
    exact (proj2 (Forall_map Qabs (fun b => b <= M)%Q vs) HM).
Qed.

Lemma peak_inf (l : list float) :
  Forall (fun y => y <> NaN) l -> Exists (fun y => is_finite y = false) l ->
  peak l = Ok (Inf false).
Proof.
  intros Hnan Hinf. destruct l as [|x l]; [inversion Hinf|].
  cbn [peak]. f_equal. pose proof (Forall_inv Hnan) as Hx.
  apply fold_maximum_inf.
  - destruct x; [right; eexists; reflexivity | now left | congruence].
  - now apply Forall_inv_tail in Hnan.
  - inversion Hinf as [? ? H1|? ? H1]; subst; [left | now right].
    destruct x; [discriminate | reflexivity | congruence].
Qed.

Lemma scaled_within_unit (v m : Q) :
  (1 < m)%Q -> (Qabs v <= m)%Q -> within_unit (divide binary32 (Finite v) (Finite m)).
Proof.
  intros Hm Hv. cbn [divide].
  replace (Qeq_bool m 0) with false.
  2:{ symmetry. apply not_true_is_false. intros H. apply Qeq_bool_iff in H. lra. }
  destruct (round_unit binary32 (v / m)) as (w & -> & Hw);
    try reflexivity; try discriminate; [|exact Hw].
  unfold Qdiv. rewrite Qabs_Qmult, Qabs_Qinv. rewrite (Qabs_pos m) by lra.
  apply Qle_shift_div_r; lra.
Qed.

Lemma save_audio_length (audio : waveform) :
  audio <> [] ->
  exists w, save_audio audio = Ok w /\ length w = length audio.
Proof.
  intros Hne. unfold save_audio. destruct audio as [|s audio]; [congruence|].
  cbn [map peak bind].
  destruct (ltb _ _); eexists; (split; [reflexivity|]);
    cbn [length map]; now rewrite ?length_map.
Qed.

Lemma save_audio_finite (audio : waveform) (w : list float) :
  Forall (fun s => Qabs s < float32_overflow)%Q audio ->
  save_audio audio = Ok w ->
  Forall within_unit w.
Proof.
  intros Hall. unfold save_audio.
  destruct (all_finite (map (round binary32) audio)) as [vs Hvs].
  { apply Forall_map. eapply Forall_impl; [|exact Hall]. cbv beta. intros s Hs.
    destruct (is_finite (round binary32 s)) eqn:E; [reflexivity|].
    apply cast_overflow in E. lra. }
  rewrite Hvs. destruct vs as [|v vs]; [discriminate|].
  destruct (peak_finite (v :: vs) ltac:(discriminate)) as (m & -> & Hb & _).
  cbn [bind]. unfold ltb, leb.
  destruct (Qle_bool m 1) eqn:E; cbn [negb]; intros [= <-].
  - apply Qle_bool_iff in E. apply (proj2 (Forall_map Finite within_unit (v :: vs))).
    eapply Forall_impl; [|exact Hb]. cbv beta. intros u Hu. cbn. lra.
  - assert (1 < m)%Q.
    { apply Qnot_le_lt. intros H. apply Qle_bool_iff in H. congruence. }
    apply (proj2 (Forall_map (fun x => divide binary32 x (Finite m)) within_unit
                    (map Finite (v :: vs)))).
    apply (proj2 (Forall_map Finite _ (v :: vs))).
    eapply Forall_impl; [|exact Hb]. cbv beta. intros u Hu.
    now apply scaled_within_unit.
Qed.

Lemma save_audio_overflow (audio : waveform) :
  Exists (fun s => float32_overflow <= Qabs s)%Q audio ->
  save_audio audio
  = Ok (map (fun s => if is_finite (round binary32 s) then Finite 0 else NaN) audio).
Proof.
  intros Hex. unfold save_audio.
  rewrite (peak_inf (map (round binary32) audio)).
  - cbn [bind]. change (ltb (Finite 1) (Inf false)) with true. cbv iota.
    rewrite map_map. f_equal. apply map_ext. intros s.
    pose proof (cast_not_nan s) as Hn.
    destruct (round binary32 s) as [v|b|]; [reflexivity | reflexivity | congruence].
  - apply Forall_map. apply Forall_forall. intros s _. apply cast_not_nan.
  - apply Exists_map. eapply Exists_impl; [|exact Hex]. cbv beta. intros s Hs.
    now apply cast_overflow.
Qed.

Lemma save_audio_in_range (audio : waveform) :
  audio <> [] -> Forall (fun s => Qabs s <= 1)%Q audio ->
  save_audio audio = Ok (map (round binary32) audio).
Proof.
  intros Hne Hall. unfold save_audio.
  assert (Hc : Forall within_unit (map (round binary32) audio)).
  { apply Forall_map. eapply Forall_impl; [|exact Hall]. cbv beta. intros s Hs.
    destruct (round_unit binary32 s) as (v & -> & Hv);
      try reflexivity; try discriminate; assumption. }
  destruct (all_finite (map (round binary32) audio)) as [vs Hvs].
  { eapply Forall_impl; [|exact Hc]. intros [v| |]; cbn; tauto. }
  rewrite Hvs in *.
  assert (vs <> []) by (intros ->; destruct audio; [congruence | discriminate]).
  destruct (peak_finite vs ltac:(assumption)) as (m & -> & _ & Hleast).
  cbn [bind]. unfold ltb, leb.
  assert (Hm : (m <= 1)%Q).
  { apply Hleast. exact (proj1 (Forall_map Finite within_unit vs) Hc). }
  apply Qle_bool_iff in Hm. now rewrite Hm.
Qed.

End Saving.

(** X16. [save_audio] fails on an empty array (the maximum of nothing) and
    otherwise writes as many samples as it was given, as [float32] values.
    When every sample is below [float32_overflow] in magnitude, every
    written sample is finite and within [-1, 1]; samples that are all
    within [-1, 1] are written as rounded, without scaling. But a sample of
    [float32_overflow] or more rounds to an infinity, the peak is infinite,
    and the division by it writes a NaN for every such sample and a zero
    for every other one. *)
Theorem save_audio_normalizes (audio : waveform) :
  (audio = [] -> save_audio audio = Raise zero_size) /\
  (audio <> [] ->
   exists w,
     save_audio audio = Ok w /\ length w = length audio /\
     (Forall (fun s => Qabs s < float32_overflow)%Q audio -> Forall within_unit w) /\
     (Forall (fun s => Qabs s <= 1)%Q audio ->
      w = map (Float.round Float.binary32) audio) /\
     (Exists (fun s => float32_overflow <= Qabs s)%Q audio ->
      w = map (fun s => if Qle_bool float32_overflow (Qabs s)
                        then Float.NaN else Float.Finite 0) audio)).
Proof.
  split; [now intros ->|].
  intros Hne. destruct (save_audio_length audio Hne) as (w & Hw & Hl).
  exists w. split; [exact Hw|]. split; [exact Hl|]. split; [|split].
  - intros Hall. now apply (save_audio_finite audio).
  - intros Hall. rewrite (save_audio_in_range audio Hne Hall) in Hw. congruence.
  - intros Hex. rewrite (save_audio_overflow audio Hex) in Hw.
    injection Hw as <-. apply map_ext. intros s.
    destruct (Qle_bool float32_overflow (Qabs s)) eqn:E.
    + apply Qle_bool_iff, cast_overflow in E. now rewrite E.
    + destruct (Float.is_finite (Float.round Float.binary32 s)) eqn:E'; [reflexivity|].
      apply cast_overflow, Qle_bool_iff in E'. congruence.
Qed.

Lemma save_audio_normalizes_witness :
  exists w,
    save_audio [1; -4; 2]%Q = Ok w /\ length w = 3 /\
    (Forall (fun s => Qabs s < float32_overflow)%Q [1; -4; 2]%Q ->
     Forall within_unit w) /\
    (Forall (fun s => Qabs s <= 1)%Q [1; -4; 2]%Q ->
     w = map (Float.round Float.binary32) [1; -4; 2]%Q) /\
    (Exists (fun s => float32_overflow <= Qabs s)%Q [1; -4; 2]%Q ->
     w = map (fun s => if Qle_bool float32_overflow (Qabs s)
                       then Float.NaN else Float.Finite 0) [1; -4; 2]%Q).
Proof.
  apply (proj2 (save_audio_normalizes [1; -4; 2]%Q)). discriminate.
Defined.

(** * Suggestions, the parser and the engine *)

Section KnownVoices.

Lemma suggest_is_assignment (script_text : string) :
  suggest_voice_mappings script_text
  = Ok (assignment [] (characters_of script_text)).
Proof.
  unfold suggest_voice_mappings, suggest_chars. rewrite characters_of_keys.
  rewrite (suggest_loop_fresh (characters_of script_text) [] (mkS [] 0 0));
    try reflexivity.
  - apply first_appearances_Forall; [apply characters_have_token | constructor].
  - apply first_appearances_NoDup. constructor.
Qed.

Lemma expected_voice_in_pools (before : list string) (c : string) :
  In (expected_voice before c) (pool "male" ++ pool "female").
Proof.
  unfold expected_voice.
  destruct (kind_of c).
  - apply in_or_app. left. apply nth_In. apply Nat.mod_upper_bound. discriminate.
  - apply in_or_app. right. apply nth_In. apply Nat.mod_upper_bound. discriminate.
  - simpl. tauto.
  - destruct (Nat.even (length before)); simpl; tauto.
Qed.

Lemma assignment_values (before todo : list string) :
  Forall (fun v => In v (pool "male" ++ pool "female"))
         (Dict.values (assignment before todo)).
Proof.
  revert before. induction todo as [|c rest IH]; intros before; [constructor|].
  cbn [assignment Dict.values map snd]. constructor;
    [apply expected_voice_in_pools | apply IH].
Qed.

Lemma pools_known (v : string) :
  In v (pool "male" ++ pool "female") ->
  mem v (Dict.keys KokoroTTSEngine.voices) = true.
Proof.
  simpl. intros H. repeat (destruct H as [<-|H]; [reflexivity|]). contradiction.
Qed.

Lemma builtin_known (v : string) :
  In v builtin_voices -> mem v (Dict.keys KokoroTTSEngine.voices) = true.
Proof.
  simpl. intros H. repeat (destruct H as [<-|H]; [reflexivity|]). contradiction.
Qed.

Lemma key_has_value {V : Type} (k : string) (d : Dict.t V) :
  In k (Dict.keys d) -> exists v, Dict.get k d = Some v.
Proof.
  induction d as [|[k' v'] d IH]; simpl; [contradiction|].
  intros H. destruct (String.eqb k k') eqn:E; [now exists v'|].
  destruct H as [<-|H]; [now rewrite String.eqb_refl in E | now apply IH].
Qed.

End KnownVoices.

(** X18. Every voice that the parser picks by itself is a voice of the
    engine: the voices of [parse_script] called without a voice map, and
    the voices that [suggest_voice_mappings] proposes, which all come from
    the male or the female pool. With them the engine never falls back to
    its default voice. *)
Theorem parser_voices_are_engine_voices (script_text : string) :
  (exists segs,
     parse_script script_text None = Ok segs /\
     Forall (fun seg : segment =>
               mem (fst seg) (Dict.keys KokoroTTSEngine.voices) = true) segs) /\
  (exists m,
     suggest_voice_mappings script_text = Ok m /\
     Forall (fun v => In v (pool "male" ++ pool "female") /\
                      mem v (Dict.keys KokoroTTSEngine.voices) = true)
            (Dict.values m)).
Proof.
  split.
  - destruct (parse_script_ok script_text None) as (segs & H & Hall).
    exists segs. split; [exact H|].
    eapply Forall_impl; [|exact Hall].
    intros seg [_ [[]|Hv]]. now apply builtin_known.
  - exists (assignment [] (characters_of script_text)).
    split; [apply suggest_is_assignment|].
    eapply Forall_impl; [|apply assignment_values].
    cbv beta. intros v Hv. split; [exact Hv | now apply pools_known].
Qed.

(** X19. The suggestions fed back as a voice map give every detected
    character its suggested voice: for a name whose upper-case form is a
    character of the script, voice resolution under the suggested map
    returns the voice the map holds for that character. *)
Theorem suggestions_round_trip (script_text s : string) (m : Dict.t string) :
  suggest_voice_mappings script_text = Ok m ->
  In (upper s) (Dict.keys (detect_characters script_text)) ->
  exists v,
    Dict.get (upper s) m = Some v /\
    _get_voice_for_speaker s m = Ok v.
Proof.
  rewrite suggest_is_assignment, characters_of_keys. intros [= <-] Hin.
  rewrite <- (keys_assignment [] (characters_of script_text)) in Hin.
  destruct (key_has_value _ _ Hin) as [v Hv].
  exists v. split; [exact Hv|].
  unfold _get_voice_for_speaker. now rewrite Hv.
Qed.

Lemma suggestions_round_trip_witness :
  exists v,
    Dict.get (upper "Mike") [("JOHN", "am_adam"); ("MIKE", "am_michael")] = Some v /\
    _get_voice_for_speaker "Mike" [("JOHN", "am_adam"); ("MIKE", "am_michael")] = Ok v.
Proof.
  apply (suggestions_round_trip (unlines ["JOHN: a"; "MIKE: b"]) "Mike").
  - reflexivity.
  - simpl. tauto.
Defined.

(** * Properties of the engine *)

Section EngineProps.

Import KokoroTTSEngine.

Variable Speed : Type.

Lemma blank_or_not (s : string) :
  (strip s = EmptyString /\ truthy (strip s) = false) \/
  (strip s <> EmptyString /\ truthy (strip s) = true).
Proof. destruct (strip s); [left | right]; split; (reflexivity || discriminate). Qed.

Lemma synthesize_known_voice
      (run : string -> string -> Speed -> string + list waveform)
      (text voice : string) (speed : Speed) :
  mem voice (Dict.keys voices) = false ->
  synthesize Speed (Some run) text voice speed
  = synthesize Speed (Some run) text "af_heart" speed.
Proof. intros H. unfold synthesize. now rewrite H. Qed.

Lemma synthesize_failure
      (pipeline : option (string -> string -> Speed -> string + list waveform))
      (text voice : string) (speed : Speed) (e : pyexn) :
  synthesize Speed pipeline text voice speed = Failed e ->
  (pipeline = None /\ e = RuntimeError "TTS engine not initialized") \/
  (pipeline <> None /\ strip text = EmptyString /\
   e = Builtin (ValueError "Text cannot be empty")) \/
  (pipeline <> None /\ strip text <> EmptyString /\
   exists msg, e = RuntimeError (String.append "Synthesis failed: " msg)).
Proof.
  unfold synthesize. destruct pipeline as [run|]; [|intros [= <-]; now left].
  destruct (truthy (strip text)) eqn:Ht; cbn [negb].
  - apply truthy_nonempty in Ht.
    destruct (run text _ speed) as [msg|[|c chunks]]; [| |discriminate];
      intros [= <-]; right; right;
      (split; [discriminate | split; [exact Ht | eexists; reflexivity]]).
  - intros [= <-]. right. left. repeat split; [discriminate|].
    destruct (strip text); [reflexivity | discriminate].
Qed.

End EngineProps.

(** X20. The engine replaces a voice it does not know by af_heart, and so
    never hands the pipeline a voice outside its table: an unknown voice
    gives what af_heart gives, and two pipelines that agree on the known
    voices give the same result for every voice. *)
Theorem unknown_voice_is_af_heart
    (Speed : Type) (run run' : string -> string -> Speed -> string + list waveform)
    (text voice : string) (speed : Speed) :
  (mem voice (Dict.keys KokoroTTSEngine.voices) = false ->
   KokoroTTSEngine.synthesize Speed (Some run) text voice speed
   = KokoroTTSEngine.synthesize Speed (Some run) text "af_heart" speed) /\
  ((forall t v s, mem v (Dict.keys KokoroTTSEngine.voices) = true ->
                  run t v s = run' t v s) ->
   KokoroTTSEngine.synthesize Speed (Some run) text voice speed
   = KokoroTTSEngine.synthesize Speed (Some run') text voice speed).
Proof.
  split; [apply synthesize_known_voice|].
  intros H. unfold KokoroTTSEngine.synthesize.
  destruct (negb (truthy (strip text))); [reflexivity|].
  rewrite H; [reflexivity|].
  destruct (mem voice (Dict.keys KokoroTTSEngine.voices)) eqn:E; [exact E | reflexivity].
Qed.

Lemma unknown_voice_is_af_heart_witness :
  KokoroTTSEngine.synthesize nat (Some (fun _ v _ => inl v)) "hi" "robot" 1
  = KokoroTTSEngine.synthesize nat (Some (fun _ v _ => inl v)) "hi" "af_heart" 1.
Proof.
  apply (proj1 (unknown_voice_is_af_heart nat (fun _ v _ => inl v) (fun _ v _ => inl v)
                  "hi" "robot" 1)).
  reflexivity.
Defined.

(** X21. What [synthesize] does. It raises RuntimeError when the pipeline
    is missing, ValueError for a text that is white space throughout, and
    for the rest, whatever went wrong in the pipeline, an empty output
    included, a RuntimeError whose message is "Synthesis failed: " followed
    by the message of the pipeline. It returns exactly when the pipeline,
    called with the text and the voice (af_heart for an unknown one), gives
    one chunk at least, and the audio is then the concatenation of these
    chunks. *)
Theorem synthesize_outcomes
    (Speed : Type)
    (pipeline : option (string -> string -> Speed -> string + list waveform))
    (text voice : string) (speed : Speed) :
  (forall e,
     KokoroTTSEngine.synthesize Speed pipeline text voice speed = Failed e ->
     (pipeline = None /\ e = RuntimeError "TTS engine not initialized") \/
     (pipeline <> None /\ strip text = EmptyString /\
      e = Builtin (ValueError "Text cannot be empty")) \/
     (pipeline <> None /\ strip text <> EmptyString /\
      exists msg, e = RuntimeError (String.append "Synthesis failed: " msg))) /\
  (forall audio,
     KokoroTTSEngine.synthesize Speed pipeline text voice speed = Done audio <->
     exists run chunks,
       pipeline = Some run /\ strip text <> EmptyString /\
       run text (effective_voice voice) speed = inr chunks /\
       chunks <> [] /\ audio = List.concat chunks) /\
  (forall run,
     pipeline = Some run -> strip text <> EmptyString ->
     (run text (effective_voice voice) speed = inr [] ->
      KokoroTTSEngine.synthesize Speed pipeline text voice speed
      = Failed (RuntimeError "Synthesis failed: No audio generated")) /\
     (forall msg,
        run text (effective_voice voice) speed = inl msg ->
        KokoroTTSEngine.synthesize Speed pipeline text voice speed
        = Failed (RuntimeError (String.append "Synthesis failed: " msg)))).
Proof.
  split; [intros e; apply synthesize_failure|]. split.
  - intros audio. unfold KokoroTTSEngine.synthesize, effective_voice.
    destruct pipeline as [run|].
    + destruct (blank_or_not text) as [[Hb ->] | [Hb ->]]; cbn [negb].
      * split; [discriminate|]. intros (run' & chunks & _ & H & _). contradiction.
      * destruct (mem voice (Dict.keys KokoroTTSEngine.voices)); cbn [negb];
          (split;
           [ destruct (run text _ speed) as [msg|[|c chunks]] eqn:Hr; try discriminate;
             intros [= <-]; exists run, (c :: chunks);
             repeat split; try assumption; discriminate
           | intros (run' & chunks & [= <-] & _ & -> & Hne & ->);
             destruct chunks; [congruence | reflexivity] ]).
    + split; [discriminate|]. intros (run' & chunks & H & _). discriminate.
  - intros run -> Hb. unfold KokoroTTSEngine.synthesize, effective_voice.
    destruct (blank_or_not text) as [[Hb' _] | [_ ->]]; [contradiction|]. cbn [negb].
    destruct (mem voice (Dict.keys KokoroTTSEngine.voices)); cbn [negb];
      (split; [intros -> | intros msg ->]; reflexivity).
Qed.

Lemma synthesize_outcomes_witness :
  KokoroTTSEngine.synthesize nat (Some (fun _ v _ => inl v)) "hi" "robot" 1
  = Failed (RuntimeError (String.append "Synthesis failed: " "af_heart")).
Proof.
  apply (proj2 (proj2 (proj2 (synthesize_outcomes nat (Some (fun _ v _ => inl v))
                                "hi" "robot" 1))
                  (fun _ v _ => inl v) eq_refl ltac:(discriminate))).
  reflexivity.
Defined.

(** * Properties of the endpoints *)

Section EndpointProps.

Import KokoroTTSEngine App.

Variable Speed : Type.
Variable default_speed : Speed.
Variable pipeline : option (string -> string -> Speed -> string + list waveform).

Lemma synthesize_all_spec (segs : list segment) (speed : Speed) :
  Forall (fun seg : segment => strip (snd seg) <> EmptyString) segs ->
  (forall e, synthesize_all Speed pipeline segs speed = Failed e ->
             exists msg, e = RuntimeError msg) /\
  (forall l, synthesize_all Speed pipeline segs speed = Done l ->
             length l = length segs).
Proof.
  induction 1 as [|[voice text] rest Hseg _ [IHe IHl]].
  - split; [discriminate | now intros l [= <-]].
  - cbn [synthesize_all snd] in *.
    destruct (synthesize Speed pipeline (strip text) voice speed) as [a|e0] eqn:Hs.
    + cbn [and_then].
      destruct (synthesize_all Speed pipeline rest speed) as [l0|e1]; cbn [and_then].
      * split; [discriminate|]. intros l [= <-]. cbn [length]. f_equal. now apply IHl.
      * split; [|discriminate]. intros e [= <-]. now apply IHe.
    + cbn [and_then]. split; [|discriminate]. intros e [= <-].
      apply synthesize_failure in Hs.
      destruct Hs as [[_ ->] | [(_ & Hb & _) | (_ & _ & msg & ->)]].
      * eexists; reflexivity.
      * rewrite strip_idem in Hb. contradiction.
      * eexists; reflexivity.
Qed.

(** The three things the concatenation of a request can do. *)
Lemma concatenate_request_spec (l : list waveform) (cf : option Z) :
  l <> [] ->
  (exists w, concatenate_request l cf = Done w) \/
  (cf = None /\ 2 <= length l /\ concatenate_request l cf = Failed null_crossfade) \/
  (exists ms, cf = Some ms /\ 2 <= length l /\
              (window_overflow <= Z.abs (sample_rate * ms))%Z /\
              concatenate_request l cf = Failed (Builtin overflow)).
Proof.
  intros Hl. destruct l as [|a [|b rest]]; [congruence | |].
  - left. exists a. now destruct cf.
  - destruct cf as [ms|].
    + cbn [concatenate_request].
      destruct (concatenate_some sample_rate ms a b rest)
        as [(_ & n & _ & ->) | (Hge & ->)]; cbn [lift].
      * left. eexists. reflexivity.
      * right. right. exists ms. repeat split; [simpl; lia | exact Hge].
    + right. left. repeat split. simpl. lia.
Qed.

Lemma save_audio_outcome (audio : waveform) :
  (audio = [] /\ save_audio audio = Raise zero_size) \/
  (exists w, save_audio audio = Ok w /\ length w = length audio /\ w <> []).
Proof.
  destruct audio as [|x rest]; [now left|]. right.
  destruct (save_audio_length (x :: rest) ltac:(discriminate)) as (w & Hw & Hl).
  exists w. repeat split; [exact Hw | exact Hl|]. intros ->. discriminate.
Qed.

(** What [render] can do with segments none of which is blank. *)
Lemma render_spec (segs : list segment) (speed : Speed) (cf : option Z) :
  segs <> [] ->
  Forall (fun seg : segment => strip (snd seg) <> EmptyString) segs ->
  (exists w, render Speed pipeline segs speed cf = Done w /\ w <> []) \/
  (exists e, render Speed pipeline segs speed cf = Failed e /\
             ((exists msg, e = RuntimeError msg) \/
              (cf = None /\ 2 <= length segs /\ e = null_crossfade) \/
              (exists ms, cf = Some ms /\ 2 <= length segs /\
                          (window_overflow <= Z.abs (sample_rate * ms))%Z /\
                          e = Builtin overflow) \/
              e = Builtin zero_size)).
Proof.
  intros Hne Hink. destruct (synthesize_all_spec segs speed Hink) as [He Hl].
  unfold render.
  destruct (synthesize_all Speed pipeline segs speed) as [l|e]; cbn [and_then].
  - specialize (Hl l eq_refl).
    assert (Hlne : l <> []).
    { intros ->. destruct segs; [now apply Hne | discriminate Hl]. }
    destruct (concatenate_request_spec l cf Hlne)
      as [[w ->] | [(-> & H2 & ->) | (ms & -> & H2 & Hov & ->)]]; cbn [and_then].
    + destruct (save_audio_outcome w) as [[-> ->] | (w' & -> & _ & Hw)]; cbn [lift].
      * right. eexists. split; [reflexivity|]. now right; right; right.
      * left. now exists w'.
    + right. eexists. split; [reflexivity|]. right. left. repeat split. lia.
    + right. eexists. split; [reflexivity|]. right. right. left.
      exists ms. repeat split; [lia | exact Hov].
  - right. exists e. split; [reflexivity|]. left. now apply He.
Qed.

End EndpointProps.

Section EndpointOutcomes.

Import KokoroTTSEngine App.

Variable Speed : Type.
Variable default_speed : Speed.
Variable pipeline : option (string -> string -> Speed -> string + list waveform).



Lemma fixed_crossfade_fits : ~ (window_overflow <= Z.abs (sample_rate * 50))%Z.
Proof. vm_compute. intros H. now apply H. Qed.

Lemma script_body_failure (script_text : string) (e : pyexn) :
  synthesize_script_body Speed default_speed pipeline script_text = Failed e ->
  (strip script_text = EmptyString /\ e = HTTPException 400 "Empty script file") \/
  (strip script_text <> EmptyString /\ parse_script script_text None = Ok [] /\
   e = HTTPException 400 "No dialogue detected. Use format like 'CHARACTER: dialogue'") \/
  (exists msg, e = RuntimeError msg) \/
  e = Builtin zero_size.
Proof.
  unfold synthesize_script_body.
  destruct (blank_or_not script_text) as [[Hb ->] | [Hb ->]]; cbn [negb].
  - intros [= <-]. now left.
  - destruct (parse_lines_inked [] (split_on nl script_text)) as (segs & Hp & Hink).
    fold (parse_script script_text None) in Hp.
    rewrite Hp. cbn [lift and_then].
    destruct segs as [|seg segs]; [intros [= <-]; right; left; now repeat split|].
    destruct (render_spec Speed pipeline (seg :: segs) default_speed (Some 50%Z)
                ltac:(discriminate) Hink)
      as [(w & -> & _) | (e' & -> & Hcause)]; [discriminate|].
    intros [= <-]. right. right.
    destruct Hcause as [H | [(H1 & _) | [(ms & H1 & _ & H2 & _) | H]]];
      [tauto | discriminate | | tauto].
    injection H1 as <-. now apply fixed_crossfade_fits in H2.
Qed.

Lemma script_body_success (script_text : string) (samples : list Float.float) :
  synthesize_script_body Speed default_speed pipeline script_text = Done samples ->
  samples <> [].
Proof.
  unfold synthesize_script_body.
  destruct (blank_or_not script_text) as [[Hb ->] | [Hb ->]]; cbn [negb];
    [discriminate|].
  destruct (parse_lines_inked [] (split_on nl script_text)) as (segs & Hp & Hink).
  fold (parse_script script_text None) in Hp.
  rewrite Hp. cbn [lift and_then].
  destruct segs as [|seg segs]; [discriminate|].
  destruct (render_spec Speed pipeline (seg :: segs) default_speed (Some 50%Z)
              ltac:(discriminate) Hink)
    as [(w & -> & Hw) | (e' & -> & _)]; [|discriminate].
  now intros [= <-].
Qed.

Lemma batch_item_spec (request : BatchTTSRequest Speed) (t : string) :
  (strip t = EmptyString /\ batch_item Speed pipeline request t = Done None) \/
  (strip t <> EmptyString /\
   ((exists w, batch_item Speed pipeline request t = Done (Some w) /\ w <> []) \/
    (exists e, batch_item Speed pipeline request t = Failed e /\
               ((exists msg, e = RuntimeError msg) \/
                (batch_crossfade_ms Speed request = None /\ e = null_crossfade) \/
                (exists ms, batch_crossfade_ms Speed request = Some ms /\
                            (window_overflow <= Z.abs (sample_rate * ms))%Z /\
                            e = Builtin overflow) \/
                e = Builtin zero_size)))).
Proof.
  unfold batch_item.
  destruct (blank_or_not t) as [[Hb ->] | [Hb ->]]; cbn [negb]; [now left|].
  right. split; [exact Hb|].
  destruct (parse_lines_inked
              (match batch_voice_mappings Speed request with Some d => d | None => [] end)
              (split_on nl t)) as (segs & Hp & Hink).
  fold (parse_script t (batch_voice_mappings Speed request)) in Hp.
  rewrite Hp. cbn [lift and_then].
  set (segs' := match segs with [] => [("af_heart", t)] | _ :: _ => segs end).
  assert (Hne : segs' <> []) by (unfold segs'; destruct segs; discriminate).
  assert (Hink' : Forall (fun seg : segment => strip (snd seg) <> EmptyString) segs').
  { unfold segs'. destruct segs; [|exact Hink]. now repeat constructor. }
  destruct (render_spec Speed pipeline segs' (batch_speed Speed request)
              (batch_crossfade_ms Speed request) Hne Hink')
    as [(w & -> & Hw) | (e' & -> & Hcause)]; cbn [and_then].
  - left. now exists w.
  - right. exists e'. split; [reflexivity|].
    destruct Hcause as [H | [(H1 & _ & H2) | [(ms & H1 & _ & H2 & H3) | H]]];
      [tauto | tauto | | tauto].
    right. right. left. now exists ms.
Qed.

Lemma batch_loop_spec (request : BatchTTSRequest Speed) (todo : list string)
      (acc : list (list Float.float)) :
  (forall files,
     batch_loop Speed pipeline request todo acc = Done files ->
     length files = length acc + length (filter (fun t => truthy (strip t)) todo) /\
     (Forall (fun w => w <> []) acc -> Forall (fun w => w <> []) files)) /\
  (forall e,
     batch_loop Speed pipeline request todo acc = Failed e ->
     (exists msg, e = RuntimeError msg) \/
     (batch_crossfade_ms Speed request = None /\ e = null_crossfade) \/
     (exists ms, batch_crossfade_ms Speed request = Some ms /\
                 (window_overflow <= Z.abs (sample_rate * ms))%Z /\
                 e = Builtin overflow) \/
     e = Builtin zero_size) /\
  (Forall (fun t => strip t = EmptyString) todo ->
   batch_loop Speed pipeline request todo acc = Done acc).
Proof.
  revert acc. induction todo as [|t rest IH]; intros acc.
  - cbn [batch_loop filter length]. split; [|split; [discriminate | reflexivity]].
    intros files [= <-]. split; [lia | trivial].
  - cbn [batch_loop filter].
    destruct (batch_item_spec request t)
      as [[Hb ->] | [Hb [(w & -> & Hw) | (e' & -> & Hc)]]]; cbn [and_then].
    + replace (truthy (strip t)) with false by now rewrite Hb.
      destruct (IH acc) as (H1 & H2 & H3).
      split; [exact H1|]. split; [exact H2|].
      intros Hall. apply H3. now apply Forall_inv_tail in Hall.
    + replace (truthy (strip t)) with true
        by (symmetry; now apply truthy_nonempty).
      destruct (IH (acc ++ [w])) as (H1 & H2 & _).
      split; [|split; [exact H2|]].
      * intros files Hf. destruct (H1 files Hf) as [Hl Hg].
        rewrite length_app in Hl. cbn [length] in *. split; [lia|].
        intros Hacc. apply Hg. apply Forall_app. split; [exact Hacc|].
        now repeat constructor.
      * intros Hall. apply Forall_inv in Hall. contradiction.
    + split; [discriminate|]. split; [now intros e [= <-]|].
      intros Hall. apply Forall_inv in Hall. contradiction.
Qed.

End EndpointOutcomes.



(** X23. POST /synthesize/script, from the decoded text on. The body can
    fail for four reasons only: a blank script; no segment parsed; a
    RuntimeError of the engine; an empty final audio. With its fixed
    crossfade of 50 ms, a window of 1200 samples, and no voice map, neither
    the parser nor the concatenator raises. Every failure is answered with
    status 500, and a file that is answered holds one sample at least. *)
Theorem script_endpoint_outcomes
    (Speed : Type) (default_speed : Speed)
    (pipeline : option (string -> string -> Speed -> string + list waveform))
    (str_http : nat -> string -> string) (stem script_text : string) :
  (forall e,
     App.synthesize_script_body Speed default_speed pipeline script_text = Failed e ->
     (strip script_text = EmptyString /\ e = HTTPException 400 "Empty script file") \/
     (strip script_text <> EmptyString /\ parse_script script_text None = Ok [] /\
      e = HTTPException 400
            "No dialogue detected. Use format like 'CHARACTER: dialogue'") \/
     (exists msg, e = RuntimeError msg) \/
     e = Builtin zero_size) /\
  crossfade_samples App.sample_rate 50 = Ok 1200%Z /\
  ((exists samples,
      App.synthesize_script Speed default_speed pipeline str_http stem script_text
      = App.FileResponse samples (String.append stem "_audio.wav") /\
      samples <> []) \/
   (exists detail,
      App.synthesize_script Speed default_speed pipeline str_http stem script_text
      = App.ErrorResponse 500 detail)).
Proof.
  split; [intros e; apply script_body_failure|].
  split; [vm_compute; reflexivity|].
  unfold App.synthesize_script, App.answer.
  destruct (App.synthesize_script_body Speed default_speed pipeline script_text)
    as [samples|e] eqn:Hb; [|right; eexists; reflexivity].
  left. exists samples. split; [reflexivity|].
  exact (script_body_success Speed default_speed pipeline script_text samples Hb).
Qed.

Lemma script_endpoint_outcomes_witness :
  exists msg : string,
    RuntimeError "TTS engine not initialized" = RuntimeError msg.
Proof.
  destruct (proj1 (script_endpoint_outcomes nat 1 None (fun _ d => d) "play" "JOHN: hi")
              (RuntimeError "TTS engine not initialized") eq_refl)
    as [[_ H] | [(_ & _ & H) | [H | H]]];
    [discriminate H | discriminate H | exact H | discriminate H].
Defined.

(** X24. POST /synthesize/batch. An empty list of texts fails (and is
    answered 500). Blank texts are skipped: a list of blank texts only
    succeeds with an empty archive. When the body succeeds there is one
    file for each text that is not blank, each with one sample at least.
    Apart from the empty list, the body fails only by a RuntimeError of the
    engine, a null [crossfade_ms] or one that overflows the window, with
    two segments or more, or an empty final audio. *)
Theorem batch_endpoint_outcomes
    (Speed : Type)
    (pipeline : option (string -> string -> Speed -> string + list waveform))
    (request : App.BatchTTSRequest Speed) :
  (App.texts Speed request = [] ->
   App.synthesize_batch_body Speed pipeline request
   = Failed (HTTPException 400 "No texts provided")) /\
  (App.texts Speed request <> [] ->
   Forall (fun t => strip t = EmptyString) (App.texts Speed request) ->
   App.synthesize_batch_body Speed pipeline request = Done []) /\
  (forall files,
     App.synthesize_batch_body Speed pipeline request = Done files ->
     length files
     = length (filter (fun t => truthy (strip t)) (App.texts Speed request)) /\
     Forall (fun w => w <> []) files) /\
  (forall e,
     App.synthesize_batch_body Speed pipeline request = Failed e ->
     e = HTTPException 400 "No texts provided" \/
     (exists msg, e = RuntimeError msg) \/
     (App.batch_crossfade_ms Speed request = None /\ e = null_crossfade) \/
     (exists ms, App.batch_crossfade_ms Speed request = Some ms /\
                 (window_overflow <= Z.abs (App.sample_rate * ms))%Z /\
                 e = Builtin overflow) \/
     e = Builtin zero_size).
Proof.
  unfold App.synthesize_batch_body.
  destruct (App.texts Speed request) as [|t rest] eqn:Ht.
  - split; [reflexivity|]. split; [congruence|]. split; [discriminate|].
    intros e [= <-]. now left.
  - destruct (batch_loop_spec Speed pipeline request (t :: rest) []) as (H1 & H2 & H3).
    split; [discriminate|]. split; [intros _; exact H3|]. split.
    + intros files Hf. destruct (H1 files Hf) as [Hl Hg].
      split; [exact Hl | apply Hg; constructor].
    + intros e He. right. now apply H2.
Qed.

Lemma batch_endpoint_outcomes_witness :
  length [[Float.Finite (8388608 # 16777216)];
          [Float.Finite (8388608 # 8388608); Float.Finite (-8388608 # 33554432)]]
  = length (filter (fun t => truthy (strip t)) ["JOHN: hi"; "  "; "loud"]) /\
  Forall (fun w : list Float.float => w <> [])
         [[Float.Finite (8388608 # 16777216)];
          [Float.Finite (8388608 # 8388608); Float.Finite (-8388608 # 33554432)]].
Proof.
  apply (proj1 (proj2 (proj2
           (batch_endpoint_outcomes nat
              (Some (fun t _ _ => if String.eqb t "hi" then inr [[1 # 2]%Q]
                                  else inr [[4; -1]%Q]))
              (App.mkBatchTTSRequest nat ["JOHN: hi"; "  "; "loud"] None 1 None))))
           [[Float.Finite (8388608 # 16777216)];
            [Float.Finite (8388608 # 8388608); Float.Finite (-8388608 # 33554432)]]).
  vm_compute. reflexivity.
Defined.

(** * How [parse_script] composes *)

Section Composition.

Variable vm : Dict.t string.

Lemma step_blank (st : state) (raw : string) :
  strip raw = EmptyString -> step vm st raw = Ok st.
Proof. intros H. unfold step. now rewrite H. Qed.

Lemma blank_line_is_transparent (pre post : list string) (blank : string) :
  strip blank = EmptyString ->
  parse_lines (pre ++ blank :: post) vm = parse_lines (pre ++ post) vm.
Proof.
  intros H. unfold parse_lines. rewrite !loop_app.
  destruct (loop vm initial pre) as [st|e]; [|reflexivity].
  cbn [bind loop]. now rewrite (step_blank st blank H).
Qed.

End Composition.

(** X25. A cue cuts a script in two scripts that are parsed apart: the
    segments of a script are the segments of the lines before the cue
    followed by the segments of the script that starts at the cue. What
    comes before a cue never reaches the segments after it. *)
Theorem cue_cuts_the_script
    (vm : Dict.t string) (pre rest : list string) (cue speaker dialogue : string) :
  _detect_speaker (strip cue) = Some (speaker, dialogue) ->
  exists before after,
    parse_lines pre vm = Ok before /\
    parse_lines (cue :: rest) vm = Ok after /\
    parse_lines (pre ++ cue :: rest) vm = Ok (before ++ after).
Proof.
  intros Hd.
  destruct (parse_lines_ok vm pre) as (before & Hb & _).
  destruct (parse_lines_ok vm (cue :: rest)) as (after & Ha & _).
  exists before, after. repeat split; try assumption.
  rewrite (cue_splits vm pre rest cue speaker dialogue Hd).
  now rewrite Hb, Ha.
Qed.

Lemma cue_cuts_the_script_witness :
  exists before after,
    parse_lines ["JOHN: hi"; "there"] [] = Ok before /\
    parse_lines ["SARAH: yo"; "yes"] [] = Ok after /\
    parse_lines (["JOHN: hi"; "there"] ++ "SARAH: yo" :: ["yes"]) [] = Ok (before ++ after).
Proof.
  apply (cue_cuts_the_script [] ["JOHN: hi"; "there"] ["yes"] "SARAH: yo" "SARAH" "yo").
  reflexivity.
Defined.

(** X26. Blank lines change nothing: a script with a blank line taken out
    gives the same result, segments or error, as the script with the line
    in, wherever the line stands. *)
Theorem blank_lines_change_nothing
    (vm : Dict.t string) (pre post : list string) (blank : string) :
  strip blank = EmptyString ->
  parse_lines (pre ++ blank :: post) vm = parse_lines (pre ++ post) vm.
Proof. apply blank_line_is_transparent. Qed.

Lemma blank_lines_change_nothing_witness :
  parse_lines (["JOHN: hi"] ++ "   " :: ["there"]) []
  = parse_lines (["JOHN: hi"] ++ ["there"]) [].
Proof.
  apply (blank_lines_change_nothing [] ["JOHN: hi"] ["there"] "   "). reflexivity.
Defined.
